(** * MADNESS: fixed-size containers, the binary file archive and the
      macro-task front end

    A shallow embedding of
    - [src/lib/world/array.h]    ([Vector<T,N>] and [Stack<T,N>]),
    - [src/lib/world/binfsar.h]  (the binary file-stream archives),
    - [src/madness/mra/test_vectormacrotask.cc] ([MacroTask_2G] and the
      tests that drive it),
    followed by the properties established for them.

    The classes the front end calls whose code is not among these sources
    ([Cloud], [MacroTaskQ], [Batch], [MacroTaskPartitioner]) are modelled
    from the specification; each such definition says so.

    Part I holds the definitions, Part II the lemmas and theorems. *)

From Stdlib Require Import ZArith Lia Floats Strings.Byte Strings.String.
From stdpp Require Import base option list.

Set Default Proof Using "Type".

(* ===================================================================== *)
(** * Part I: definitions                                                  *)
(* ===================================================================== *)

(** ** Outcomes of a C++ call

    A call either returns, trips a [MADNESS_ASSERT]/[MADNESS_CHECK], throws,
    or reads or writes an array outside its bounds (undefined behaviour,
    kept apart so that its absence can be stated). *)

Inductive outcome (A : Type) : Type :=
  | Ok (a : A)
  | AssertFailed
  | Thrown (msg : string)
  | OutOfBounds.
Arguments Ok {A} a.
Arguments AssertFailed {A}.
Arguments Thrown {A} msg.
Arguments OutOfBounds {A}.

Definition obind {A B} (m : outcome A) (k : A -> outcome B) : outcome B :=
  match m with
  | Ok a => k a
  | AssertFailed => AssertFailed
  | Thrown msg => Thrown msg
  | OutOfBounds => OutOfBounds
  end.

Declare Scope outcome_scope.
Delimit Scope outcome_scope with outcome.
Notation "'let*' x ':=' m 'in' k" := (obind m (fun x => k))
  (at level 10, x pattern, m at level 100, k at level 200) : outcome_scope.
Local Open Scope outcome_scope.

(* --------------------------------------------------------------------- *)
(** ** [world/array.h]                                                    *)
(* --------------------------------------------------------------------- *)

Module WorldArray.

(** [T v[N]]: the array of a [Vector<T,N>] as a list; a well-formed vector
    has length [N] (see [wf]). *)
Abbreviation Vector T := (list T) (only parsing).

Section Vector.
(** The element type [T] with the operators the templates use on it. *)
Context {T : Type}.
Variables (ltT gtT eqT neT : T -> T -> bool).
(** The dimension [N] of [Vector<T,N>]. *)
Variable N : nat.

Definition wf (a : Vector T) : Prop := length a = N.

(** [v[i]], with the access outside the array made visible. *)
Definition at_ (a : Vector T) (i : nat) : outcome T :=
  match a !! i with
  | Some x => Ok x
  | None => OutOfBounds
  end.

(** [v[N-1]]: [N] is a [std::size_t], so for [N = 0] the index wraps to
    [SIZE_MAX], which is outside every array. *)
Definition at_last (a : Vector T) : outcome T :=
  match N with
  | O => OutOfBounds
  | S m => at_ a m
  end.

(** [operator==]: the loop [for (i=0; i<N; i++) if (v[i] != other.v[i])
    return false;] followed by [return true]. [k] counts the iterations
    that remain, [i] is the loop variable. *)
Fixpoint eq_loop (k i : nat) (a b : Vector T) : outcome bool :=
  match k with
  | O => Ok true
  | S k' =>
      let* x := at_ a i in
      let* y := at_ b i in
      if neT x y then Ok false else eq_loop k' (S i) a b
  end.

Definition op_eq (a b : Vector T) : outcome bool := eq_loop N 0 a b.

(** [operator!=]: the negation of [operator==]. *)
Definition op_ne (a b : Vector T) : outcome bool :=
  let* r := op_eq a b in Ok (negb r).

(** [operator<]: the loop returns at the first index where the elements
    compare [<] or [>]; after the loop the last elements are compared with
    [==]. *)
Fixpoint lt_loop (k i : nat) (a b : Vector T) : outcome bool :=
  match k with
  | O =>
      let* x := at_last a in
      let* y := at_last b in
      if eqT x y then Ok false else Ok true
  | S k' =>
      let* x := at_ a i in
      let* y := at_ b i in
      if ltT x y then Ok true
      else if gtT x y then Ok false
      else lt_loop k' (S i) a b
  end.

Definition op_lt (a b : Vector T) : outcome bool := lt_loop N 0 a b.

(** *** [Stack<T,N>] *)

Record Stack : Type := mkStack { t : Vector T; n : nat }.

(** [Stack() : t(), n(0)]: the default [Vector] constructor does not
    initialise its contents, so the array starts with whatever [junk]
    the storage holds. *)
Definition Stack_new (junk : Vector T) : Stack := mkStack junk 0.

(** [t[i] = value], with the bound of the array made visible. *)
Definition set_at (a : Vector T) (i : nat) (value : T) : outcome (Vector T) :=
  if decide (i < length a) then Ok (<[i := value]> a) else OutOfBounds.

(** [MADNESS_ASSERT(n < N); t[n++] = value;] *)
Definition push (value : T) (s : Stack) : outcome Stack :=
  if decide (n s < N) then
    let* t' := set_at (t s) (n s) value in
    Ok (mkStack t' (S (n s)))
  else AssertFailed.

(** [MADNESS_ASSERT(n > 0); return t[--n];] *)
Definition pop (s : Stack) : outcome (T * Stack) :=
  if decide (0 < n s) then
    let n' := pred (n s) in
    let* x := at_ (t s) n' in
    Ok (x, mkStack (t s) n')
  else AssertFailed.

Definition size (s : Stack) : nat := n s.

(** The states a [Stack<T,N>] object can be in: built by the constructor
    and changed by [push] and [pop] only ([t] and [n] are private). *)
Inductive reachable : Stack -> Prop :=
  | reach_new junk : wf junk -> reachable (Stack_new junk)
  | reach_push s value s' :
      reachable s -> push value s = Ok s' -> reachable s'
  | reach_pop s x s' :
      reachable s -> pop s = Ok (x, s') -> reachable s'.
End Vector.

Arguments Stack : clear implicits.

(** The lexicographic comparison of two arrays, written on the lists
    themselves: the reference [operator<] is compared with. *)
Fixpoint lex_lt {T} (ltT : T -> T -> bool) (a b : list T) : bool :=
  match a, b with
  | x :: a', y :: b' =>
      if ltT x y then true else if ltT y x then false else lex_lt ltT a' b'
  | _, _ => false
  end.

(** [a] is smaller than [b] at the first index where they differ. *)
Definition first_diff_less {T} (ltT : T -> T -> bool) (a b : list T) : Prop :=
  exists i x y,
    (forall j, j < i -> a !! j = b !! j) /\
    a !! i = Some x /\ b !! i = Some y /\ x <> y /\ ltT x y = true.

(** *** Constructors, assignments and element-wise operators of
    [Vector<T,N>] *)

Section VectorOps.
(** The element type [T]; [Q] is the type of the right operand of the
    arithmetic operators (a scalar, or the element type of the other
    vector). *)
Context {T Q : Type}.
Variable N : nat.

(** The value of [v[i] * q], [v[i] + q] and [v[i] - q] once converted to
    [T], and the value that [v[i] *= q] and [v[i] += q] leave in [v[i]]. *)
Variables (mul add sub mul_assign add_assign : T -> Q -> T).

(** The loop [for (i=0; i<N; i++) v[i] = rhs;] of the constructors, the
    assignments and the operators that return a new vector. [rhs i] is the
    right-hand side at index [i], which may read another array; [k] counts
    the iterations that remain. *)
Fixpoint assign_loop (rhs : nat -> outcome T) (k i : nat) (v : Vector T)
  : outcome (Vector T) :=
  match k with
  | O => Ok v
  | S k' =>
      let* x := rhs i in
      let* v' := set_at v i x in
      assign_loop rhs k' (S i) v'
  end.

(** The loop [for (i=0; i<N; i++) v[i] op= q;] of the in-place operators:
    [f] is the effect of [op= q] on an element. *)
Fixpoint update_loop (f : T -> T) (k i : nat) (v : Vector T)
  : outcome (Vector T) :=
  match k with
  | O => Ok v
  | S k' =>
      let* x := at_ v i in
      let* v' := set_at v i (f x) in
      update_loop f k' (S i) v'
  end.

(** [Vector(T t)]: the array is not initialised before the loop; [junk] is
    what its storage holds, here and in the other constructors. *)
Definition Vector_fill (junk : Vector T) (t : T) : outcome (Vector T) :=
  assign_loop (fun _ => Ok t) N 0 junk.

(** [Vector(const T (&t)[N])] *)
Definition Vector_of_array (junk : Vector T) (t : list T)
  : outcome (Vector T) :=
  assign_loop (at_ t) N 0 junk.

(** [Vector(const std::vector<T> t)]:
    [MADNESS_ASSERT(t.size() >= N);] and the loop. *)
Definition Vector_of_std_vector (junk : Vector T) (t : list T)
  : outcome (Vector T) :=
  if decide (N <= length t) then assign_loop (at_ t) N 0 junk
  else AssertFailed.

(** The copy constructor. *)
Definition Vector_copy (junk : Vector T) (other : Vector T)
  : outcome (Vector T) :=
  assign_loop (at_ other) N 0 junk.

(** [operator=(const Vector<T,N>& other)]; [v] is the array of the object
    assigned to. *)
Definition op_assign (v : Vector T) (other : Vector T)
  : outcome (Vector T) :=
  assign_loop (at_ other) N 0 v.

(** [operator=(const std::vector<T>& other)]: the loop alone, without an
    assertion on [other.size()]. *)
Definition op_assign_std_vector (v : Vector T) (other : list T)
  : outcome (Vector T) :=
  assign_loop (at_ other) N 0 v.

(** [operator=(T t)] *)
Definition op_assign_fill (v : Vector T) (t : T) : outcome (Vector T) :=
  assign_loop (fun _ => Ok t) N 0 v.

(** [operator*(Q q)], [operator+(Q q)], [operator-(Q q)]: the loop
    [r[i] = v[i] op q] on a local [Vector<T,N> r] that is not initialised. *)
Definition op_mul_scalar (junk v : Vector T) (q : Q) : outcome (Vector T) :=
  assign_loop (fun i => let* x := at_ v i in Ok (mul x q)) N 0 junk.

Definition op_add_scalar (junk v : Vector T) (q : Q) : outcome (Vector T) :=
  assign_loop (fun i => let* x := at_ v i in Ok (add x q)) N 0 junk.

Definition op_sub_scalar (junk v : Vector T) (q : Q) : outcome (Vector T) :=
  assign_loop (fun i => let* x := at_ v i in Ok (sub x q)) N 0 junk.

(** [operator*=(Q q)] and [operator+=(Q q)] *)
Definition op_mul_assign (v : Vector T) (q : Q) : outcome (Vector T) :=
  update_loop (fun x => mul_assign x q) N 0 v.

Definition op_add_assign (v : Vector T) (q : Q) : outcome (Vector T) :=
  update_loop (fun x => add_assign x q) N 0 v.

(** [operator*(const Vector<Q,N>& q)] and the like: the loop
    [r[i] = v[i] op q[i]]. *)
Definition op_mul (junk v : Vector T) (q : Vector Q) : outcome (Vector T) :=
  assign_loop
    (fun i => let* x := at_ v i in let* y := at_ q i in Ok (mul x y))
    N 0 junk.

Definition op_add (junk v : Vector T) (q : Vector Q) : outcome (Vector T) :=
  assign_loop
    (fun i => let* x := at_ v i in let* y := at_ q i in Ok (add x y))
    N 0 junk.

Definition op_sub (junk v : Vector T) (q : Vector Q) : outcome (Vector T) :=
  assign_loop
    (fun i => let* x := at_ v i in let* y := at_ q i in Ok (sub x y))
    N 0 junk.

End VectorOps.

(** *** [operator<<] *)

(** A [std::ostream], as far as the insertion of characters depends on it
    and changes it: the characters written so far, the field width that
    the next formatted insertion consumes, the fill character, whether
    the adjustment is [left], and whether the stream is no longer
    [good()]. The buffer behind the stream is taken to accept every
    character. *)
Record ostream : Type := mkOstream
  { chars : string; width : nat; fill : Ascii.ascii;
    adjust_left : bool; failed : bool }.

Fixpoint padding (c : Ascii.ascii) (k : nat) : string :=
  match k with
  | O => EmptyString
  | S k' => String c (padding c k')
  end.

(** The field a character string is written as: the string, padded with
    the fill character to the width when it is shorter, behind the string
    for the adjustment [left] and before it otherwise. *)
Definition field (str : string) (s : ostream) : string :=
  let pad := padding (fill s) (width s - String.length str) in
  if adjust_left s then String.append str pad else String.append pad str.

(** [s << str] for a character string, a formatted insertion: a stream
    that is not good takes nothing and stays as it is; a good stream
    takes the field, and its width is reset to 0. *)
Definition put_chars (str : string) (s : ostream) : ostream :=
  if failed s then s
  else mkOstream (String.append (chars s) (field str s)) 0
                 (fill s) (adjust_left s) false.

Section Printing.
Context {T : Type}.
Variable N : nat.

(** [s << x] for an element: the inserter of the element type. *)
Variable put : T -> ostream -> ostream.

(** [operator<<(std::ostream& s, const Vector<T,N>& a)]. The test
    [i != (N-1)] is made inside the loop only, where [N >= 1]. *)
Fixpoint print_loop (k i : nat) (a : Vector T) (s : ostream)
  : outcome ostream :=
  match k with
  | O => Ok s
  | S k' =>
      let* x := at_ a i in
      let s := put x s in
      let s := if negb (i =? N - 1) then put_chars "," s else s in
      print_loop k' (S i) a s
  end.

Definition op_shl (s : ostream) (a : Vector T) : outcome ostream :=
  let s := put_chars "[" s in
  let* s := print_loop N 0 a s in
  Ok (put_chars "]" s).
End Printing.

(** *** [VectorFactory]: a local [Vector<T,k> v], not initialised, whose
    elements are assigned one by one. *)

Section VectorFactory.
Context {T : Type}.

Definition VectorFactory1 (junk : Vector T) (v0 : T) : outcome (Vector T) :=
  set_at junk 0 v0.

Definition VectorFactory2 (junk : Vector T) (v0 v1 : T)
  : outcome (Vector T) :=
  let* v := set_at junk 0 v0 in
  set_at v 1 v1.

Definition VectorFactory3 (junk : Vector T) (v0 v1 v2 : T)
  : outcome (Vector T) :=
  let* v := set_at junk 0 v0 in
  let* v := set_at v 1 v1 in
  set_at v 2 v2.

Definition VectorFactory4 (junk : Vector T) (v0 v1 v2 v3 : T)
  : outcome (Vector T) :=
  let* v := set_at junk 0 v0 in
  let* v := set_at v 1 v1 in
  let* v := set_at v 2 v2 in
  set_at v 3 v3.

Definition VectorFactory5 (junk : Vector T) (v0 v1 v2 v3 v4 : T)
  : outcome (Vector T) :=
  let* v := set_at junk 0 v0 in
  let* v := set_at v 1 v1 in
  let* v := set_at v 2 v2 in
  let* v := set_at v 3 v3 in
  set_at v 4 v4.

Definition VectorFactory6 (junk : Vector T) (v0 v1 v2 v3 v4 v5 : T)
  : outcome (Vector T) :=
  let* v := set_at junk 0 v0 in
  let* v := set_at v 1 v1 in
  let* v := set_at v 2 v2 in
  let* v := set_at v 3 v3 in
  let* v := set_at v 4 v4 in
  set_at v 5 v5.
End VectorFactory.

(** *** The stack as a sequence *)

Section StackSeq.
Context {T : Type}.
Variable N : nat.

(** The values a stack holds, the oldest first: the first [n] cells of
    its array. *)
Definition contents (s : Stack T) : list T := take (n s) (t s).

(** [push] of the values [vs], one after the other. *)
Fixpoint push_all (vs : list T) (s : Stack T) : outcome (Stack T) :=
  match vs with
  | [] => Ok s
  | value :: vs' => let* s' := push N value s in push_all vs' s'
  end.

(** [k] calls of [pop]: the values in the order they are returned. *)
Fixpoint pop_n (k : nat) (s : Stack T) : outcome (list T * Stack T) :=
  match k with
  | O => Ok ([], s)
  | S k' =>
      let* r := pop s in
      let* r' := pop_n k' (snd r) in
      Ok (fst r :: fst r', snd r')
  end.
End StackSeq.

(** *** The comparisons of the elements that are compared *)

Section Ordered.
Context {T : Type}.
Variables (ltT gtT eqT neT : T -> T -> bool).

(** The operators of the element type order [x] and [y]: exactly one of
    [x < y], [x > y] and [x == y] is true, and [x != y] is the negation
    of [x == y]. Of two [double]s this holds unless one is a NaN; it
    holds of [0.0] and [-0.0], which compare equal. *)
Definition ordered (x y : T) : Prop :=
  neT x y = negb (eqT x y) /\
  ((ltT x y = true /\ gtT x y = false /\ eqT x y = false) \/
   (ltT x y = false /\ gtT x y = true /\ eqT x y = false) \/
   (ltT x y = false /\ gtT x y = false /\ eqT x y = true)).

(** The elements of [a] and [b] at index [j] compare equal. *)
Definition equal_at (a b : list T) (j : nat) : Prop :=
  exists u v, a !! j = Some u /\ b !! j = Some v /\ eqT u v = true.

(** [a]'s element is the smaller one at the first index where the
    elements of [a] and [b] compare different. *)
Definition smaller_at_first_difference (a b : list T) : Prop :=
  exists i x y,
    (forall j, j < i -> equal_at a b j) /\
    a !! i = Some x /\ b !! i = Some y /\
    eqT x y = false /\ ltT x y = true.
End Ordered.

End WorldArray.

(* --------------------------------------------------------------------- *)
(** ** [world/binfsar.h]                                                  *)
(* --------------------------------------------------------------------- *)

Module BinFsAr.

(** A file, and a region of memory seen through a [char*], are byte
    sequences. *)
Abbreviation bytes := (list byte) (only parsing).

Definition NUL : byte := x00.

(** A string literal in memory: its characters and the terminator. *)
Definition c_str (chars : bytes) : bytes := chars ++ [NUL].

(** [strlen]: the number of bytes before the first terminator. *)
Fixpoint strlen (s : bytes) : outcome nat :=
  match s with
  | [] => OutOfBounds
  | c :: s' =>
      if Byte.eqb c NUL then Ok 0
      else let* l := strlen s' in Ok (S l)
  end.

(** [strncmp(s1, s2, n)]: compares at most [n] bytes as [unsigned char] and
    stops behind a terminator the two strings share. *)
Fixpoint strncmp (s1 s2 : bytes) (n : nat) : outcome Z :=
  match n with
  | O => Ok 0%Z
  | S n' =>
      match s1, s2 with
      | c1 :: s1', c2 :: s2' =>
          if Byte.eqb c1 c2 then
            if Byte.eqb c1 NUL then Ok 0%Z else strncmp s1' s2' n'
          else Ok (Z.of_N (Byte.to_N c1) - Z.of_N (Byte.to_N c2))%Z
      | _, _ => OutOfBounds
      end
  end.

(** *** [std::ofstream]: [disk] is the part of the output that is certain
    to be in the file, [pending] what has been written to the stream since
    and is on its way. The library moves bytes from its buffer to the file
    when it chooses (when the buffer fills, on a large write); [flush] and
    [close] are the calls after which it has moved them all. The
    properties speak of the file after [flush] or [close] only, and of a
    stream that is open and has not failed. *)
Record ofstream : Type := mkOfstream { disk : bytes; pending : bytes }.

(** [os.open(filename, binary | out | trunc)] *)
Definition ofstream_open : ofstream := mkOfstream [] [].

(** [os.write(p, count)]: the bytes join those on their way. *)
Definition ofstream_write (p : bytes) (os : ofstream) : ofstream :=
  mkOfstream (disk os) (pending os ++ p).

(** [os.flush()] *)
Definition flush (os : ofstream) : ofstream :=
  mkOfstream (disk os ++ pending os) [].

(** [os.close()]: the contents the file is left with. *)
Definition close (os : ofstream) : bytes := disk (flush os).

(** *** [std::ifstream]: the bytes not yet read and the fail bit. *)
Record ifstream : Type := mkIfstream { rest : bytes; failbit : bool }.

(** [is.open(filename, binary | in)]: a file that cannot be opened ([None])
    leaves the stream failed. *)
Definition ifstream_open (file : option bytes) : ifstream :=
  match file with
  | Some content => mkIfstream content false
  | None => mkIfstream [] true
  end.

(** [is.read(p, count)] into the buffer [buf] that [p] points to: a failed
    stream reads nothing; otherwise the bytes that are there are copied to
    the front of the buffer and, when fewer than [count] were left, the
    fail bit is set. The rest of the buffer keeps what it held. *)
Definition ifstream_read (buf : bytes) (count : nat) (is_ : ifstream)
  : bytes * ifstream :=
  if failbit is_ then (buf, is_)
  else
    let got := take count (rest is_) in
    (got ++ drop (length got) buf,
     mkIfstream (drop count (rest is_)) (negb (length got =? count))).

Section Archive.
(** The macro [ARCHIVE_COOKIE] of [world/archive.h]: the characters of
    its string literal. *)
Variable ARCHIVE_COOKIE : bytes.

(** [BinaryFstreamOutputArchive::store(const T* t, long n)]:
    [os.write] of the [n*sizeof(T)] bytes found at [t]. *)
Definition store (sizeofT : nat) (t : bytes) (n : nat) (os : ofstream)
  : outcome ofstream :=
  let count := n * sizeofT in
  if decide (count <= length t) then Ok (ofstream_write (take count t) os)
  else OutOfBounds.

(** [BinaryFstreamOutputArchive::open]:
    [os.open(filename, mode); store(ARCHIVE_COOKIE, strlen(ARCHIVE_COOKIE)+1);] *)
Definition open_out : outcome ofstream :=
  let os := ofstream_open in
  let* l := strlen (c_str ARCHIVE_COOKIE) in
  store 1 (c_str ARCHIVE_COOKIE) (l + 1) os.

(** [BinaryFstreamInputArchive::load(T* t, long n)]:
    [is.read] of [n*sizeof(T)] bytes into the object of [length buf]
    bytes at [t]. *)
Definition load (sizeofT : nat) (buf : bytes) (n : nat) (is_ : ifstream)
  : outcome (bytes * ifstream) :=
  let count := n * sizeofT in
  if decide (count <= length buf) then Ok (ifstream_read buf count is_)
  else OutOfBounds.

(** [BinaryFstreamInputArchive::open]. The local [char cookie[255]] is not
    initialised: [stack] is what its 255 bytes hold when the function is
    entered. *)
Definition open_in (stack : bytes) (file : option bytes) : outcome ifstream :=
  let is_ := ifstream_open file in
  let cookie := take 255 stack in
  let* l := strlen (c_str ARCHIVE_COOKIE) in
  let n := l + 1 in
  let* r := load 1 cookie n is_ in
  let cookie := fst r in
  let is_ := snd r in
  let* c := strncmp cookie (c_str ARCHIVE_COOKIE) n in
  if negb (c =? 0)%Z
  then Thrown "BinaryFstreamInputArchive: open: not an archive?"
  else Ok is_.
End Archive.

(** A cookie to evaluate the archives on: the string "archive". *)
Definition archive : bytes := list_byte_of_string "archive".

(** *** Sequences of calls

    What a program does with an archive: [store] calls one after the
    other, and later [load] calls one after the other. An item
    [(sizeofT, n, t)] stands for the call [store(t, n)], or [load(t, n)],
    on objects of [sizeofT] bytes, with [t] the bytes of the memory that
    the pointer refers to. *)

Abbreviation item := (nat * nat * list byte)%type (only parsing).

(** The bytes that [store(t, n)] takes from [t]. *)
Definition item_bytes (it : item) : bytes := take (it.1.2 * it.1.1) it.2.

Fixpoint store_all (items : list item) (os : ofstream) : outcome ofstream :=
  match items with
  | [] => Ok os
  | it :: items' =>
      let* os' := store it.1.1 it.2 it.1.2 os in
      store_all items' os'
  end.

(** The buffers as the [load] calls leave them, and the stream. *)
Fixpoint load_all (items : list item) (is_ : ifstream)
  : outcome (list bytes * ifstream) :=
  match items with
  | [] => Ok ([], is_)
  | it :: items' =>
      let* r := load it.1.1 it.2 it.1.2 is_ in
      let* r' := load_all items' (snd r) in
      Ok (fst r :: fst r', snd r')
  end.

(** The item asks for exactly the bytes of its memory. *)
Definition exact_size (it : item) : Prop :=
  length it.2 = it.1.2 * it.1.1.

(** A buffer [b] of the shape of the stored item [it]. *)
Definition same_shape (it b : item) : Prop := b.1 = it.1 /\ exact_size b.

End BinFsAr.

(* --------------------------------------------------------------------- *)
(** ** The macro-task front end ([test_vectormacrotask.cc])               *)
(* --------------------------------------------------------------------- *)

Module MacroTask.

(** *** Batches and the partitioner *)

(** Modelled from the spec: [Batch_1D] of [macrotaskpartitioner.h] is not
    among the sources. A range of a collection is the contiguous slice
    [[b, e)]; [All] is the placeholder [_] that the constructor of
    [MicroTaskBase] passes, the whole collection. *)
Inductive Batch_1D : Type :=
  | All
  | Slice (b e : nat).

(** Modelled from the spec: [Batch] of [macrotaskpartitioner.h] is not among
    the sources. One range per input collection, in the order of the
    collections in the argument tuple, and one for the output collection. *)
Record Batch : Type := mkBatch { input : list Batch_1D; result : Batch_1D }.

(** The indices a range addresses in a collection of [len] elements. *)
Definition indices (len : nat) (r : Batch_1D) : list nat :=
  match r with
  | All => seq 0 len
  | Slice b e => seq b (e - b)
  end.

(** Two ranges of one collection that share no index. *)
Definition ranges_disjoint (r1 r2 : Batch_1D) : Prop :=
  match r1, r2 with
  | Slice b1 e1, Slice b2 e2 => e1 <= b2 \/ e2 <= b1
  | _, _ => False
  end.

(** Modelled from the spec: the partitioner's state; [MacroTaskPartitioner]
    is not among the sources. [granularity] is the target batch size,
    [dimension] is 1 or 2. *)
Record MacroTaskPartitioner : Type := mkPartitioner
  { nsubworld : nat; granularity : nat; dimension : nat }.

Definition set_nsubworld (k : nat) (p : MacroTaskPartitioner)
  : MacroTaskPartitioner :=
  mkPartitioner k (granularity p) (dimension p).

(** Modelled from the spec: the 1-D split of [[0, L)] of section 4.1,
    whose code is not among the sources. Chunks of [g] indices are cut off
    the front for as long as more than [g] indices remain, and what remains
    then is the final chunk; a length of at most [g] gives one batch. No
    run needs more than [L] full chunks, so [fuel] starts at [L]. *)
Fixpoint chunks (fuel begin L g : nat) : list Batch_1D :=
  match fuel with
  | O => [Slice begin L]
  | S fuel' =>
      if decide (L <= begin + g) then [Slice begin L]
      else Slice begin (begin + g) :: chunks fuel' (begin + g) L g
  end.

Definition do_1d_partition (L g : nat) : list Batch_1D := chunks L 0 L g.

Section Scheduler.
(** [F]: the values of a numerical field ([real_function_3d]); [D]: the
    scalars ([double]). Both are opaque to the scheduler, which only
    needs to tell stored payloads apart. *)
Context {F D : Type} {EqF : EqDecision F} {EqD : EqDecision D}.

(** [f += g] on a field leaves [fadd f g] in [f]. *)
Variable fadd : F -> F -> F.

(** An element of an argument tuple. *)
Inductive value : Type :=
  | VScalar (d : D)
  | VFunction (f : F)
  | VVector (v : list F).

(** A [resultT] by value: what a task body or an allocator returns. *)
Inductive rvalue : Type :=
  | RFunction (f : F)
  | RVector (v : list F).

(** A [resultT] as the caller and the tasks hold it: [Function] objects
    are handles that share the implementation they point to. *)
Inductive resultT : Type :=
  | HFunction (impl : nat)
  | HVector (impls : list nat).

(** What the store holds: a serialised copy of an input, or the pointer(s)
    to the implementation of an output that lives in the universe. *)
Inductive payload : Type :=
  | PValue (v : value)
  | PImpl (impl : nat)
  | PImpls (impls : list nat).

#[global] Instance value_eq_dec : EqDecision value.
Proof using EqF EqD. solve_decision. Defined.
#[global] Instance payload_eq_dec : EqDecision payload.
Proof using EqF EqD. solve_decision. Defined.

(** **** The Distributed Store *)

(** Modelled from the spec: [Cloud] of [world/cloud.h] is not among the
    sources. The records of the current epoch; a record id is the position
    of its payload. *)
Record Cloud : Type := mkCloud { records : list payload }.

Definition Cloud_new : Cloud := mkCloud [].

(** Modelled from the spec: [Cloud::store] (section 4.2). The id of the
    payload already stored in this epoch that is equal by value, if there
    is one, else a fresh id for the payload, now recorded. *)
Definition store (p : payload) (c : Cloud) : nat * Cloud :=
  match list_find (fun y => y = p) (records c) with
  | Some (id, _) => (id, c)
  | None => (length (records c), mkCloud (records c ++ [p]))
  end.

(** Modelled from the spec: [Cloud::load] (section 4.2); an unknown id
    fails with "no such record". *)
Definition load (id : nat) (c : Cloud) : outcome payload :=
  match records c !! id with
  | Some p => Ok p
  | None => Thrown "no such record"
  end.

(** Modelled from the spec: [Cloud::clear], the end of an epoch. *)
Definition clear (c : Cloud) : Cloud := Cloud_new.

(** Modelled from the spec: [Cloud::store] of an argument tuple, one
    record per element, in order. *)
Fixpoint store_tuple (args : list value) (c : Cloud) : list nat * Cloud :=
  match args with
  | [] => ([], c)
  | v :: args' =>
      let '(id, c1) := store (PValue v) c in
      let '(ids, c2) := store_tuple args' c1 in
      (id :: ids, c2)
  end.

(** Modelled from the spec: [Cloud::load] of an argument tuple. *)
Fixpoint load_tuple (c : Cloud) (ids : list nat) : outcome (list value) :=
  match ids with
  | [] => Ok []
  | id :: ids' =>
      let* p := load id c in
      match p with
      | PValue v => let* vs := load_tuple c ids' in Ok (v :: vs)
      | _ => Thrown "record is not an input"
      end
  end.

(** **** Slicing and inserting by a batch *)

(** Modelled from the spec: [Batch_1D::copy_batch], the slice of a
    collection; a range must stay within the collection. *)
Definition copy_batch (r : Batch_1D) (v : list F) : outcome (list F) :=
  match r with
  | All => Ok v
  | Slice b e =>
      if decide (b <= e /\ e <= length v)
      then Ok (take (e - b) (drop b v)) else AssertFailed
  end.

(** Modelled from the spec: [Batch_1D::insert_batch], the collection with
    the partial result written over the slice the range addresses. *)
Definition insert_batch (r : Batch_1D) (vec part : list F)
  : outcome (list F) :=
  match r with
  | All => if decide (length part = length vec) then Ok part
           else AssertFailed
  | Slice b e =>
      if decide (b <= e /\ e <= length vec /\ length part = e - b)
      then Ok (take b vec ++ part ++ drop e vec) else AssertFailed
  end.

(** Modelled from the spec: [Batch::copy_input_batch], the sliced
    sub-tuple: the collections of the tuple are sliced by the input
    ranges, in order (a collection without a range of its own is taken
    whole); scalars and single fields pass. *)
Fixpoint copy_input_ranges (ranges : list Batch_1D) (args : list value)
  : outcome (list value) :=
  match args with
  | [] => Ok []
  | VVector v :: args' =>
      let* v' := copy_batch (hd All ranges) v in
      let* rest := copy_input_ranges (tl ranges) args' in
      Ok (VVector v' :: rest)
  | a :: args' =>
      let* rest := copy_input_ranges ranges args' in
      Ok (a :: rest)
  end.

Definition copy_input_batch (batch : Batch) (args : list value)
  : outcome (list value) :=
  copy_input_ranges (input batch) args.

(** Modelled from the spec: [Batch::insert_result_batch]. *)
Definition insert_result_batch (batch : Batch) (vec part : list F)
  : outcome (list F) :=
  insert_batch (result batch) vec part.

(** Modelled from the spec: the batches of a 1-D partition; the input
    range and the output range of a batch are the same chunk. *)
Definition batches_1d (L g : nat) : list Batch :=
  map (fun r => mkBatch [r] r) (do_1d_partition L g).

(** The length of the first collection of an argument tuple. *)
Fixpoint first_collection (args : list value) : option nat :=
  match args with
  | [] => None
  | VVector v :: _ => Some (length v)
  | _ :: args' => first_collection args'
  end.

(** Modelled from the spec: [partition_tasks] for a 1-D partition, along
    the first collection of the tuple; a tuple without a collection does
    not support the dimension and is rejected. *)
Definition partition_tasks_1d (p : MacroTaskPartitioner)
    (args : list value) : outcome (list Batch) :=
  match first_collection args with
  | Some L => Ok (batches_1d L (granularity p))
  | None => Thrown "partitioning: no collection in the argument tuple"
  end.

(** **** Tasks *)

(** The user's task class ([MicroTask] and the like, derived from
    [MicroTaskBase]): the members [batch] and [partitioner] (a pointer
    that may be null), and the methods [allocator] and [operator()], which
    see the object's [batch]. *)
Record taskT : Type := mkTask
  { batch : Batch;
    partitioner : option MacroTaskPartitioner;
    allocator : Batch -> list value -> rvalue;
    call : Batch -> list value -> rvalue }.

Definition set_batch (b : Batch) (t : taskT) : taskT :=
  mkTask b (partitioner t) (allocator t) (call t).

Definition set_partitioner (p : option MacroTaskPartitioner) (t : taskT)
  : taskT :=
  mkTask (batch t) p (allocator t) (call t).

(** Modelled from the spec: the status of a Task Record (section 3). *)
Inductive Status : Type := Waiting | Dispatched | Running | Done.

(** [MacroTaskInternal]: the task with its batch and the records of its
    input and output. [priority] and [stat] are the members of the base
    class [MacroTaskIntermediate], which is not among the sources. *)
Record MacroTaskInternal : Type := mkInternal
  { task : taskT;
    inputrecords : list nat;
    outputrecords : list nat;
    priority : nat;
    stat : Status }.

(** The priority the base class gives a task that sets none. *)
Variable default_priority : nat.

(** The constructor of [MacroTaskInternal]: [this->task.batch=batch]. *)
Definition MacroTaskInternal_new (t : taskT) (b : Batch)
    (inrec outrec : list nat) : MacroTaskInternal :=
  mkInternal (set_batch b t) inrec outrec default_priority Waiting.

Definition set_stat (s : Status) (r : MacroTaskInternal)
  : MacroTaskInternal :=
  mkInternal (task r) (inputrecords r) (outputrecords r) (priority r) s.

(** [f += g] on the implementation at [impl] in the universe [funcs]. *)
Definition fn_add_assign (impl : nat) (g : F) (funcs : list F)
  : outcome (list F) :=
  match funcs !! impl with
  | Some f => Ok (<[impl := fadd f g]> funcs)
  | None => OutOfBounds
  end.

(** [result += tmp] on vectors of functions: the sizes must agree, and
    the elements are added one by one. *)
Fixpoint vec_add_assign (impls : list nat) (tmp : list F) (funcs : list F)
  : outcome (list F) :=
  match impls, tmp with
  | [], [] => Ok funcs
  | impl :: impls', g :: tmp' =>
      let* funcs' := fn_add_assign impl g funcs in
      vec_add_assign impls' tmp' funcs'
  | _, _ => AssertFailed
  end.

(** [MacroTaskInternal::get_output]: the output as it lives in the
    universe, from the pointer(s) the store holds for it. *)
Definition get_output (c : Cloud) (outrec : list nat) : outcome resultT :=
  match outrec with
  | [id] =>
      let* p := load id c in
      match p with
      | PImpl impl => Ok (HFunction impl)
      | PImpls impls => Ok (HVector impls)
      | PValue _ => Thrown "unknown result type in get_output"
      end
  | _ => Thrown "no such record"
  end.

(** [MacroTaskInternal::run]: load the arguments, slice them by the batch,
    apply the task, and add what it returns to the output in the universe:
    a function is added as it is; a vector is first inserted, by the
    batch's result range, into a freshly allocated vector. [compress]
    changes the representation of a field, not its value. *)
Definition run (r : MacroTaskInternal) (c : Cloud) (funcs : list F)
  : outcome (list F) :=
  let t := task r in
  let* argtuple := load_tuple c (inputrecords r) in
  let* batched_argtuple := copy_input_batch (batch t) argtuple in
  let result_tmp := call t (batch t) batched_argtuple in
  let* res := get_output c (outputrecords r) in
  match res, result_tmp with
  | HFunction impl, RFunction f => fn_add_assign impl f funcs
  | HVector impls, RVector v =>
      match allocator t (batch t) argtuple with
      | RVector tmp1 =>
          let* tmp1 := insert_result_batch (batch t) tmp1 v in
          vec_add_assign impls tmp1 funcs
      | RFunction _ => Thrown "failing result"
      end
  | _, _ => Thrown "failing result"
  end.

(** The two halves of [run], for the proofs: what a record adds to its
    output ([increment]: the output handle and, per implementation it
    points to, the field that is added), and the addition itself
    ([vec_add_assign] over [impls_of]). *)
Definition impls_of (res : resultT) : list nat :=
  match res with
  | HFunction impl => [impl]
  | HVector impls => impls
  end.

Definition increment (r : MacroTaskInternal) (c : Cloud)
  : outcome (resultT * list F) :=
  let t := task r in
  let* argtuple := load_tuple c (inputrecords r) in
  let* batched_argtuple := copy_input_batch (batch t) argtuple in
  let result_tmp := call t (batch t) batched_argtuple in
  let* res := get_output c (outputrecords r) in
  match res, result_tmp with
  | HFunction impl, RFunction f => Ok (res, [f])
  | HVector impls, RVector v =>
      match allocator t (batch t) argtuple with
      | RVector tmp1 =>
          let* tmp1 := insert_result_batch (batch t) tmp1 v in
          Ok (res, tmp1)
      | RFunction _ => Thrown "failing result"
      end
  | _, _ => Thrown "failing result"
  end.

(** The merge as section 4.5 of the spec words it, to compare [run] with:
    [global += partial] for a whole object, and [global[slice] += partial]
    for the slice [[b, e)] of a collection. *)
Definition merge_whole (global part : F) : F := fadd global part.

Definition merge_slice (global part : list F) (b e : nat) : list F :=
  take b global ++
  zip_with fadd (take (e - b) (drop b global)) part ++
  drop e global.

(** **** The task queue *)

(** A [World]: its id and the number of its processes. *)
Record World : Type := mkWorld { id : nat; wsize : nat }.

(** Modelled from the spec: [MacroTaskQ] of [macrotaskq.h] is not among
    the sources. The queue owns its store and its records, kept in
    dispatch order. *)
Record MacroTaskQ : Type := mkQ
  { get_world : World; q_nsubworld : nat; cloud : Cloud;
    taskq : list MacroTaskInternal }.

Definition MacroTaskQ_new (w : World) (nsub : nat) : MacroTaskQ :=
  mkQ w nsub Cloud_new [].

Definition set_cloud (c : Cloud) (q : MacroTaskQ) : MacroTaskQ :=
  mkQ (get_world q) (q_nsubworld q) c (taskq q).

Definition set_taskq (rs : list MacroTaskInternal) (q : MacroTaskQ)
  : MacroTaskQ :=
  mkQ (get_world q) (q_nsubworld q) (cloud q) rs.

(** Modelled from the spec: the place of a submitted record (section
    4.3): behind every record of the same or a higher priority. *)
Fixpoint insert_record (r : MacroTaskInternal)
    (rs : list MacroTaskInternal) : list MacroTaskInternal :=
  match rs with
  | [] => [r]
  | x :: rs' =>
      if decide (priority x < priority r) then r :: x :: rs'
      else x :: insert_record r rs'
  end.

(** Modelled from the spec: [MacroTaskQ::add_tasks], the [submit] of
    section 4.3; submitted records wait. *)
Definition add_tasks (vtask : list MacroTaskInternal) (q : MacroTaskQ)
  : MacroTaskQ :=
  set_taskq
    (foldl (fun rs r => insert_record (set_stat Waiting r) rs)
           (taskq q) vtask) q.

(** Modelled from the spec: the dispatch loop of [run_all] (section 4.3),
    one record after the other: each waiting record, in queue order, is
    executed and is done; an error of a task ends the run. The
    assignment to subworlds is left out. *)
Fixpoint run_records (c : Cloud) (rs : list MacroTaskInternal)
    (funcs : list F) : outcome (list MacroTaskInternal * list F) :=
  match rs with
  | [] => Ok ([], funcs)
  | r :: rs' =>
      match stat r with
      | Waiting =>
          let* funcs1 := run r c funcs in
          let* rest := run_records c rs' funcs1 in
          Ok (set_stat Done r :: fst rest, snd rest)
      | _ =>
          let* rest := run_records c rs' funcs in
          Ok (r :: fst rest, snd rest)
      end
  end.

(** Modelled from the spec: [MacroTaskQ::run_all]. The spec knows one
    [run_all], without an argument, that drains the queue; the records
    [vtask] that [operator()] passes have been submitted by [add_tasks]
    before and are in the queue. *)
Definition run_all (vtask : list MacroTaskInternal) (q : MacroTaskQ)
    (funcs : list F) : outcome (MacroTaskQ * list F) :=
  let* done := run_records (cloud q) (taskq q) funcs in
  Ok (set_taskq (fst done) q, snd done).

(** **** [MacroTask_2G] *)

(** The program state the front end works on: the implementations of the
    functions that live in the universe, and the task queues that shared
    pointers refer to (a [shared_ptr<MacroTaskQ>] is an index into
    [queues], so that the caller and the [MacroTask_2G] see one queue). *)
Record State : Type := mkState
  { funcs : list F; queues : list MacroTaskQ }.

Record MacroTask_2G : Type := mkMacroTask
  { mt_task : taskT; world : World; taskq_ptr : option nat }.

(** [new MacroTaskPartitioner]: the default-constructed partitioner. *)
Variable MacroTaskPartitioner_new : MacroTaskPartitioner.

(** [MacroTaskPartitioner::partition_tasks], taken as it comes: the 1-D
    split is [do_1d_partition]; the spec does not say which output range
    a 2-D block has. *)
Variable partition_tasks :
  MacroTaskPartitioner -> list value -> outcome (list Batch).

(** The constructor: a queue that is handed in must belong to the same
    world. *)
Definition MacroTask_2G_new (w : World) (t : taskT) (ptr : option nat)
    (st : State) : outcome MacroTask_2G :=
  match ptr with
  | None => Ok (mkMacroTask t w None)
  | Some q =>
      match queues st !! q with
      | Some Q =>
          if decide (id w = id (get_world Q))
          then Ok (mkMacroTask t w (Some q)) else AssertFailed
      | None => OutOfBounds
      end
  end.

(** [prepare_output]: allocate the result in the universe and store the
    pointer(s) to it. *)
Definition prepare_output (self : MacroTask_2G) (c : Cloud)
    (argtuple : list value) (fs : list F)
  : list nat * resultT * Cloud * list F :=
  let t := mt_task self in
  match allocator t (batch t) argtuple with
  | RFunction f =>
      let impl := length fs in
      let '(rec, c') := store (PImpl impl) c in
      ([rec], HFunction impl, c', fs ++ [f])
  | RVector v =>
      let impls := seq (length fs) (length v) in
      let '(rec, c') := store (PImpls impls) c in
      ([rec], HVector impls, c', fs ++ v)
  end.

(** [operator()]. The member [taskq_ptr] is read for
    [immediate_execution] and then, when it is null, set to a new queue;
    the object keeps that queue. *)
Definition op_call (self : MacroTask_2G) (args : list value) (st : State)
  : outcome (resultT * MacroTask_2G * State) :=
  let w := world self in
  let immediate_execution :=
    match taskq_ptr self with None => true | Some _ => false end in
  let '(q, st) :=
    match taskq_ptr self with
    | Some q => (q, st)
    | None =>
        (length (queues st),
         mkState (funcs st) (queues st ++ [MacroTaskQ_new w (wsize w)]))
    end in
  let argtuple := args in
  (* partition the argument vector into batches *)
  let p :=
    match partitioner (mt_task self) with
    | Some p => p
    | None => MacroTaskPartitioner_new
    end in
  let p := set_nsubworld (wsize w) p in
  let t :=
    match partitioner (mt_task self) with
    | Some _ => set_partitioner (Some p) (mt_task self)
    | None => mt_task self
    end in
  let self := mkMacroTask t w (Some q) in
  let* partition := partition_tasks p argtuple in
  (* store input and output *)
  match queues st !! q with
  | None => OutOfBounds
  | Some Q =>
      let '(inrec, c1) := store_tuple argtuple (cloud Q) in
      let '(outrec, res, c2, fs) :=
        prepare_output self c1 argtuple (funcs st) in
      (* create tasks and add them to the taskq *)
      let vtask :=
        map (fun b => MacroTaskInternal_new t b inrec outrec) partition in
      let Q := add_tasks vtask (set_cloud c2 Q) in
      let* ran :=
        if immediate_execution then run_all vtask Q fs else Ok (Q, fs) in
      Ok (res, self, mkState (snd ran) (<[q := fst ran]> (queues st)))
  end.

(** What a handle shows: the values of the functions it points to. *)
Definition read_result (res : resultT) (fs : list F) : option rvalue :=
  match res with
  | HFunction impl => RFunction <$> fs !! impl
  | HVector impls => RVector <$> mapM (fun impl => fs !! impl) impls
  end.

(** [taskq->run_all()] through the caller's pointer. *)
Definition taskq_run_all (q : nat) (st : State) : outcome State :=
  match queues st !! q with
  | None => OutOfBounds
  | Some Q =>
      let* ran := run_all [] Q (funcs st) in
      Ok (mkState (snd ran) (<[q := fst ran]> (queues st)))
  end.

(** [new MacroTaskQ(universe, universe.size())], kept in a shared
    pointer. *)
Definition make_taskq (universe : World) (st : State) : nat * State :=
  (length (queues st),
   mkState (funcs st)
           (queues st ++ [MacroTaskQ_new universe (wsize universe)])).

(** [test_immediate]: the task, run through a [MacroTask_2G] that was
    given no queue. *)
Definition test_immediate (universe : World) (t : taskT)
    (args : list value) (st : State) : outcome (resultT * State) :=
  let* task_immediate := MacroTask_2G_new universe t None st in
  let* r := op_call task_immediate args st in
  Ok (fst (fst r), snd r).

(** [test_deferred]: the task, submitted to a queue of the caller, which
    then runs the queue. *)
Definition test_deferred (universe : World) (t : taskT)
    (args : list value) (st : State) : outcome (resultT * State) :=
  let '(taskq, st) := make_taskq universe st in
  let* task := MacroTask_2G_new universe t (Some taskq) st in
  let* r := op_call task args st in
  let f2a := fst (fst r) in
  let* st := taskq_run_all taskq (snd r) in
  Ok (f2a, st).

(** [test_twice]: the task, submitted twice to one queue before the
    queue is run. *)
Definition test_twice (universe : World) (t : taskT)
    (args : list value) (st : State)
  : outcome (resultT * resultT * State) :=
  let '(taskq, st) := make_taskq universe st in
  let* task := MacroTask_2G_new universe t (Some taskq) st in
  let* r1 := op_call task args st in
  let f2a1 := fst (fst r1) in
  let* r2 := op_call (snd (fst r1)) args (snd r1) in
  let f2a2 := fst (fst r2) in
  let* st := taskq_run_all taskq (snd r2) in
  Ok (f2a1, f2a2, st).

(** **** Notions the properties are stated with *)

(** The values that the implementations [impls] hold in [fs] are [g]. *)
Definition holds (fs : list F) (impls : list nat) (g : list F) : Prop :=
  Forall2 (fun impl y => fs !! impl = Some y) impls g.

(** One turn of the dispatch loop, and the loop, as far as the universe
    is concerned. *)
Definition is_waiting (r : MacroTaskInternal) : bool :=
  match stat r with Waiting => true | _ => false end.

Definition step (c : Cloud) (r : MacroTaskInternal) (fs : list F)
  : outcome (list F) :=
  if is_waiting r then run r c fs else Ok fs.

Fixpoint run_funcs (c : Cloud) (rs : list MacroTaskInternal) (fs : list F)
  : outcome (list F) :=
  match rs with
  | [] => Ok fs
  | r :: rs' => let* fs1 := step c r fs in run_funcs c rs' fs1
  end.

(** The zero field, which an allocator fills its placeholder with. *)
Variable fzero : F.

(** The record feeds the output vector [impls], and its allocator returns
    zero fields. *)
Definition feeds (c : Cloud) (impls : list nat) (r : MacroTaskInternal)
  : Prop :=
  get_output c (outputrecords r) = Ok (HVector impls) /\
  forall argtuple, exists zeros,
    allocator (task r) (batch (task r)) argtuple = RVector zeros /\
    Forall (eq fzero) zeros.

(** The output range of the record's batch. *)
Definition out_range (r : MacroTaskInternal) : Batch_1D :=
  result (batch (task r)).

(** The indices of the output that the records write, with repetitions. *)
Definition written (len : nat) (rs : list MacroTaskInternal) : list nat :=
  flat_map (fun r => indices len (out_range r)) rs.

(** The partitioner and the task that [operator()] works with. *)
Definition eff_partitioner (w : World) (t : taskT) : MacroTaskPartitioner :=
  set_nsubworld (wsize w)
    match partitioner t with
    | Some p => p
    | None => MacroTaskPartitioner_new
    end.

Definition eff_task (w : World) (t : taskT) : taskT :=
  match partitioner t with
  | Some _ => set_partitioner (Some (eff_partitioner w t)) t
  | None => t
  end.

(** The fields of a result by value, the handle on them once they are
    allocated behind [n] implementations, and the payload stored for the
    handle. *)
Definition rvalue_list (rv : rvalue) : list F :=
  match rv with RFunction f => [f] | RVector v => v end.

Definition handle_of (rv : rvalue) (n : nat) : resultT :=
  match rv with
  | RFunction _ => HFunction n
  | RVector v => HVector (seq n (length v))
  end.

Definition payload_of (rv : rvalue) (n : nat) : payload :=
  match rv with
  | RFunction _ => PImpl n
  | RVector v => PImpls (seq n (length v))
  end.

(** What a handle shows when its implementations hold [g]. *)
Definition rebuild (rv : rvalue) (g : list F) : option rvalue :=
  match rv with
  | RFunction _ => match g with [y] => Some (RFunction y) | _ => None end
  | RVector _ => Some (RVector g)
  end.

(** The states of the records of queue [q]. *)
Definition record_stats (st : State) (q : nat) : option (list Status) :=
  (fun Q => map stat (taskq Q)) <$> queues st !! q.
End Scheduler.

End MacroTask.

(** *** The tasks of the test file over integers

    The fields and operators of the tests ([slater], [CoulombOperator],
    [inner]) are numerics outside the scheduler. To run the front end on
    inputs, fields and scalars are integers here, [+=] is integer addition,
    and [apply(world, op, f2)] is the identity. *)

Module IntTasks.
Import MacroTask.

Abbreviation value := (@value Z Z) (only parsing).
Abbreviation rvalue := (@rvalue Z) (only parsing).

(** [MicroTask::allocator]: [n] zero functions, [n] the size of the third
    argument. *)
Definition MicroTask_allocator (_ : Batch) (argtuple : list value) : rvalue :=
  match argtuple with
  | [_; _; VVector f2] => RVector (repeat 0%Z (length f2))
  | _ => RVector []
  end.

(** [MicroTask::operator()]: [arg2 * f1 * apply(world,op,f2)]. *)
Definition MicroTask_call (_ : Batch) (argtuple : list value) : rvalue :=
  match argtuple with
  | [VFunction f1; VScalar arg2; VVector f2] =>
      RVector (map (fun g => (arg2 * f1 * g)%Z) f2)
  | _ => RVector []
  end.

(** [MicroTaskBase()]: [batch(Batch(_,_,_))] and a partitioner of its own;
    the granularity of the partitioner is set to [g]. *)
Definition MicroTask (g : nat) : taskT :=
  mkTask (mkBatch [All; All] All) (Some (mkPartitioner 0 g 1))
         MicroTask_allocator MicroTask_call.

(** [MicroTask1]: the result is one function, [arg2 * f1 * inner(f2,f2)]. *)
Definition MicroTask1_allocator (_ : Batch) (argtuple : list value) : rvalue :=
  RFunction 0%Z.

Definition inner (f g : list Z) : Z :=
  foldr Z.add 0%Z (zip_with Z.mul f g).

Definition MicroTask1_call (_ : Batch) (argtuple : list value) : rvalue :=
  match argtuple with
  | [VFunction f1; VScalar arg2; VVector f2] =>
      RFunction (arg2 * f1 * inner f2 f2)%Z
  | _ => RFunction 0%Z
  end.

Definition MicroTask1 (g : nat) : taskT :=
  mkTask (mkBatch [All; All] All) (Some (mkPartitioner 0 g 1))
         MicroTask1_allocator MicroTask1_call.

Definition universe : World := mkWorld 0 1.

(** The program state before the tests: no function, no queue. *)
Definition st0 : @State Z Z := mkState [] [].

(** The front end over the integers, with default priority 0 and the 1-D
    partition. *)
Definition op_call :=
  @MacroTask.op_call Z Z _ _ Z.add 0 (mkPartitioner 0 1 1) partition_tasks_1d.

Definition test_immediate :=
  @MacroTask.test_immediate Z Z _ _ Z.add 0 (mkPartitioner 0 1 1)
                            partition_tasks_1d.

Definition test_deferred :=
  @MacroTask.test_deferred Z Z _ _ Z.add 0 (mkPartitioner 0 1 1)
                           partition_tasks_1d.

Definition test_twice :=
  @MacroTask.test_twice Z Z _ _ Z.add 0 (mkPartitioner 0 1 1)
                        partition_tasks_1d.

(** The arguments of the tests, [task(v3[0], 2.0, v3)], for a [v3] of five
    functions. *)
Definition v3 : list Z := [1; 2; 3; 4; 5]%Z.
Definition args : list value := [VFunction 1%Z; VScalar 2%Z; VVector v3].

End IntTasks.

(* ===================================================================== *)
(** * Part II: properties                                                  *)
(* ===================================================================== *)

Module WorldArrayFacts.
Import WorldArray.

(** *** [Vector<T,N>] over an element type with a strict total order *)

Section VectorFacts.
Context {T : Type}.
Variables (ltT gtT eqT neT : T -> T -> bool).
Variable N : nat.

Hypothesis lt_irrefl : forall x, ltT x x = false.
Hypothesis lt_total : forall x y, ltT x y = false -> ltT y x = false -> x = y.
Hypothesis gt_lt : forall x y, gtT x y = ltT y x.
Hypothesis eq_spec : forall x y, eqT x y = true <-> x = y.
Hypothesis ne_eq : forall x y, neT x y = negb (eqT x y).

Lemma at_lookup (a : Vector T) i x : a !! i = Some x -> at_ a i = Ok x.
Proof. unfold at_. intros ->. reflexivity. Qed.

Lemma at_in_bounds (a : Vector T) i :
  i < length a -> exists x, a !! i = Some x /\ at_ a i = Ok x.
Proof.
  intros Hi. destruct (lookup_lt_is_Some_2 a i Hi) as [x Hx].
  exists x. split; [exact Hx | now apply at_lookup].
Qed.

Lemma lex_lt_irrefl (a : list T) : lex_lt ltT a a = false.
Proof using lt_irrefl.
  induction a as [|x a IH]; simpl; [reflexivity|].
  now rewrite lt_irrefl.
Qed.

(** The loop of [operator<], entered at index [i] with the elements before
    [i] pairwise equal, computes the lexicographic comparison of what is
    left of the two arrays. *)
Lemma lt_loop_lex (k : nat) : forall i (a b : Vector T),
  1 <= N -> wf N a -> wf N b -> i + k = N ->
  (forall j, j < i -> a !! j = b !! j) ->
  lt_loop ltT gtT eqT N k i a b = Ok (lex_lt ltT (drop i a) (drop i b)).
Proof using lt_irrefl lt_total gt_lt eq_spec.
  unfold wf. induction k as [|k IH]; intros i a b HN Ha Hb Hik Hpre.
  - assert (i = N) as -> by lia.
    rewrite !drop_ge by lia. simpl.
    unfold at_last. destruct N as [|m]; [lia|].
    destruct (at_in_bounds a m) as (x & Hx & ->); [lia|].
    rewrite (Hpre m) in Hx by lia.
    rewrite (at_lookup b m x Hx). simpl.
    now rewrite (proj2 (eq_spec x x) eq_refl).
  - destruct (at_in_bounds a i) as (x & Hx & Hax); [lia|].
    destruct (at_in_bounds b i) as (y & Hy & Hby); [lia|].
    rewrite (drop_S a x i Hx), (drop_S b y i Hy).
    simpl. rewrite Hax, Hby. simpl. rewrite gt_lt.
    destruct (ltT x y) eqn:Hxy; [reflexivity|].
    destruct (ltT y x) eqn:Hyx; [reflexivity|].
    apply IH; try assumption; try lia.
    intros j Hj. destruct (decide (j = i)) as [->|Hne].
    + rewrite Hx, Hy. f_equal. now apply lt_total.
    + apply Hpre. lia.
Qed.

Lemma lex_lt_first_diff (a : list T) : forall b,
  length a = length b ->
  lex_lt ltT a b = true <-> first_diff_less ltT a b.
Proof using lt_irrefl lt_total.
  induction a as [|x a IH]; intros [|y b] Hlen; simpl in Hlen; try lia.
  - simpl. split; [discriminate|].
    intros (i & x & y & _ & Hx & _). now rewrite lookup_nil in Hx.
  - simpl. destruct (ltT x y) eqn:Hxy.
    + split; [intros _|reflexivity].
      exists 0, x, y. repeat split; try reflexivity; try assumption.
      * intros j Hj. lia.
      * intros ->. rewrite lt_irrefl in Hxy. discriminate.
    + destruct (ltT y x) eqn:Hyx.
      * split; [discriminate|].
        intros (i & x' & y' & Hpre & Hx & Hy & Hne & Hlt).
        destruct i as [|i]; simpl in *.
        -- injection Hx as <-. injection Hy as <-. congruence.
        -- specialize (Hpre 0 ltac:(lia)). simpl in Hpre.
           injection Hpre as ->. rewrite lt_irrefl in Hyx. discriminate.
      * rewrite (IH b) by lia. split.
        -- intros (i & x' & y' & Hpre & Hx & Hy & Hne & Hlt).
           exists (S i), x', y'. repeat split; try assumption.
           intros [|j] Hj; simpl; [|apply Hpre; lia].
           f_equal. now apply lt_total.
        -- intros (i & x' & y' & Hpre & Hx & Hy & Hne & Hlt).
           destruct i as [|i]; simpl in *.
           ++ injection Hx as <-. injection Hy as <-. congruence.
           ++ exists i, x', y'. repeat split; try assumption.
              intros j Hj. apply (Hpre (S j)). lia.
Qed.

(** The loop of [operator==] from index [i] on. *)
Lemma eq_loop_spec (k : nat) : forall i (a b : Vector T),
  wf N a -> wf N b -> i + k = N ->
  exists r, eq_loop neT k i a b = Ok r /\
    (r = true <-> forall j, i <= j -> j < N -> a !! j = b !! j).
Proof using eq_spec ne_eq.
  unfold wf. induction k as [|k IH]; intros i a b Ha Hb Hik.
  - exists true. split; [reflexivity|]. split; [|reflexivity].
    intros _ j Hj1 Hj2. lia.
  - destruct (at_in_bounds a i) as (x & Hx & Hax); [lia|].
    destruct (at_in_bounds b i) as (y & Hy & Hby); [lia|].
    simpl. rewrite Hax, Hby. simpl. rewrite ne_eq.
    destruct (eqT x y) eqn:Hxy; simpl.
    + apply eq_spec in Hxy. subst y.
      destruct (IH (S i) a b Ha Hb ltac:(lia)) as (r & Hr & Hiff).
      exists r. split; [exact Hr|]. rewrite Hiff. split.
      * intros H j Hj1 Hj2. destruct (decide (j = i)) as [->|Hne].
        -- now rewrite Hx, Hy.
        -- apply H; lia.
      * intros H j Hj1 Hj2. apply H; lia.
    + exists false. split; [reflexivity|]. split; [discriminate|].
      intros H. specialize (H i ltac:(lia) ltac:(lia)).
      rewrite Hx, Hy in H. injection H as ->.
      rewrite (proj2 (eq_spec y y) eq_refl) in Hxy. discriminate.
Qed.

End VectorFacts.

(** *** [operator<] and [operator==] on the elements that are compared *)

Section VectorComparedFacts.
Context {T : Type}.
Variables (ltT gtT eqT neT : T -> T -> bool).
Variable N : nat.

Local Abbreviation ordered := (ordered ltT gtT eqT neT).
Local Abbreviation equal_at := (equal_at eqT).

(** The loop of [operator<], entered at index [i] with the elements
    before [i] pairwise equal: it returns, and returns true exactly when
    there is an index from [i] on where [a]'s element is smaller, with
    equal elements in between. *)
Lemma lt_loop_compared (a b : Vector T) (k : nat) : forall i,
  1 <= N -> wf N a -> wf N b -> i + k = N ->
  (forall j x y, a !! j = Some x -> b !! j = Some y ->
     (forall l, l < j -> equal_at a b l) -> ordered x y) ->
  (forall j, j < i -> equal_at a b j) ->
  exists r, lt_loop ltT gtT eqT N k i a b = Ok r /\
    (r = true <->
     exists d x y, i <= d /\ (forall j, i <= j -> j < d -> equal_at a b j) /\
       a !! d = Some x /\ b !! d = Some y /\
       eqT x y = false /\ ltT x y = true).
Proof.
  unfold wf. induction k as [|k IH]; intros i HN Ha Hb Hik Hord Hpre.
  - assert (i = N) as -> by lia. simpl. unfold at_last.
    destruct N as [|m]; [lia|].
    destruct (Hpre m) as (u & v & Hu & Hv & Huv); [lia|].
    rewrite (at_lookup a m u Hu), (at_lookup b m v Hv). simpl.
    rewrite Huv. exists false. split; [reflexivity|].
    split; [discriminate|].
    intros (d & x & y & Hd & _ & Hx & _).
    apply lookup_lt_Some in Hx. lia.
  - destruct (at_in_bounds a i) as (x & Hx & Hax); [lia|].
    destruct (at_in_bounds b i) as (y & Hy & Hby); [lia|].
    simpl. rewrite Hax, Hby. simpl.
    destruct (Hord i x y Hx Hy Hpre) as
      [_ [(Hlt & Hgt & Heq) | [(Hlt & Hgt & Heq) | (Hlt & Hgt & Heq)]]];
      rewrite Hlt, ?Hgt.
    + exists true. split; [reflexivity|]. split; [intros _|reflexivity].
      exists i, x, y. split; [lia|].
      split; [intros j Hj1 Hj2; lia|]. repeat split; assumption.
    + exists false. split; [reflexivity|]. split; [discriminate|].
      intros (d & x' & y' & Hd & Hbetween & Hx' & Hy' & Heq' & Hlt').
      destruct (decide (d = i)) as [->|Hne].
      * rewrite Hx in Hx'. rewrite Hy in Hy'.
        injection Hx' as <-. injection Hy' as <-. congruence.
      * destruct (Hbetween i) as (u & v & Hu & Hv & Huv); try lia.
        rewrite Hx in Hu. rewrite Hy in Hv.
        injection Hu as <-. injection Hv as <-. congruence.
    + destruct (IH (S i)) as (r & Hr & Hiff); try assumption; try lia.
      { intros j Hj. destruct (decide (j = i)) as [->|Hne].
        - exists x, y. repeat split; assumption.
        - apply Hpre. lia. }
      exists r. split; [exact Hr|]. rewrite Hiff. split.
      * intros (d & x' & y' & Hd & Hbetween & Hrest).
        exists d, x', y'. split; [lia|]. split; [|exact Hrest].
        intros j Hj1 Hj2. destruct (decide (j = i)) as [->|Hne].
        -- exists x, y. repeat split; assumption.
        -- apply Hbetween; lia.
      * intros (d & x' & y' & Hd & Hbetween & Hx' & Hy' & Heq' & Hlt').
        destruct (decide (d = i)) as [->|Hne].
        -- rewrite Hx in Hx'. rewrite Hy in Hy'.
           injection Hx' as <-. injection Hy' as <-. congruence.
        -- exists d, x', y'. split; [lia|].
           split; [|repeat split; assumption].
           intros j Hj1 Hj2. apply Hbetween; lia.
Qed.

(** The loop of [operator==] from index [i] on. *)
Lemma eq_loop_compared (a b : Vector T) (k : nat) : forall i,
  wf N a -> wf N b -> i + k = N ->
  (forall j x y, a !! j = Some x -> b !! j = Some y ->
     (forall l, l < j -> equal_at a b l) -> ordered x y) ->
  (forall j, j < i -> equal_at a b j) ->
  exists r, eq_loop neT k i a b = Ok r /\
    (r = true <-> forall j, i <= j -> j < N -> equal_at a b j).
Proof.
  unfold wf. induction k as [|k IH]; intros i Ha Hb Hik Hord Hpre.
  - exists true. split; [reflexivity|]. split; [|reflexivity].
    intros _ j Hj1 Hj2. lia.
  - destruct (at_in_bounds a i) as (x & Hx & Hax); [lia|].
    destruct (at_in_bounds b i) as (y & Hy & Hby); [lia|].
    simpl. rewrite Hax, Hby. simpl.
    destruct (Hord i x y Hx Hy Hpre) as [Hne _]. rewrite Hne.
    destruct (eqT x y) eqn:Hxy; simpl.
    + destruct (IH (S i) Ha Hb ltac:(lia) Hord) as (r & Hr & Hiff).
      { intros j Hj. destruct (decide (j = i)) as [->|Hji].
        - exists x, y. repeat split; assumption.
        - apply Hpre. lia. }
      exists r. split; [exact Hr|]. rewrite Hiff. split.
      * intros H j Hj1 Hj2. destruct (decide (j = i)) as [->|Hji].
        -- exists x, y. repeat split; assumption.
        -- apply H; lia.
      * intros H j Hj1 Hj2. apply H; lia.
    + exists false. split; [reflexivity|]. split; [discriminate|].
      intros H. destruct (H i) as (u & v & Hu & Hv & Huv); try lia.
      rewrite Hx in Hu. rewrite Hy in Hv.
      injection Hu as <-. injection Hv as <-. congruence.
Qed.

(** C10 (as amended): for two vectors of a dimension [N >= 1] whose
    elements are ordered where they are compared (at every index up to
    the first where the elements compare different, exactly one of
    [a[i] < b[i]], [a[i] > b[i]] and [a[i] == b[i]] is true, and [!=] is
    the negation of [==]; for [double], no NaN is compared):
    [a < b] returns, and returns true exactly when [a]'s element is the
    smaller one at the first index where the elements compare different;
    [a == b] returns, and returns true exactly when the elements compare
    equal at every index; and [a < a] is false when every element of [a]
    is ordered with, and equal to, itself. Nothing is assumed of the
    element type beyond the elements compared. *)
Theorem Vector_lt_lexicographic (a b : Vector T) :
  1 <= N -> wf N a -> wf N b ->
  (forall i x y, a !! i = Some x -> b !! i = Some y ->
     (forall j, j < i -> equal_at a b j) -> ordered x y) ->
  ((forall i x, a !! i = Some x -> ordered x x /\ eqT x x = true) ->
   op_lt ltT gtT eqT N a a = Ok false) /\
  (exists r, op_lt ltT gtT eqT N a b = Ok r /\
             (r = true <-> smaller_at_first_difference ltT eqT a b)) /\
  (exists r, op_eq neT N a b = Ok r /\
             (r = true <-> forall i, i < N -> equal_at a b i)).
Proof.
  intros HN Ha Hb Hord. unfold op_lt, op_eq. split; [|split].
  - intros Hself.
    destruct (lt_loop_compared a a N 0 HN Ha Ha eq_refl) as (r & Hr & Hiff).
    + intros j x y Hx Hy _. rewrite Hx in Hy. injection Hy as <-.
      now apply (Hself j).
    + intros j Hj. lia.
    + rewrite Hr. f_equal. destruct r; [|reflexivity].
      destruct (proj1 Hiff eq_refl) as (d & x & y & _ & _ & Hx & Hy & Hne & _).
      rewrite Hx in Hy. injection Hy as <-.
      destruct (Hself d x Hx) as [_ He]. congruence.
  - destruct (lt_loop_compared a b N 0 HN Ha Hb eq_refl Hord) as (r & Hr & Hiff).
    { intros j Hj. lia. }
    exists r. split; [exact Hr|]. rewrite Hiff.
    unfold smaller_at_first_difference. split.
    + intros (d & x & y & _ & Hbetween & Hrest).
      exists d, x, y. split; [|exact Hrest].
      intros j Hj. apply Hbetween; lia.
    + intros (d & x & y & Hbefore & Hrest).
      exists d, x, y. split; [lia|]. split; [|exact Hrest].
      intros j _ Hj. now apply Hbefore.
  - destruct (eq_loop_compared a b N 0 Ha Hb eq_refl Hord) as (r & Hr & Hiff).
    { intros j Hj. lia. }
    exists r. split; [exact Hr|]. rewrite Hiff. split.
    + intros H i Hi. apply H; lia.
    + intros H j _ Hj. now apply H.
Qed.
End VectorComparedFacts.

(** A witness of [Vector_lt_lexicographic]: [Vector<double,3>] with the
    comparisons of IEEE 754 binary64, at [a = (0.0, 1.0, 1.0)] and
    [b = (-0.0, 2.0, NaN)]. The first elements compare equal, the second
    decide, and the NaN behind them is not compared: [a < b] is true,
    [a == b] is false, [a < a] is false. *)
Lemma Vector_lt_lexicographic_witness :
  let gt := fun x y => PrimFloat.ltb y x in
  let ne := fun x y => negb (PrimFloat.eqb x y) in
  let a := [zero; one; one] in
  let b := [neg_zero; two; nan] in
  op_lt PrimFloat.ltb gt PrimFloat.eqb 3 a a = Ok false /\
  op_lt PrimFloat.ltb gt PrimFloat.eqb 3 a b = Ok true /\
  smaller_at_first_difference PrimFloat.ltb PrimFloat.eqb a b /\
  op_eq ne 3 a b = Ok false.
Proof.
  intros gt ne a b.
  destruct (Vector_lt_lexicographic PrimFloat.ltb gt PrimFloat.eqb ne 3 a b)
    as (Hirr & (r & Hr & Hiff) & (e & He & _)).
  - lia.
  - reflexivity.
  - reflexivity.
  - intros [|[|[|i]]] x y Hx Hy Hpre; simpl in Hx, Hy; try discriminate;
      injection Hx as <-; injection Hy as <-.
    + split; [reflexivity|]. right. right. repeat split.
    + split; [reflexivity|]. left. repeat split.
    + destruct (Hpre 1) as (u & v & Hu & Hv & Huv); [lia|].
      simpl in Hu, Hv. injection Hu as <-. injection Hv as <-.
      vm_compute in Huv. discriminate Huv.
  - assert (Hrt : r = true).
    { pose proof Hr as Hr'. vm_compute in Hr'. now injection Hr' as <-. }
    assert (Het : e = false).
    { pose proof He as He'. vm_compute in He'. now injection He' as <-. }
    subst r e. split; [|split; [|split]].
    + apply Hirr.
      intros [|[|[|i]]] x Hx; simpl in Hx; try discriminate;
        injection Hx as <-;
        (split; [split; [reflexivity|right; right; repeat split]
                |reflexivity]).
    + exact Hr.
    + now apply Hiff.
    + exact He.
Defined.

(** *** The comparisons of [double] *)

Lemma SFcompare_antisym (f1 f2 : spec_float) (c : comparison) :
  SFcompare f1 f2 = Some c -> SFcompare f2 f1 = Some (CompOpp c).
Proof.
  destruct f1 as [s1|s1| |s1 m1 e1], f2 as [s2|s2| |s2 m2 e2]; simpl;
    try discriminate; intros [= <-];
    try (destruct s1; reflexivity); try (destruct s2; reflexivity);
    try (destruct s1, s2; reflexivity).
  f_equal. rewrite (Z.compare_antisym e1 e2).
  rewrite (ZC4 m2 m1).
  destruct s1, s2; try reflexivity;
    destruct (e1 ?= e2)%Z; simpl; try reflexivity;
    now rewrite ?CompOpp_involutive.
Qed.

Lemma SFcompare_defined (f1 f2 : spec_float) :
  SFeqb f1 f1 = true -> SFeqb f2 f2 = true ->
  exists c, SFcompare f1 f2 = Some c.
Proof.
  unfold SFeqb.
  destruct f1 as [s1|s1| |s1 m1 e1], f2 as [s2|s2| |s2 m2 e2]; simpl;
    try discriminate; intros _ _; eexists; reflexivity.
Qed.

(** Two [double]s of which neither is a NaN (each compares equal to
    itself) are ordered by [<], [>], [==] and [!=]. *)
Lemma double_ordered (x y : float) :
  PrimFloat.eqb x x = true -> PrimFloat.eqb y y = true ->
  ordered PrimFloat.ltb (fun x y => PrimFloat.ltb y x) PrimFloat.eqb
          (fun x y => negb (PrimFloat.eqb x y)) x y.
Proof.
  rewrite !FloatAxioms.eqb_spec. intros Hx Hy.
  destruct (SFcompare_defined _ _ Hx Hy) as [c Hc].
  pose proof (SFcompare_antisym _ _ c Hc) as Hc'.
  unfold ordered. split; [reflexivity|].
  rewrite !FloatAxioms.ltb_spec, FloatAxioms.eqb_spec.
  unfold SFltb, SFeqb. rewrite Hc, Hc'.
  destruct c; simpl; tauto.
Qed.

(** C10 (as stated) fails for [Vector<double,1>]: with [a = (NaN)], the
    loop finds neither [<] nor [>], the closing test [v[N-1] == other.v[N-1]]
    is false for a NaN, and [a < a] returns true. The comparisons are those
    of IEEE 754 binary64. *)
Lemma Vector_lt_nan_not_irreflexive :
  let gt := fun x y => PrimFloat.ltb y x in
  op_lt PrimFloat.ltb gt PrimFloat.eqb 1 [nan] [nan] = Ok true.
Proof. vm_compute. reflexivity. Qed.

(** *** [Stack<T,N>] *)

Section StackFacts.
Context {T : Type}.
Variable N : nat.

(** What the constructor establishes and [push] and [pop] keep: the array
    has its [N] cells and the count never exceeds [N]. *)
Lemma reachable_inv (s : Stack T) :
  reachable N s -> length (t s) = N /\ n s <= N.
Proof.
  induction 1 as [junk Hj | s v s' Hs [IHt IHn] Hp | s x s' Hs [IHt IHn] Hp].
  - simpl. split; [exact Hj | lia].
  - unfold push, set_at in Hp.
    destruct (decide (n s < N)); [|discriminate].
    destruct (decide (n s < length (t s))); [|discriminate].
    simpl in Hp. injection Hp as <-. simpl.
    rewrite length_insert. split; [assumption | lia].
  - unfold pop in Hp.
    destruct (decide (0 < n s)); [|discriminate].
    simpl in Hp. destruct (at_ (t s) (pred (n s))); try discriminate.
    simpl in Hp. injection Hp as _ <-. simpl. split; [assumption | lia].
Qed.

Lemma push_in_bounds (s : Stack T) value :
  length (t s) = N -> n s < N ->
  push N value s = Ok (mkStack (<[n s := value]> (t s)) (S (n s))).
Proof.
  intros Ht Hn. unfold push, set_at.
  destruct (decide (n s < N)); [|lia].
  destruct (decide (n s < length (t s))); [|lia]. reflexivity.
Qed.

Lemma pop_in_bounds (s : Stack T) :
  length (t s) = N -> n s <= N -> 0 < n s ->
  exists x, t s !! pred (n s) = Some x /\
            pop s = Ok (x, mkStack (t s) (pred (n s))).
Proof.
  intros Ht Hn Hpos. unfold pop.
  destruct (decide (0 < n s)); [|lia].
  destruct (lookup_lt_is_Some_2 (t s) (pred (n s))) as [x Hx]; [lia|].
  exists x. split; [exact Hx|]. cbv zeta. unfold at_. rewrite Hx. reflexivity.
Qed.

(** C9: on every stack the class can be in, a [push] below capacity
    followed by a [pop] returns the pushed value and restores the size;
    [push] and [pop] never touch the array outside its bounds, succeed
    exactly when their asserted precondition holds, and change the size
    by exactly one. *)
Theorem Stack_push_pop (s : Stack T) :
  reachable N s ->
  (forall value, n s < N ->
     exists s1 s2, push N value s = Ok s1 /\ pop s1 = Ok (value, s2) /\
                   size s1 = S (size s) /\ size s2 = size s) /\
  (forall value, push N value s <> OutOfBounds) /\
  pop s <> OutOfBounds /\
  (0 < n s -> exists x s', pop s = Ok (x, s')) /\
  (forall value s', push N value s = Ok s' -> size s' = S (size s)) /\
  (forall x s', pop s = Ok (x, s') -> S (size s') = size s).
Proof.
  intros Hr. destruct (reachable_inv s Hr) as [Ht Hn].
  split; [|split; [|split; [|split; [|split]]]].
  - intros value Hlt.
    exists (mkStack (<[n s := value]> (t s)) (S (n s))).
    exists (mkStack (<[n s := value]> (t s)) (n s)).
    split; [now apply push_in_bounds|].
    split; [|split; reflexivity].
    unfold pop. simpl. unfold at_.
    rewrite list_lookup_insert_eq by lia. reflexivity.
  - intros value. destruct (decide (n s < N)) as [Hlt|Hge].
    + rewrite push_in_bounds by assumption. discriminate.
    + unfold push. destruct (decide (n s < N)); [lia|discriminate].
  - unfold pop. destruct (decide (0 < n s)) as [Hpos|]; [|discriminate].
    destruct (pop_in_bounds s Ht Hn Hpos) as (x & _ & Hp).
    unfold pop in Hp. destruct (decide (0 < n s)); [|lia].
    rewrite Hp. discriminate.
  - intros Hpos. destruct (pop_in_bounds s Ht Hn Hpos) as (x & _ & Hp).
    eauto.
  - intros value s' Hp. unfold push in Hp.
    destruct (decide (n s < N)); [|discriminate].
    unfold push in Hp. destruct (set_at (t s) (n s) value); try discriminate.
    simpl in Hp. injection Hp as <-. reflexivity.
  - intros x s' Hp. unfold pop in Hp.
    destruct (decide (0 < n s)); [|discriminate].
    simpl in Hp. destruct (at_ (t s) (pred (n s))); try discriminate.
    simpl in Hp. injection Hp as _ <-. unfold size. simpl. lia.
Qed.
End StackFacts.

(** A witness of [Stack_push_pop]: a [Stack<long,2>] after one [push]. *)
Lemma Stack_push_pop_witness :
  let s := mkStack [7; 0]%Z 1 in
  reachable 2 s /\
  (forall value, n s < 2 ->
     exists s1 s2, push 2 value s = Ok s1 /\ pop s1 = Ok (value, s2) /\
                   size s1 = S (size s) /\ size s2 = size s).
Proof.
  intros s.
  assert (Hr : reachable 2 s).
  { apply (reach_push 2 (Stack_new [0; 0]%Z) 7%Z).
    - apply reach_new. reflexivity.
    - reflexivity. }
  split; [exact Hr|].
  exact (proj1 (Stack_push_pop 2 s Hr)).
Defined.

(** *** Constructors, assignments and element-wise operators *)

Section VectorOpsFacts.
Context {T Q : Type}.
Variable N : nat.
Implicit Types (v junk other : list T) (l : list T).

Lemma take_S_insert v i (x : T) :
  i < length v -> take (S i) (<[i := x]> v) = take i v ++ [x].
Proof.
  intros Hi. rewrite insert_take_drop by assumption.
  rewrite take_app_ge by (rewrite length_take; lia).
  rewrite length_take, Nat.min_l by lia.
  replace (S i - i) with 1 by lia. reflexivity.
Qed.

(** The assigning loop, entered at index [i] with [length l] iterations
    to go, writes [l] over the cells from [i] on when the right-hand
    sides evaluate to the elements of [l], and touches no other cell. *)
Lemma assign_loop_list (rhs : nat -> outcome T) l : forall i v,
  i + length l <= length v ->
  (forall j x, l !! j = Some x -> rhs (i + j) = Ok x) ->
  assign_loop rhs (length l) i v
  = Ok (take i v ++ l ++ drop (i + length l) v).
Proof.
  induction l as [|x l IH]; intros i v Hlen Hrhs; simpl in *.
  - now rewrite Nat.add_0_r, take_drop.
  - pose proof (Hrhs 0 x eq_refl) as H0. rewrite Nat.add_0_r in H0.
    rewrite H0. simpl. unfold set_at.
    destruct (decide (i < length v)) as [Hi|]; [|lia]. simpl.
    rewrite IH.
    + rewrite take_S_insert by assumption.
      rewrite drop_insert_lt by lia.
      rewrite <- app_assoc. simpl.
      now replace (S (i + length l)) with (i + S (length l)) by lia.
    + rewrite length_insert. lia.
    + intros j y Hj. replace (S i + j) with (i + S j) by lia.
      now apply Hrhs.
Qed.

Lemma assign_loop_all (rhs : nat -> outcome T) l junk :
  wf N junk -> length l = N ->
  (forall j x, l !! j = Some x -> rhs j = Ok x) ->
  assign_loop rhs N 0 junk = Ok l.
Proof.
  unfold wf. intros Hj Hl Hrhs. rewrite <- Hl.
  rewrite assign_loop_list by (assumption || lia).
  rewrite take_0, drop_ge by (simpl; lia). simpl. now rewrite app_nil_r.
Qed.

(** The loop that copies from [t] runs off the end of [t] when [t] is
    too short: the read at index [length t] is outside [t]. *)
Lemma assign_loop_short (src : list T) (k : nat) : forall i v,
  i + k <= length v -> i <= length src -> length src < i + k ->
  assign_loop (at_ src) k i v = OutOfBounds.
Proof.
  induction k as [|k IH]; intros i v Hv Hi Hs; [lia|]. simpl.
  destruct (decide (i = length src)) as [->|Hne].
  - unfold at_. now rewrite lookup_ge_None_2 by lia.
  - destruct (at_in_bounds src i) as (x & _ & ->); [lia|]. simpl.
    unfold set_at. destruct (decide (i < length v)); [|lia]. simpl.
    apply IH; rewrite ?length_insert; lia.
Qed.

Lemma at_take (src : list T) j x :
  take N src !! j = Some x -> at_ src j = Ok x.
Proof.
  intros H. apply lookup_take_Some in H as [H _]. now apply at_lookup.
Qed.

(** The updating loop applies [f] to the cells from [i] on. *)
Lemma update_loop_map (f : T -> T) (k : nat) : forall i v,
  i + k <= length v ->
  update_loop f k i v
  = Ok (take i v ++ map f (take k (drop i v)) ++ drop (i + k) v).
Proof.
  induction k as [|k IH]; intros i v Hlen; simpl.
  - now rewrite Nat.add_0_r, take_drop.
  - destruct (at_in_bounds v i) as (x & Hx & ->); [lia|]. simpl.
    unfold set_at. destruct (decide (i < length v)); [|lia]. simpl.
    rewrite IH by (rewrite length_insert; lia).
    rewrite take_S_insert by lia.
    rewrite (drop_S v x i Hx). simpl.
    rewrite drop_insert_lt by lia.
    rewrite drop_insert_lt by lia.
    rewrite <- app_assoc. simpl.
    now replace (S (i + k)) with (i + S k) by lia.
Qed.

(** X1: the constructor from a [std::vector] asserts that the vector has
    at least [N] elements: a shorter one fails the assertion, and otherwise
    the new [Vector] holds the first [N] elements, whatever its storage
    held before. *)
Theorem Vector_of_std_vector_checked junk (src : list T) :
  wf N junk ->
  (N <= length src -> Vector_of_std_vector N junk src = Ok (take N src)) /\
  (length src < N -> Vector_of_std_vector N junk src = AssertFailed).
Proof.
  intros Hj. unfold Vector_of_std_vector. split; intros Hlen.
  - destruct (decide (N <= length src)); [|lia].
    apply assign_loop_all; [assumption| |apply at_take].
    rewrite length_take. lia.
  - destruct (decide (N <= length src)); [lia|reflexivity].
Qed.

(** X2: the assignment from a [std::vector] makes no such check: from a
    vector of at least [N] elements it copies the first [N], and from a
    shorter one it reads outside the vector instead of failing an
    assertion. *)
Theorem op_assign_std_vector_unchecked v (src : list T) :
  wf N v ->
  (N <= length src -> op_assign_std_vector N v src = Ok (take N src)) /\
  (length src < N -> op_assign_std_vector N v src = OutOfBounds).
Proof.
  unfold wf. intros Hv. unfold op_assign_std_vector. split; intros Hlen.
  - apply assign_loop_all; [assumption| |apply at_take].
    rewrite length_take. lia.
  - apply assign_loop_short; lia.
Qed.

(** X3: filling. The constructor from a value and the assignment of a
    value leave [N] copies of the value, whatever the array held. *)
Theorem Vector_fill_replicate junk v (x : T) :
  wf N junk -> wf N v ->
  Vector_fill N junk x = Ok (replicate N x) /\
  op_assign_fill N v x = Ok (replicate N x).
Proof.
  intros Hj Hv. unfold Vector_fill, op_assign_fill.
  split; apply assign_loop_all; try assumption;
    try apply length_replicate;
    intros j y Hy; apply lookup_replicate in Hy as [-> _]; reflexivity.
Qed.

Section Copy.
Variable neT : T -> T -> bool.
Hypothesis ne_irrefl : forall x, neT x x = false.

Lemma eq_loop_refl (k : nat) : forall i (a : list T),
  i + k <= length a -> eq_loop neT k i a a = Ok true.
Proof using ne_irrefl.
  induction k as [|k IH]; intros i a Hlen; simpl; [reflexivity|].
  destruct (at_in_bounds a i) as (x & _ & ->); [lia|]. simpl.
  rewrite ne_irrefl. apply IH. lia.
Qed.

(** X4: copies are deep and equal. For an element type on which [x != x]
    is false, the copy constructor, the constructor from an array and the
    assignment from a [Vector] leave exactly the elements of the source,
    and [operator==] then finds the copy equal to the source. *)
Theorem Vector_copy_equal junk v other :
  wf N junk -> wf N v -> wf N other ->
  Vector_copy N junk other = Ok other /\
  Vector_of_array N junk other = Ok other /\
  op_assign N v other = Ok other /\
  op_eq neT N other other = Ok true /\
  op_ne neT N other other = Ok false.
Proof using ne_irrefl.
  intros Hj Hv Ho.
  assert (Hcopy : forall w, wf N w -> assign_loop (at_ other) N 0 w = Ok other).
  { intros w Hw. apply assign_loop_all; try assumption.
    intros j x. apply at_lookup. }
  unfold Vector_copy, Vector_of_array, op_assign.
  rewrite !Hcopy by assumption. repeat split.
  - unfold op_eq. apply eq_loop_refl. unfold wf in Ho. lia.
  - unfold op_ne, op_eq. rewrite eq_loop_refl by (unfold wf in Ho; lia).
    reflexivity.
Qed.
End Copy.

Section Arithmetic.
Variables (mul add sub mul_assign add_assign : T -> Q -> T).

Lemma scalar_loop (op : T -> Q -> T) junk v (q : Q) :
  wf N junk -> wf N v ->
  assign_loop (fun i => let* x := at_ v i in Ok (op x q)) N 0 junk
  = Ok (map (fun x => op x q) v).
Proof.
  intros Hj Hv. apply assign_loop_all; [assumption| |].
  - now rewrite length_map.
  - intros j y Hy. apply list_lookup_fmap_Some in Hy as (x & -> & Hx).
    now rewrite (at_lookup v j x Hx).
Qed.

Lemma vector_loop (op : T -> Q -> T) junk v (q : list Q) :
  wf N junk -> wf N v -> wf N q ->
  assign_loop
    (fun i => let* x := at_ v i in let* y := at_ q i in Ok (op x y))
    N 0 junk
  = Ok (zip_with op v q).
Proof.
  unfold wf. intros Hj Hv Hq. apply assign_loop_all; [assumption| |].
  - rewrite length_zip_with. lia.
  - intros j z Hz. apply lookup_zip_with_Some in Hz as (x & y & -> & Hx & Hy).
    rewrite (at_lookup v j x Hx). simpl.
    now rewrite (at_lookup q j y Hy).
Qed.

(** X5: the operators with a scalar. [v * q], [v + q] and [v - q] return
    a vector of the same dimension whose element at every index is
    [v[i] op q]; no element of the result is left as the uninitialised
    local held it, and no array is accessed outside its bounds. *)
Theorem op_scalar_elementwise junk v (q : Q) :
  wf N junk -> wf N v ->
  op_mul_scalar N mul junk v q = Ok (map (fun x => mul x q) v) /\
  op_add_scalar N add junk v q = Ok (map (fun x => add x q) v) /\
  op_sub_scalar N sub junk v q = Ok (map (fun x => sub x q) v).
Proof.
  intros Hj Hv. unfold op_mul_scalar, op_add_scalar, op_sub_scalar.
  now rewrite !scalar_loop.
Qed.

(** X6: the in-place operators with a scalar. [v *= q] and [v += q]
    leave in [v] the element-wise result, and when the compound
    assignments of the element type agree with its binary operators this
    is the vector that [v * q] and [v + q] return. *)
Theorem op_assign_scalar_elementwise junk v (q : Q) :
  wf N junk -> wf N v ->
  op_mul_assign N mul_assign v q = Ok (map (fun x => mul_assign x q) v) /\
  op_add_assign N add_assign v q = Ok (map (fun x => add_assign x q) v) /\
  ((forall x, mul_assign x q = mul x q) ->
   op_mul_assign N mul_assign v q = op_mul_scalar N mul junk v q) /\
  ((forall x, add_assign x q = add x q) ->
   op_add_assign N add_assign v q = op_add_scalar N add junk v q).
Proof.
  intros Hj Hv. unfold op_mul_assign, op_add_assign.
  assert (Hup : forall f : T -> T, update_loop f N 0 v = Ok (map f v)).
  { intros f. unfold wf in Hv. rewrite update_loop_map by lia.
    rewrite take_0, drop_0, drop_ge, take_ge by (simpl; lia).
    simpl. now rewrite app_nil_r. }
  rewrite !Hup. repeat split.
  - intros Hagree. unfold op_mul_scalar. rewrite scalar_loop by assumption.
    f_equal. apply map_ext. intros x. apply Hagree.
  - intros Hagree. unfold op_add_scalar. rewrite scalar_loop by assumption.
    f_equal. apply map_ext. intros x. apply Hagree.
Qed.

(** X7: the operators with another vector. [v * q], [v + q] and [v - q]
    return the vector whose element at every index is [v[i] op q[i]], of
    the same dimension, without an access outside the three arrays. *)
Theorem op_vector_elementwise junk v (q : list Q) :
  wf N junk -> wf N v -> wf N q ->
  op_mul N mul junk v q = Ok (zip_with mul v q) /\
  op_add N add junk v q = Ok (zip_with add v q) /\
  op_sub N sub junk v q = Ok (zip_with sub v q).
Proof.
  intros Hj Hv Hq. unfold op_mul, op_add, op_sub.
  now rewrite !vector_loop.
Qed.
End Arithmetic.

Section Printing.
Variable put : T -> ostream -> ostream.
Variable show : T -> string.

(** The inserter of the element type writes the text [show x] of an
    element: on a good stream without a pending width it appends the text
    and leaves the stream good and without a pending width, and a stream
    that is not good it leaves as it is. The inserters of the arithmetic
    types and of strings do so. *)
Hypothesis put_good : forall x s,
  failed s = false -> width s = 0 ->
  put x s = mkOstream (String.append (chars s) (show x)) 0
                      (fill s) (adjust_left s) false.
Hypothesis put_failed : forall x s, failed s = true -> put x s = s.

Lemma append_nil_r (s : string) : String.append s "" = s.
Proof. induction s as [|c s IH]; simpl; [reflexivity|now rewrite IH]. Qed.

Lemma append_assoc (s1 s2 s3 : string) :
  String.append (String.append s1 s2) s3
  = String.append s1 (String.append s2 s3).
Proof. induction s1 as [|c s1 IH]; simpl; [reflexivity|now rewrite IH]. Qed.

Lemma put_chars_plain (str : string) (s : ostream) :
  failed s = false -> width s = 0 ->
  put_chars str s = mkOstream (String.append (chars s) str) 0
                              (fill s) (adjust_left s) false.
Proof.
  intros Hf Hw. unfold put_chars, field. rewrite Hf, Hw. simpl.
  destruct (adjust_left s); simpl; now rewrite ?append_nil_r.
Qed.

Lemma print_loop_failed (k : nat) : forall i (a : list T) s,
  wf N a -> i + k = N -> failed s = true ->
  print_loop N put k i a s = Ok s.
Proof using put_failed.
  unfold wf. induction k as [|k IH]; intros i a s Ha Hik Hf; simpl.
  - reflexivity.
  - destruct (at_in_bounds a i) as (x & _ & ->); [lia|]. simpl.
    rewrite put_failed by assumption.
    assert (Hc : put_chars "," s = s) by (unfold put_chars; now rewrite Hf).
    rewrite Hc. destruct (negb (i =? N - 1)); apply IH; assumption || lia.
Qed.

Lemma print_loop_concat (k : nat) : forall i (a : list T) s,
  wf N a -> i + k = N -> failed s = false -> width s = 0 ->
  print_loop N put k i a s
  = Ok (mkOstream
          (String.append (chars s)
             (String.concat "," (map show (drop i a))))
          0 (fill s) (adjust_left s) false).
Proof using put_good.
  unfold wf. induction k as [|k IH]; intros i a s Ha Hik Hf Hw; simpl.
  - rewrite drop_ge by lia. simpl. rewrite append_nil_r.
    destruct s; simpl in *. now subst.
  - destruct (at_in_bounds a i) as (x & Hx & ->); [lia|]. simpl.
    rewrite put_good by assumption.
    rewrite (drop_S a x i Hx). simpl.
    destruct (Nat.eqb_spec i (N - 1)) as [Hlast|Hmore]; simpl.
    + rewrite IH by (assumption || reflexivity || lia). simpl.
      rewrite drop_ge by lia. simpl. now rewrite append_nil_r.
    + rewrite put_chars_plain by reflexivity. simpl.
      rewrite IH by (assumption || reflexivity || lia). simpl.
      destruct (drop (S i) a) as [|y more] eqn:Hd.
      * apply (f_equal length) in Hd. rewrite length_drop in Hd.
        simpl in Hd. lia.
      * cbn [map]. now rewrite !append_assoc.
Qed.

(** X8: printing. For an element type whose inserter writes the text of
    an element, [s << a] on a good stream writes an opening bracket, as a
    field of the pending width (the width applies to the bracket alone
    and is reset by it), then the elements in index order separated by
    single commas, with no comma after the last, and a closing bracket,
    and leaves the stream good; without a pending width the output is
    exactly the bracketed list. A stream that is not good is left as it
    is. *)
Theorem op_shl_format (s : ostream) (a : list T) :
  wf N a ->
  (failed s = true -> op_shl N put s a = Ok s) /\
  (failed s = false ->
   op_shl N put s a
   = Ok (mkOstream
           (String.append (chars s)
              (String.append (field "[" s)
                 (String.append (String.concat "," (map show a)) "]")))
           0 (fill s) (adjust_left s) false)) /\
  (failed s = false -> width s = 0 ->
   op_shl N put s a
   = Ok (mkOstream
           (String.append (chars s)
              (String.append "["
                 (String.append (String.concat "," (map show a)) "]")))
           0 (fill s) (adjust_left s) false)).
Proof using put_good put_failed.
  intros Ha.
  assert (Hgood : failed s = false ->
    op_shl N put s a
    = Ok (mkOstream
            (String.append (chars s)
               (String.append (field "[" s)
                  (String.append (String.concat "," (map show a)) "]")))
            0 (fill s) (adjust_left s) false)).
  { intros Hf. unfold op_shl.
    assert (Hopen : put_chars "[" s
                    = mkOstream (String.append (chars s) (field "[" s)) 0
                                (fill s) (adjust_left s) false)
      by (unfold put_chars; now rewrite Hf).
    rewrite Hopen.
    rewrite print_loop_concat with (i := 0)
      by (assumption || reflexivity || lia).
    rewrite drop_0. simpl.
    rewrite put_chars_plain by reflexivity. simpl.
    now rewrite !append_assoc. }
  split; [|split].
  - intros Hf. unfold op_shl.
    assert (Hc : forall str, put_chars str s = s)
      by (intros str; unfold put_chars; now rewrite Hf).
    rewrite Hc, print_loop_failed by (assumption || lia). simpl.
    now rewrite Hc.
  - exact Hgood.
  - intros Hf Hw. rewrite Hgood by assumption. do 3 f_equal.
    unfold field. rewrite Hw. simpl.
    destruct (adjust_left s); reflexivity.
Qed.
End Printing.
End VectorOpsFacts.

(** *** [operator<] as an order *)

Section VectorOrderFacts.
Context {T : Type}.
Variables (ltT gtT eqT neT : T -> T -> bool).
Variable N : nat.

Hypothesis lt_irrefl : forall x, ltT x x = false.
Hypothesis lt_trans :
  forall x y z, ltT x y = true -> ltT y z = true -> ltT x z = true.
Hypothesis lt_total : forall x y, ltT x y = false -> ltT y x = false -> x = y.
Hypothesis gt_lt : forall x y, gtT x y = ltT y x.
Hypothesis eq_spec : forall x y, eqT x y = true <-> x = y.
Hypothesis ne_eq : forall x y, neT x y = negb (eqT x y).

Lemma lt_asym x y : ltT x y = true -> ltT y x = false.
Proof using lt_irrefl lt_trans.
  intros Hxy. destruct (ltT y x) eqn:Hyx; [|reflexivity].
  pose proof (lt_trans x y x Hxy Hyx) as H. now rewrite lt_irrefl in H.
Qed.

Lemma lex_lt_trans (a : list T) : forall b c,
  lex_lt ltT a b = true -> lex_lt ltT b c = true -> lex_lt ltT a c = true.
Proof using lt_irrefl lt_trans lt_total.
  induction a as [|x a IH]; intros [|y b] [|z c]; simpl; try discriminate.
  destruct (ltT x y) eqn:Hxy.
  - intros _. destruct (ltT y z) eqn:Hyz.
    + intros _. now rewrite (lt_trans x y z).
    + destruct (ltT z y) eqn:Hzy; [discriminate|]. intros _.
      rewrite <- (lt_total y z Hyz Hzy). now rewrite Hxy.
  - destruct (ltT y x) eqn:Hyx; [discriminate|].
    rewrite <- (lt_total x y Hxy Hyx). intros Hab.
    destruct (ltT x z); [reflexivity|].
    destruct (ltT z x); [discriminate|]. now apply IH.
Qed.

Lemma lex_lt_asym (a : list T) : forall b,
  lex_lt ltT a b = true -> lex_lt ltT b a = false.
Proof using lt_irrefl lt_trans.
  induction a as [|x a IH]; intros [|y b]; simpl; try discriminate.
  destruct (ltT x y) eqn:Hxy.
  - intros _. now rewrite (lt_asym x y Hxy).
  - destruct (ltT y x); [discriminate|]. apply IH.
Qed.

Lemma lex_lt_connected (a : list T) : forall b,
  length a = length b ->
  lex_lt ltT a b = false -> lex_lt ltT b a = false -> a = b.
Proof using lt_total.
  induction a as [|x a IH]; intros [|y b] Hlen; simpl in *; try lia.
  - reflexivity.
  - destruct (ltT x y) eqn:Hxy; [discriminate|].
    destruct (ltT y x) eqn:Hyx; [discriminate|].
    intros Hab Hba. rewrite (lt_total x y Hxy Hyx). f_equal.
    apply IH; [lia|assumption|assumption].
Qed.

Lemma op_lt_lex (a b : list T) :
  1 <= N -> wf N a -> wf N b ->
  op_lt ltT gtT eqT N a b = Ok (lex_lt ltT a b).
Proof using lt_irrefl lt_total gt_lt eq_spec.
  intros HN Ha Hb. unfold op_lt.
  rewrite (lt_loop_lex ltT gtT eqT N lt_irrefl lt_total gt_lt eq_spec)
    by (assumption || lia).
  now rewrite !drop_0.
Qed.

Lemma op_lt_positive (a b : list T) r :
  op_lt ltT gtT eqT N a b = Ok r -> 1 <= N.
Proof.
  unfold op_lt. destruct N as [|m]; [|lia].
  simpl. unfold at_last. simpl. discriminate.
Qed.

(** X9: for an element type whose [<] is a strict total order,
    [operator<] is transitive: from [a < b] and [b < c] follows
    [a < c]. *)
Theorem Vector_lt_transitive (a b c : list T) :
  wf N a -> wf N b -> wf N c ->
  op_lt ltT gtT eqT N a b = Ok true ->
  op_lt ltT gtT eqT N b c = Ok true ->
  op_lt ltT gtT eqT N a c = Ok true.
Proof using lt_irrefl lt_trans lt_total gt_lt eq_spec.
  intros Ha Hb Hc Hab Hbc.
  pose proof (op_lt_positive a b true Hab) as HN.
  rewrite op_lt_lex in * by assumption.
  injection Hab as Hab. injection Hbc as Hbc. f_equal.
  now apply (lex_lt_trans a b c).
Qed.

(** X10: for such an element type and [N >= 1], exactly one of [a < b],
    [a == b] and [b < a] is true of two vectors, and [a != b] is true
    exactly when [a == b] is not. *)
Theorem Vector_lt_trichotomy (a b : list T) :
  1 <= N -> wf N a -> wf N b ->
  exists l e g,
    op_lt ltT gtT eqT N a b = Ok l /\
    op_eq neT N a b = Ok e /\
    op_lt ltT gtT eqT N b a = Ok g /\
    op_ne neT N a b = Ok (negb e) /\
    ((l = true /\ e = false /\ g = false) \/
     (l = false /\ e = true /\ g = false) \/
     (l = false /\ e = false /\ g = true)).
Proof using lt_irrefl lt_trans lt_total gt_lt eq_spec ne_eq.
  intros HN Ha Hb.
  destruct (eq_loop_spec eqT neT N eq_spec ne_eq N 0 a b Ha Hb eq_refl)
    as (e & He & Hiff).
  assert (Heq : e = true <-> a = b).
  { rewrite Hiff. split.
    - intros H. apply list_eq. intros j.
      destruct (decide (j < N)) as [Hj|Hj]; [apply H; lia|].
      unfold wf in *. now rewrite !lookup_ge_None_2 by lia.
    - now intros ->. }
  exists (lex_lt ltT a b), e, (lex_lt ltT b a).
  rewrite !op_lt_lex by assumption.
  unfold op_ne, op_eq. rewrite He.
  repeat (split; [reflexivity|]).
  destruct (lex_lt ltT a b) eqn:Hab.
  - left. split; [reflexivity|]. split; [|now apply lex_lt_asym].
    destruct e; [|reflexivity].
    rewrite (proj1 Heq eq_refl) in Hab.
    now rewrite (lex_lt_irrefl ltT lt_irrefl) in Hab.
  - destruct (lex_lt ltT b a) eqn:Hba.
    + right. right. repeat split.
      destruct e; [|reflexivity].
      rewrite (proj1 Heq eq_refl) in Hba.
      now rewrite (lex_lt_irrefl ltT lt_irrefl) in Hba.
    + right. left. repeat split. apply Heq.
      apply lex_lt_connected; [|assumption|assumption].
      unfold wf in *. congruence.
Qed.
End VectorOrderFacts.

(** *** [VectorFactory] *)

Section VectorFactoryFacts.
Context {T : Type}.

(** X11: each [VectorFactory] returns the vector of its arguments, in
    order: every element of the uninitialised local is assigned, and no
    assignment falls outside it. *)
Theorem VectorFactory_elements (v0 v1 v2 v3 v4 v5 : T) :
  (forall junk, wf 1 junk -> VectorFactory1 junk v0 = Ok [v0]) /\
  (forall junk, wf 2 junk -> VectorFactory2 junk v0 v1 = Ok [v0; v1]) /\
  (forall junk, wf 3 junk ->
     VectorFactory3 junk v0 v1 v2 = Ok [v0; v1; v2]) /\
  (forall junk, wf 4 junk ->
     VectorFactory4 junk v0 v1 v2 v3 = Ok [v0; v1; v2; v3]) /\
  (forall junk, wf 5 junk ->
     VectorFactory5 junk v0 v1 v2 v3 v4 = Ok [v0; v1; v2; v3; v4]) /\
  (forall junk, wf 6 junk ->
     VectorFactory6 junk v0 v1 v2 v3 v4 v5 = Ok [v0; v1; v2; v3; v4; v5]).
Proof.
  unfold wf.
  repeat split; intros junk Hj;
    repeat (destruct junk as [|? junk]; simpl in Hj; try lia);
    reflexivity.
Qed.
End VectorFactoryFacts.

(** *** The stack as a sequence *)

Section StackSeqFacts.
Context {T : Type}.
Variable N : nat.

(** The invariant of [reachable_inv]. *)
Local Abbreviation inv s := (length (t s) = N /\ n s <= N).

Lemma contents_length (s : Stack T) :
  inv s -> length (contents s) = n s.
Proof. intros [Ht Hn]. unfold contents. rewrite length_take. lia. Qed.

Lemma push_contents (s : Stack T) value :
  inv s -> n s < N ->
  exists s', push N value s = Ok s' /\ inv s' /\
             contents s' = contents s ++ [value].
Proof.
  intros [Ht Hn] Hlt. eexists. split; [now apply push_in_bounds|].
  unfold contents. simpl. rewrite length_insert.
  split; [split; [assumption|lia]|].
  apply take_S_insert. lia.
Qed.

Lemma pop_contents (s : Stack T) l x :
  inv s -> contents s = l ++ [x] ->
  exists s', pop s = Ok (x, s') /\ inv s' /\ contents s' = l.
Proof.
  intros Hinv Hc. pose proof (contents_length s Hinv) as Hl.
  destruct Hinv as [Ht Hn].
  rewrite Hc, length_app in Hl. simpl in Hl.
  destruct (pop_in_bounds N s Ht Hn) as (y & Hy & Hp); [lia|].
  assert (y = x) as ->.
  { assert (H : contents s !! pred (n s) = Some y).
    { unfold contents. rewrite lookup_take_lt by lia. exact Hy. }
    rewrite Hc in H. rewrite lookup_app_r in H by lia.
    replace (pred (n s) - length l) with 0 in H by lia.
    simpl in H. congruence. }
  eexists. split; [exact Hp|]. simpl.
  split; [split; [assumption|lia]|].
  unfold contents. simpl.
  replace (pred (n s)) with (length l) by lia.
  assert (H : take (length l) (take (n s) (t s)) = take (length l) (t s)).
  { rewrite take_take. f_equal. lia. }
  rewrite <- H. fold (contents s). rewrite Hc.
  now rewrite take_app_length.
Qed.

(** X12: a stack is a bounded sequence. On every stack the class can be
    in, the values held are the first [size()] cells of the array, at most
    [N] of them; [push] appends its value to them, or fails the assertion
    when there are [N] already; [pop] returns and removes the value
    appended last, or fails the assertion when there is none. *)
Theorem Stack_is_bounded_sequence (s : Stack T) :
  reachable N s ->
  size s = length (contents s) /\ length (contents s) <= N /\
  (forall value, size s < N ->
     exists s', push N value s = Ok s' /\
                contents s' = contents s ++ [value]) /\
  (forall value, size s = N -> push N value s = AssertFailed) /\
  (forall l x, contents s = l ++ [x] ->
     exists s', pop s = Ok (x, s') /\ contents s' = l) /\
  (contents s = [] -> pop s = AssertFailed).
Proof.
  intros Hr. pose proof (reachable_inv N s Hr) as Hinv.
  pose proof (contents_length s Hinv) as Hl. unfold size.
  split; [now rewrite Hl|]. split; [rewrite Hl; tauto|].
  split; [|split; [|split]].
  - intros value Hlt.
    destruct (push_contents s value Hinv Hlt) as (s' & Hp & _ & Hc). eauto.
  - intros value Hfull. unfold push.
    destruct (decide (n s < N)); [lia|reflexivity].
  - intros l x Hc.
    destruct (pop_contents s l x Hinv Hc) as (s' & Hp & _ & Hc'). eauto.
  - intros Hc. rewrite Hc in Hl. simpl in Hl. unfold pop.
    destruct (decide (0 < n s)); [lia|reflexivity].
Qed.

Lemma push_all_contents (vs : list T) : forall s : Stack T,
  inv s -> n s + length vs <= N ->
  exists s1, push_all N vs s = Ok s1 /\ inv s1 /\
             contents s1 = contents s ++ vs.
Proof.
  induction vs as [|value vs IH]; intros s Hinv Hlen; simpl in *.
  - exists s. now rewrite app_nil_r.
  - destruct (push_contents s value Hinv) as (s' & Hp & Hinv' & Hc); [lia|].
    rewrite Hp. simpl.
    assert (Hn' : n s' = S (n s)).
    { rewrite <- (contents_length s' Hinv'), Hc, length_app.
      rewrite (contents_length s Hinv). simpl. lia. }
    destruct (IH s' Hinv') as (s1 & Hpa & Hinv1 & Hc1); [lia|].
    exists s1. split; [exact Hpa|]. split; [exact Hinv1|].
    now rewrite Hc1, Hc, <- app_assoc.
Qed.

Lemma pop_n_contents (vs : list T) : forall (s1 : Stack T) l,
  inv s1 -> contents s1 = l ++ vs ->
  exists s2, pop_n (length vs) s1 = Ok (reverse vs, s2) /\ inv s2 /\
             contents s2 = l.
Proof.
  induction vs as [|x vs IH] using rev_ind; intros s1 l Hinv Hc.
  - exists s1. rewrite app_nil_r in Hc. now simpl.
  - rewrite app_assoc in Hc.
    destruct (pop_contents s1 (l ++ vs) x Hinv Hc) as (s' & Hp & Hinv' & Hc').
    destruct (IH s' l Hinv' Hc') as (s2 & Hpn & Hinv2 & Hc2).
    exists s2. rewrite length_app, Nat.add_1_r. simpl.
    rewrite Hp. simpl. rewrite Hpn. simpl.
    now rewrite reverse_app.
Qed.

(** X13: last in, first out. Values pushed one after the other onto a
    stack with room for them are returned by as many calls of [pop] in the
    reverse order, and the stack then holds what it held before. *)
Theorem Stack_lifo (s : Stack T) (vs : list T) :
  reachable N s -> size s + length vs <= N ->
  exists s1 s2,
    push_all N vs s = Ok s1 /\ size s1 = size s + length vs /\
    pop_n (length vs) s1 = Ok (reverse vs, s2) /\
    size s2 = size s /\ contents s2 = contents s.
Proof.
  intros Hr Hlen. pose proof (reachable_inv N s Hr) as Hinv.
  destruct (push_all_contents vs s Hinv Hlen) as (s1 & Hpa & Hinv1 & Hc1).
  destruct (pop_n_contents vs s1 (contents s) Hinv1 Hc1)
    as (s2 & Hpn & Hinv2 & Hc2).
  exists s1, s2. unfold size. split; [exact Hpa|].
  split.
  { rewrite <- (contents_length s1 Hinv1), Hc1, length_app.
    now rewrite (contents_length s Hinv). }
  split; [exact Hpn|]. split; [|exact Hc2].
  now rewrite <- (contents_length s2 Hinv2), Hc2, (contents_length s Hinv).
Qed.
End StackSeqFacts.

(** A witness of [Vector_of_std_vector_checked]: a [Vector<long,3>] from
    vectors of four and of two elements. *)
Lemma Vector_of_std_vector_checked_witness :
  wf 3 [0; 0; 0]%Z /\
  Vector_of_std_vector 3 [0; 0; 0]%Z [1; 2; 3; 4]%Z = Ok [1; 2; 3]%Z /\
  Vector_of_std_vector 3 [0; 0; 0]%Z [1; 2]%Z = AssertFailed.
Proof.
  split; [reflexivity|]. split.
  - apply (proj1 (Vector_of_std_vector_checked 3 [0; 0; 0]%Z
                    [1; 2; 3; 4]%Z eq_refl)).
    simpl. lia.
  - apply (proj2 (Vector_of_std_vector_checked 3 [0; 0; 0]%Z
                    [1; 2]%Z eq_refl)).
    simpl. lia.
Defined.

(** A witness of [op_assign_std_vector_unchecked]: the same two vectors
    assigned to a [Vector<long,3>]. *)
Lemma op_assign_std_vector_unchecked_witness :
  wf 3 [7; 8; 9]%Z /\
  op_assign_std_vector 3 [7; 8; 9]%Z [1; 2; 3; 4]%Z = Ok [1; 2; 3]%Z /\
  op_assign_std_vector 3 [7; 8; 9]%Z [1; 2]%Z = OutOfBounds.
Proof.
  split; [reflexivity|]. split.
  - apply (proj1 (op_assign_std_vector_unchecked 3 [7; 8; 9]%Z
                    [1; 2; 3; 4]%Z eq_refl)).
    simpl. lia.
  - apply (proj2 (op_assign_std_vector_unchecked 3 [7; 8; 9]%Z
                    [1; 2]%Z eq_refl)).
    simpl. lia.
Defined.

(** A witness of [Vector_fill_replicate]: a [Vector<long,3>] filled
    with 5. *)
Lemma Vector_fill_replicate_witness :
  Vector_fill 3 [7; 8; 9]%Z 5%Z = Ok [5; 5; 5]%Z /\
  op_assign_fill 3 [1; 2; 3]%Z 5%Z = Ok [5; 5; 5]%Z.
Proof.
  exact (Vector_fill_replicate 3 [7; 8; 9]%Z [1; 2; 3]%Z 5%Z
           eq_refl eq_refl).
Defined.

(** A witness of [Vector_copy_equal]: [Vector<long,3>] with the integer
    [!=]. *)
Lemma Vector_copy_equal_witness :
  let ne := fun x y => negb (Z.eqb x y) in
  op_assign 3 [7; 8; 9]%Z [1; 2; 3]%Z = Ok [1; 2; 3]%Z /\
  op_eq ne 3 [1; 2; 3]%Z [1; 2; 3]%Z = Ok true.
Proof.
  intros ne.
  destruct (Vector_copy_equal 3 ne) with
    (junk := [0; 0; 0]%Z) (v := [7; 8; 9]%Z) (other := [1; 2; 3]%Z)
    as (_ & _ & Ha & He & _); try reflexivity.
  - intros x. unfold ne. now rewrite Z.eqb_refl.
  - split; assumption.
Defined.

(** A witness of [op_scalar_elementwise]: [Vector<long,3>] and the
    integer operators. *)
Lemma op_scalar_elementwise_witness :
  op_mul_scalar 3 Z.mul [0; 0; 0]%Z [1; 2; 3]%Z 2%Z = Ok [2; 4; 6]%Z /\
  op_add_scalar 3 Z.add [0; 0; 0]%Z [1; 2; 3]%Z 2%Z = Ok [3; 4; 5]%Z /\
  op_sub_scalar 3 Z.sub [0; 0; 0]%Z [1; 2; 3]%Z 2%Z = Ok [-1; 0; 1]%Z.
Proof.
  exact (op_scalar_elementwise 3 Z.mul Z.add Z.sub [0; 0; 0]%Z
           [1; 2; 3]%Z 2%Z eq_refl eq_refl).
Defined.

(** A witness of [op_assign_scalar_elementwise]. *)
Lemma op_assign_scalar_elementwise_witness :
  op_mul_assign 3 Z.mul [1; 2; 3]%Z 2%Z = Ok [2; 4; 6]%Z /\
  op_mul_assign 3 Z.mul [1; 2; 3]%Z 2%Z
  = op_mul_scalar 3 Z.mul [0; 0; 0]%Z [1; 2; 3]%Z 2%Z.
Proof.
  destruct (op_assign_scalar_elementwise 3 Z.mul Z.add Z.mul Z.add
              [0; 0; 0]%Z [1; 2; 3]%Z 2%Z eq_refl eq_refl)
    as (Hm & _ & Hagree & _).
  split; [exact Hm|]. apply Hagree. reflexivity.
Defined.

(** A witness of [op_vector_elementwise]. *)
Lemma op_vector_elementwise_witness :
  op_mul 3 Z.mul [0; 0; 0]%Z [1; 2; 3]%Z [4; 5; 6]%Z = Ok [4; 10; 18]%Z /\
  op_add 3 Z.add [0; 0; 0]%Z [1; 2; 3]%Z [4; 5; 6]%Z = Ok [5; 7; 9]%Z /\
  op_sub 3 Z.sub [0; 0; 0]%Z [1; 2; 3]%Z [4; 5; 6]%Z = Ok [-3; -3; -3]%Z.
Proof.
  exact (op_vector_elementwise 3 Z.mul Z.add Z.sub [0; 0; 0]%Z
           [1; 2; 3]%Z [4; 5; 6]%Z eq_refl eq_refl eq_refl).
Defined.

(** A witness of [op_shl_format]: a [Vector<std::string,3>] written to a
    stream with the pending width 4, and to the stream with no pending
    width that this leaves. *)
Lemma op_shl_format_witness :
  let s := mkOstream "v =" 4 Ascii.Space false false in
  let a := ["a"; "b"; "c"]%string in
  op_shl 3 put_chars s a
  = Ok (mkOstream "v =   [a,b,c]" 0 Ascii.Space false false) /\
  op_shl 3 put_chars (mkOstream "v =   [a,b,c]" 0 Ascii.Space false false) a
  = Ok (mkOstream "v =   [a,b,c][a,b,c]" 0 Ascii.Space false false).
Proof.
  intros s a.
  assert (Hgood : forall (x : string) s0,
    failed s0 = false -> width s0 = 0 ->
    put_chars x s0 = mkOstream (String.append (chars s0) x) 0
                               (fill s0) (adjust_left s0) false).
  { intros x s0 Hf Hw. unfold put_chars, field. rewrite Hf, Hw. simpl.
    destruct (adjust_left s0); simpl; [|reflexivity].
    f_equal. f_equal. induction x as [|c x IH]; simpl; [reflexivity|].
    now rewrite IH. }
  assert (Hfailed : forall (x : string) s0,
    failed s0 = true -> put_chars x s0 = s0).
  { intros x s0 Hf. unfold put_chars. now rewrite Hf. }
  split.
  - apply (proj1 (proj2 (op_shl_format 3 put_chars (fun x => x)
                           Hgood Hfailed s a eq_refl))).
    reflexivity.
  - apply (proj2 (proj2 (op_shl_format 3 put_chars (fun x => x)
                           Hgood Hfailed
                           (mkOstream "v =   [a,b,c]" 0 Ascii.Space
                                      false false) a eq_refl)));
      reflexivity.
Defined.

(** A witness of [Vector_lt_transitive]: [Vector<long,3>] at
    [(1,2,3) < (1,3,0) < (2,0,0)]. *)
Lemma Vector_lt_transitive_witness :
  op_lt Z.ltb Z.gtb Z.eqb 3 [1; 2; 3]%Z [2; 0; 0]%Z = Ok true.
Proof.
  apply (Vector_lt_transitive Z.ltb Z.gtb Z.eqb 3) with (b := [1; 3; 0]%Z);
    try reflexivity.
  - intros x. apply Z.ltb_irrefl.
  - intros x y z Hxy Hyz. apply Z.ltb_lt in Hxy, Hyz. apply Z.ltb_lt. lia.
  - intros x y H1 H2. apply Z.ltb_ge in H1, H2. lia.
  - intros x y. apply Z.gtb_ltb.
  - intros x y. apply Z.eqb_eq.
Defined.

(** A witness of [Vector_lt_trichotomy]: [Vector<long,3>] at [(1,2,3)]
    and [(1,3,0)]. *)
Lemma Vector_lt_trichotomy_witness :
  let ne := fun x y => negb (Z.eqb x y) in
  exists l e g,
    op_lt Z.ltb Z.gtb Z.eqb 3 [1; 2; 3]%Z [1; 3; 0]%Z = Ok l /\
    op_eq ne 3 [1; 2; 3]%Z [1; 3; 0]%Z = Ok e /\
    op_lt Z.ltb Z.gtb Z.eqb 3 [1; 3; 0]%Z [1; 2; 3]%Z = Ok g /\
    op_ne ne 3 [1; 2; 3]%Z [1; 3; 0]%Z = Ok (negb e) /\
    ((l = true /\ e = false /\ g = false) \/
     (l = false /\ e = true /\ g = false) \/
     (l = false /\ e = false /\ g = true)).
Proof.
  intros ne.
  apply (Vector_lt_trichotomy Z.ltb Z.gtb Z.eqb ne 3); try reflexivity.
  - intros x. apply Z.ltb_irrefl.
  - intros x y z Hxy Hyz. apply Z.ltb_lt in Hxy, Hyz. apply Z.ltb_lt. lia.
  - intros x y H1 H2. apply Z.ltb_ge in H1, H2. lia.
  - intros x y. apply Z.gtb_ltb.
  - intros x y. apply Z.eqb_eq.
  - lia.
Defined.

(** A witness of [VectorFactory_elements]: [VectorFactory(1, 2, 3)]. *)
Lemma VectorFactory_elements_witness :
  VectorFactory3 [7; 8; 9]%Z 1%Z 2%Z 3%Z = Ok [1; 2; 3]%Z.
Proof.
  apply (VectorFactory_elements 1%Z 2%Z 3%Z 4%Z 5%Z 6%Z). reflexivity.
Defined.

(** A witness of [Stack_is_bounded_sequence]: a [Stack<long,2>] after one
    [push]. *)
Lemma Stack_is_bounded_sequence_witness :
  let s := mkStack [7; 0]%Z 1 in
  reachable 2 s /\ contents s = [7]%Z /\
  (exists s', push 2 8%Z s = Ok s' /\ contents s' = [7; 8]%Z) /\
  (exists s', pop s = Ok (7%Z, s') /\ contents s' = []).
Proof.
  intros s.
  assert (Hr : reachable 2 s).
  { apply (reach_push 2 (Stack_new [0; 0]%Z) 7%Z).
    - apply reach_new. reflexivity.
    - reflexivity. }
  destruct (Stack_is_bounded_sequence 2 s Hr) as (_ & _ & Hpush & _ & Hpop & _).
  split; [exact Hr|]. split; [reflexivity|]. split.
  - apply (Hpush 8%Z). simpl. lia.
  - apply (Hpop [] 7%Z). reflexivity.
Defined.

(** A witness of [Stack_lifo]: three values pushed onto a new
    [Stack<long,4>]. *)
Lemma Stack_lifo_witness :
  let s := Stack_new [0; 0; 0; 0]%Z in
  exists s1 s2,
    push_all 4 [1; 2; 3]%Z s = Ok s1 /\ size s1 = 3 /\
    pop_n 3 s1 = Ok ([3; 2; 1]%Z, s2) /\
    size s2 = 0 /\ contents s2 = [].
Proof.
  intros s.
  apply (Stack_lifo 4 s [1; 2; 3]%Z).
  - apply reach_new. reflexivity.
  - simpl. lia.
Defined.

End WorldArrayFacts.

(* --------------------------------------------------------------------- *)
(** ** The binary file archive                                            *)
(* --------------------------------------------------------------------- *)

Module BinFsArFacts.
Import BinFsAr.

Lemma byte_eqb_refl (c : byte) : Byte.eqb c c = true.
Proof. now apply byte_dec_lb. Qed.

Lemma byte_eqb_neq (c d : byte) : c <> d -> Byte.eqb c d = false.
Proof.
  intros Hne. destruct (Byte.eqb c d) eqn:E; [|reflexivity].
  now apply byte_dec_bl in E.
Qed.

Lemma byte_diff_nonzero (c d : byte) :
  c <> d -> (Z.of_N (Byte.to_N c) - Z.of_N (Byte.to_N d) <> 0)%Z.
Proof.
  intros Hne Hz. apply Hne.
  assert (E : Byte.to_N c = Byte.to_N d) by lia.
  pose proof (Byte.of_to_N c) as Hc. pose proof (Byte.of_to_N d) as Hd.
  rewrite E in Hc. congruence.
Qed.

(** [strlen] of a literal whose characters hold no terminator. *)
Lemma strlen_c_str (chars : list byte) :
  NUL ∉ chars -> strlen (c_str chars) = Ok (length chars).
Proof.
  induction chars as [|c cs IH]; intros Hnul; simpl; [reflexivity|].
  rewrite byte_eqb_neq by (intros ->; apply Hnul; left).
  unfold c_str in IH. rewrite IH; [reflexivity|].
  intros Hin. apply Hnul. now right.
Qed.

(** A buffer that starts with the literal compares equal to it. *)
Lemma strncmp_same (chars more : list byte) :
  strncmp (c_str chars ++ more) (c_str chars) (length chars + 1) = Ok 0%Z.
Proof.
  induction chars as [|c cs IH]; simpl.
  - reflexivity.
  - rewrite byte_eqb_refl. destruct (Byte.eqb c NUL); [reflexivity|].
    exact IH.
Qed.

(** A buffer whose first [strlen+1] bytes are not the literal compares
    different from it. *)
Lemma strncmp_differs (chars : list byte) : forall buf : list byte,
  NUL ∉ chars ->
  length chars + 1 <= length buf ->
  take (length chars + 1) buf <> c_str chars ->
  exists z, strncmp buf (c_str chars) (length chars + 1) = Ok z /\ z <> 0%Z.
Proof.
  unfold NUL.
  induction chars as [|c cs IH]; intros [|b buf] Hnul Hlen Hne;
    simpl in Hlen; try lia.
  - simpl in *. unfold NUL. destruct (Byte.eqb b x00) eqn:E.
    + apply byte_dec_bl in E. subst b. exfalso. apply Hne.
      now rewrite take_0.
    + eexists. split; [reflexivity|].
      refine (byte_diff_nonzero b x00 _).
      intros ->. now rewrite byte_eqb_refl in E.
  - simpl in *. destruct (Byte.eqb b c) eqn:E.
    + apply byte_dec_bl in E. subst b. unfold NUL.
      rewrite byte_eqb_neq by (intros ->; apply Hnul; left).
      apply IH; [|lia|].
      * intros Hin. apply Hnul. now right.
      * intros Heq. apply Hne. unfold c_str in Heq. now rewrite Heq.
    + eexists. split; [reflexivity|].
      apply byte_diff_nonzero. intros ->. now rewrite byte_eqb_refl in E.
Qed.

Section ArchiveFacts.
Variable ARCHIVE_COOKIE : list byte.
Hypothesis cookie_chars : NUL ∉ ARCHIVE_COOKIE.
Hypothesis cookie_fits : length ARCHIVE_COOKIE + 1 <= 255.

(** [open] of the output archive leaves the cookie and its terminator as
    the first bytes written. *)
Lemma open_out_writes_cookie :
  open_out ARCHIVE_COOKIE = Ok (mkOfstream [] (c_str ARCHIVE_COOKIE)).
Proof using cookie_chars.
  clear cookie_fits. unfold open_out, store. rewrite strlen_c_str by assumption. simpl.
  assert (Hl : length (c_str ARCHIVE_COOKIE) = length ARCHIVE_COOKIE + 1).
  { unfold c_str. rewrite length_app. reflexivity. }
  rewrite Nat.mul_1_r.
  destruct (decide _) as [_|Hn]; [|lia].
  unfold ofstream_write, ofstream_open. simpl.
  rewrite take_ge by lia. reflexivity.
Qed.

(** Round trip: whatever is stored after [open], the file the output
    archive leaves behind at [close] is accepted by the input archive,
    whatever the stack held. *)
Lemma open_out_open_in (stack data : list byte) :
  length stack = 255 ->
  exists os, open_out ARCHIVE_COOKIE = Ok os /\
    open_in ARCHIVE_COOKIE stack (Some (close (ofstream_write data os)))
    = Ok (mkIfstream data false).
Proof using cookie_chars cookie_fits.
  intros Hs. eexists. split; [apply open_out_writes_cookie|].
  unfold close, flush, ofstream_write. simpl.
  unfold open_in, load. rewrite strlen_c_str by assumption. simpl.
  rewrite Nat.mul_1_r, firstn_all2 by lia.
  destruct (decide _) as [_|Hn]; [|lia].
  assert (Hl : length (c_str ARCHIVE_COOKIE) = length ARCHIVE_COOKIE + 1).
  { unfold c_str. rewrite length_app. reflexivity. }
  unfold ifstream_read. simpl.
  rewrite <- Hl, take_app_length, drop_app_length, Nat.eqb_refl.
  rewrite Hl at 2. rewrite strncmp_same. reflexivity.
Qed.

(** Rejection: a file that holds at least [strlen+1] bytes, the first
    [strlen+1] of them not the cookie and its terminator, makes [open]
    throw, whatever the stack held. *)
Lemma open_in_rejects (stack file : list byte) :
  length stack = 255 ->
  length ARCHIVE_COOKIE + 1 <= length file ->
  take (length ARCHIVE_COOKIE + 1) file <> c_str ARCHIVE_COOKIE ->
  open_in ARCHIVE_COOKIE stack (Some file)
  = Thrown "BinaryFstreamInputArchive: open: not an archive?".
Proof using cookie_chars cookie_fits.
  intros Hs Hlen Hne.
  unfold open_in, load. rewrite strlen_c_str by assumption. simpl.
  rewrite Nat.mul_1_r, firstn_all2 by lia.
  destruct (decide _) as [_|Hn]; [|lia].
  unfold ifstream_read. simpl.
  destruct (strncmp_differs ARCHIVE_COOKIE
              (take (length ARCHIVE_COOKIE + 1) file ++
               drop (length (take (length ARCHIVE_COOKIE + 1) file)) stack))
    as (z & Hz & Hnz); [assumption| | |].
  - rewrite length_app, length_take. lia.
  - rewrite take_app_le by (rewrite length_take; lia).
    rewrite take_take, Nat.min_id. exact Hne.
  - rewrite Hz. simpl. destruct (z =? 0)%Z eqn:E; [lia|reflexivity].
Qed.
(** What is stored behind the cookie is what is loaded behind it: [n]
    objects of [sizeofT] bytes, stored from [data] and loaded into a buffer
    of the same size. *)
Lemma store_load_round_trip (stack data buf : list byte) (sizeofT n : nat) :
  length stack = 255 ->
  length data = n * sizeofT -> length buf = n * sizeofT ->
  exists os os' is_,
    open_out ARCHIVE_COOKIE = Ok os /\
    store sizeofT data n os = Ok os' /\
    open_in ARCHIVE_COOKIE stack (Some (close os')) = Ok is_ /\
    load sizeofT buf n is_ = Ok (data, mkIfstream [] false).
Proof using cookie_chars cookie_fits.
  intros Hs Hd Hb.
  destruct (open_out_open_in stack data Hs) as (os & Hos & Hin).
  exists os, (ofstream_write data os), (mkIfstream data false).
  split; [exact Hos|]. split; [|split; [exact Hin|]].
  - unfold store. destruct (decide _) as [_|Hn]; [|lia].
    now rewrite take_ge by lia.
  - unfold load. destruct (decide _) as [_|Hn]; [|lia].
    unfold ifstream_read. simpl.
    rewrite take_ge, drop_ge, drop_ge, app_nil_r by lia.
    now rewrite Hd, Nat.eqb_refl.
Qed.
(** A file without a byte, or one that cannot be opened, is accepted when
    the stack holds the cookie where the local buffer comes to lie:
    nothing is read, and the comparison sees the stale bytes. *)
Lemma open_in_stale_cookie (pad : list byte) (file : option (list byte)) :
  length (c_str ARCHIVE_COOKIE ++ pad) = 255 ->
  file = None \/ file = Some [] ->
  open_in ARCHIVE_COOKIE (c_str ARCHIVE_COOKIE ++ pad) file
  = Ok (mkIfstream [] true).
Proof using cookie_chars cookie_fits.
  intros Hs Hfile. unfold open_in, load.
  rewrite strlen_c_str by assumption. cbn [obind].
  rewrite Nat.mul_1_r, firstn_all2 by lia.
  destruct (decide _) as [_|Hn]; [|lia]. cbn [obind fst snd].
  destruct Hfile as [-> | ->]; unfold ifstream_read; simpl;
    rewrite ?take_nil, ?drop_nil; simpl.
  - now rewrite strncmp_same.
  - rewrite drop_0, strncmp_same. simpl. now rewrite Nat.add_1_r.
Qed.
End ArchiveFacts.

(** C8, at the input it fails on: the file is empty (or cannot be opened)
    and the 255 bytes of the uninitialised local [cookie] hold the cookie,
    as a preceding successful [open] leaves them on the stack. [read]
    copies nothing, [strncmp] compares the stale bytes, and [open] returns
    with a failed stream instead of throwing. The cookie is "archive"
    here; [open_in_stale_cookie] is the same fact for every cookie. *)
Theorem open_in_short_file_not_rejected :
  let stack := c_str archive ++ repeat x00 247 in
  length stack = 255 /\
  take (length archive + 1) [] <> c_str archive /\
  open_in archive stack (Some []) = Ok (mkIfstream [] true) /\
  open_in archive stack None = Ok (mkIfstream [] true).
Proof.
  intros stack. split; [reflexivity|]. split; [discriminate|].
  split; vm_compute; reflexivity.
Qed.

(** *** Sequences of [store] and [load] calls *)

Lemma store_exact (it : nat * nat * list byte) os :
  it.1.2 * it.1.1 <= length it.2 ->
  store it.1.1 it.2 it.1.2 os = Ok (ofstream_write (item_bytes it) os).
Proof.
  intros Hfit. unfold store. destruct (decide _) as [_|Hn]; [|lia].
  reflexivity.
Qed.

Lemma store_all_writes (items : list (nat * nat * list byte)) :
  Forall (fun it => it.1.2 * it.1.1 <= length it.2) items ->
  forall os,
  store_all items os
  = Ok (mkOfstream (disk os) (pending os ++ concat (map item_bytes items))).
Proof.
  induction 1 as [|it items Hit _ IH]; intros os; simpl.
  - rewrite app_nil_r. now destruct os.
  - rewrite store_exact by assumption. simpl. rewrite IH. simpl.
    now rewrite <- app_assoc.
Qed.

(** X14: output is ordered. A sequence of [store] calls that stay
    within their objects never fails, and once the stream is flushed or
    closed the file holds what the stream had been given before, followed
    by the bytes of the calls in the order of the calls. A [flush] before
    [close], or a second [flush], changes nothing in the file. *)
Theorem store_all_in_order (items : list (nat * nat * list byte))
    (os : ofstream) :
  Forall (fun it => it.1.2 * it.1.1 <= length it.2) items ->
  exists os',
    store_all items os = Ok os' /\
    close os' = disk os ++ pending os ++ concat (map item_bytes items) /\
    disk (flush os') = close os' /\
    close (flush os') = close os' /\
    flush (flush os') = flush os'.
Proof.
  intros Hfit. eexists. split; [now apply store_all_writes|].
  unfold close, flush. simpl. rewrite !app_nil_r. repeat split.
Qed.

Section ArchiveSeqFacts.
Variable ARCHIVE_COOKIE : list byte.
Hypothesis cookie_chars : NUL ∉ ARCHIVE_COOKIE.
Hypothesis cookie_fits : length ARCHIVE_COOKIE + 1 <= 255.

Lemma load_all_exact (items bufs : list (nat * nat * list byte)) :
  Forall exact_size items -> Forall2 same_shape items bufs ->
  forall more,
  load_all bufs (mkIfstream (concat (map item_bytes items) ++ more) false)
  = Ok (map snd items, mkIfstream more false).
Proof.
  clear cookie_chars cookie_fits.
  intros Hex Hsh. induction Hsh as [|it b items bufs [Hb1 Hb2] _ IH];
    intros more; [reflexivity|].
  inversion Hex as [|? ? Hit Hex']; subst.
  unfold exact_size in Hit, Hb2. simpl.
  unfold load. destruct (decide _) as [_|Hn]; [|lia]. simpl.
  unfold ifstream_read. simpl.
  assert (Hib : item_bytes it = it.2).
  { unfold item_bytes. now rewrite take_ge by lia. }
  rewrite Hib, <- app_assoc.
  assert (Hcount : b.1.2 * b.1.1 = length it.2) by (rewrite Hb1; lia).
  rewrite Hcount, take_app_length, drop_app_length.
  rewrite Nat.eqb_refl. simpl.
  rewrite drop_ge, app_nil_r by lia.
  rewrite (IH Hex' more). reflexivity.
Qed.

(** X15: round trip of an archive. Objects stored one after the other
    behind [open], in a file that is then closed, are what as many [load]
    calls of the same sizes return behind [open] of the input archive, in
    the same order and whatever the buffers and the stack held; the
    stream has not failed and has no byte left. *)
Theorem archive_round_trip (stack : list byte)
    (items bufs : list (nat * nat * list byte)) :
  length stack = 255 ->
  Forall exact_size items -> Forall2 same_shape items bufs ->
  exists os os' is_,
    open_out ARCHIVE_COOKIE = Ok os /\
    store_all items os = Ok os' /\
    open_in ARCHIVE_COOKIE stack (Some (close os')) = Ok is_ /\
    load_all bufs is_ = Ok (map snd items, mkIfstream [] false).
Proof using cookie_chars cookie_fits.
  intros Hs Hex Hsh.
  set (data := concat (map item_bytes items)).
  destruct (open_out_open_in ARCHIVE_COOKIE cookie_chars cookie_fits
              stack data Hs) as (os & Hos & Hin).
  assert (Hst : store_all items os
                = Ok (mkOfstream (disk os) (pending os ++ data))).
  { apply store_all_writes. eapply Forall_impl; [exact Hex|].
    unfold exact_size. intros it Hit. lia. }
  exists os, (mkOfstream (disk os) (pending os ++ data)),
         (mkIfstream data false).
  split; [exact Hos|]. split; [exact Hst|]. split.
  - unfold close, flush, ofstream_write in *. simpl in *. exact Hin.
  - rewrite <- (app_nil_r data). now apply load_all_exact.
Qed.

(** X16: [open] of the input archive on a file of at least
    [strlen(ARCHIVE_COOKIE)+1] bytes. Whatever the local buffer held, the
    file is accepted when it starts with the cookie and its terminator,
    and the stream then stands behind them; every other such file makes
    [open] throw. *)
Theorem open_in_long_file (stack file : list byte) :
  length stack = 255 ->
  length ARCHIVE_COOKIE + 1 <= length file ->
  (take (length ARCHIVE_COOKIE + 1) file = c_str ARCHIVE_COOKIE ->
   open_in ARCHIVE_COOKIE stack (Some file)
   = Ok (mkIfstream (drop (length ARCHIVE_COOKIE + 1) file) false)) /\
  (take (length ARCHIVE_COOKIE + 1) file <> c_str ARCHIVE_COOKIE ->
   open_in ARCHIVE_COOKIE stack (Some file)
   = Thrown "BinaryFstreamInputArchive: open: not an archive?").
Proof using cookie_chars cookie_fits.
  intros Hs Hlen. split; intros Hhead.
  - destruct (open_out_open_in ARCHIVE_COOKIE cookie_chars cookie_fits stack
                (drop (length ARCHIVE_COOKIE + 1) file) Hs)
      as (os & Hos & Hin).
    rewrite (open_out_writes_cookie ARCHIVE_COOKIE cookie_chars) in Hos.
    injection Hos as <-.
    unfold close, flush, ofstream_write in Hin. simpl in Hin.
    now rewrite <- Hhead, take_drop in Hin.
  - now apply open_in_rejects.
Qed.
End ArchiveSeqFacts.

(** X17: a short read is silent and final. When the file holds fewer
    bytes than a [load] asks for, the call returns as any other: the bytes
    that were there are at the front of the buffer, the rest of the buffer
    is as it was, and the stream has failed; every later [load] returns
    too and leaves its buffer untouched. *)
Theorem load_short_read (sizeofT n : nat) (buf : list byte) (is_ : ifstream) :
  failbit is_ = false ->
  length (rest is_) < n * sizeofT -> n * sizeofT <= length buf ->
  exists is',
    load sizeofT buf n is_
    = Ok (rest is_ ++ drop (length (rest is_)) buf, is') /\
    failbit is' = true /\
    forall sizeofT' n' buf', n' * sizeofT' <= length buf' ->
      load sizeofT' buf' n' is' = Ok (buf', is').
Proof.
  intros Hf Hshort Hbuf.
  exists (mkIfstream [] true). unfold load.
  destruct (decide _) as [_|Hn]; [|lia].
  unfold ifstream_read. rewrite Hf.
  rewrite take_ge, (drop_ge (rest is_)) by lia.
  destruct (Nat.eqb_spec (length (rest is_)) (n * sizeofT)) as [Heq|_]; [lia|].
  simpl. repeat split.
  intros sizeofT' n' buf' Hfit.
  destruct (decide _) as [_|Hn]; [|lia]. reflexivity.
Qed.

Lemma archive_chars : NUL ∉ archive.
Proof.
  unfold archive, NUL. simpl. intros H.
  repeat (apply elem_of_cons in H as [H|H]; [discriminate H|]).
  now apply elem_of_nil in H.
Qed.

(** A witness of [store_all_in_order]: two [store] calls on a stream
    that had been given one byte. *)
Lemma store_all_in_order_witness :
  let os := mkOfstream [] [x61] in
  let items := [(1, 2, [x62; x63]); (2, 1, [x64; x65; x66])] in
  exists os',
    store_all items os = Ok os' /\
    close os' = [x61; x62; x63; x64; x65] /\
    close (flush os') = [x61; x62; x63; x64; x65].
Proof.
  intros os items.
  destruct (store_all_in_order items os)
    as (os' & Hs & Hc & _ & Hf & _).
  - repeat constructor.
  - exists os'. split; [exact Hs|]. split; [exact Hc|].
    rewrite Hf. exact Hc.
Defined.

(** A witness of [archive_round_trip]: the cookie "archive", a [char[2]]
    and a two-byte object, stored and loaded. *)
Lemma archive_round_trip_witness :
  let stack := repeat xff 255 in
  let items := [(1, 2, [x62; x63]); (2, 1, [x64; x65])] in
  let bufs := [(1, 2, [x00; x00]); (2, 1, [xff; xff])] in
  exists os os' is_,
    open_out archive = Ok os /\
    store_all items os = Ok os' /\
    open_in archive stack (Some (close os')) = Ok is_ /\
    load_all bufs is_ = Ok ([[x62; x63]; [x64; x65]], mkIfstream [] false).
Proof.
  intros stack items bufs.
  apply (archive_round_trip archive archive_chars); try reflexivity.
  - simpl. lia.
  - repeat constructor.
  - repeat constructor.
Defined.

(** A witness of [open_in_long_file]: the cookie "archive", a file that
    starts with it and one that does not. *)
Lemma open_in_long_file_witness :
  let stack := repeat xff 255 in
  open_in archive stack (Some (c_str archive ++ [x62]))
  = Ok (mkIfstream [x62] false) /\
  open_in archive stack (Some (repeat x62 9))
  = Thrown "BinaryFstreamInputArchive: open: not an archive?".
Proof.
  intros stack. split.
  - apply (proj1 (open_in_long_file archive archive_chars ltac:(simpl; lia)
                    stack (c_str archive ++ [x62]) eq_refl
                    ltac:(simpl; lia))).
    reflexivity.
  - apply (proj2 (open_in_long_file archive archive_chars ltac:(simpl; lia)
                    stack (repeat x62 9) eq_refl ltac:(simpl; lia))).
    discriminate.
Defined.

(** A witness of [load_short_read]: four bytes asked of a stream that
    holds one. *)
Lemma load_short_read_witness :
  let is_ := mkIfstream [x61] false in
  exists is',
    load 1 [x00; x01; x02; x03] 4 is_ = Ok ([x61; x01; x02; x03], is') /\
    failbit is' = true /\
    load 1 [x00; x01] 2 is' = Ok ([x00; x01], is').
Proof.
  intros is_.
  destruct (load_short_read 1 4 [x00; x01; x02; x03] is_)
    as (is' & Hl & Hf & Hlater); try reflexivity; try (simpl; lia).
  exists is'. split; [exact Hl|]. split; [exact Hf|].
  apply Hlater. simpl. lia.
Defined.

End BinFsArFacts.

(* --------------------------------------------------------------------- *)
(** ** The macro-task front end                                           *)
(* --------------------------------------------------------------------- *)

Module MacroTaskFacts.
Import MacroTask.

(** *** The partitioner *)

Lemma chunks_cover (fuel : nat) : forall begin L g,
  0 < g -> begin <= L -> L - begin <= fuel ->
  flat_map (indices L) (chunks fuel begin L g) = seq begin (L - begin).
Proof.
  induction fuel as [|fuel IH]; intros begin L g Hg Hb Hf; simpl.
  - replace (L - begin) with 0 by lia. reflexivity.
  - destruct (decide (L <= begin + g)) as [Hle|Hgt]; simpl.
    + now rewrite app_nil_r.
    + rewrite IH by lia.
      replace (begin + g - begin) with g by lia.
      replace (L - begin) with (g + (L - (begin + g))) by lia.
      now rewrite seq_app.
Qed.

(** Every chunk is a slice that starts at or behind [begin]. *)
Lemma chunks_slices (fuel : nat) : forall begin L g r,
  begin <= L -> r ∈ chunks fuel begin L g ->
  exists b e, r = Slice b e /\ begin <= b /\ b <= e /\ e <= L.
Proof.
  induction fuel as [|fuel IH]; intros begin L g r Hb Hin; simpl in Hin.
  - apply list_elem_of_singleton in Hin. subst r.
    exists begin, L. repeat split; lia.
  - destruct (decide (L <= begin + g)) as [Hle|Hgt].
    + apply list_elem_of_singleton in Hin. subst r.
      exists begin, L. repeat split; lia.
    + apply elem_of_cons in Hin as [->|Hin].
      * exists begin, (begin + g). repeat split; lia.
      * destruct (IH (begin + g) L g r ltac:(lia) Hin)
          as (b & e & -> & H1 & H2 & H3).
        exists b, e. repeat split; lia.
Qed.

Lemma chunks_disjoint (fuel : nat) : forall begin L g i j r1 r2,
  begin <= L -> i < j ->
  chunks fuel begin L g !! i = Some r1 ->
  chunks fuel begin L g !! j = Some r2 ->
  ranges_disjoint r1 r2.
Proof.
  induction fuel as [|fuel IH]; intros begin L g i j r1 r2 Hb Hij H1 H2;
    simpl in H1, H2.
  - destruct j as [|j]; [lia|]. discriminate H2.
  - destruct (decide (L <= begin + g)) as [Hle|Hgt].
    + destruct j as [|j]; [lia|]. discriminate H2.
    + destruct j as [|j]; [lia|]. simpl in H2.
      destruct i as [|i]; simpl in H1.
      * injection H1 as <-.
        apply list_elem_of_lookup_2 in H2.
        destruct (chunks_slices fuel (begin + g) L g r2 ltac:(lia) H2)
          as (b & e & -> & Hb1 & Hb2 & Hb3).
        simpl. lia.
      * apply (IH (begin + g) L g i j); try assumption; lia.
Qed.

Lemma do_1d_partition_cover (L g : nat) :
  0 < g -> flat_map (indices L) (do_1d_partition L g) = seq 0 L.
Proof.
  intros Hg. unfold do_1d_partition.
  rewrite chunks_cover by lia. now rewrite Nat.sub_0_r.
Qed.

Lemma batches_1d_result (L g : nat) :
  map result (batches_1d L g) = do_1d_partition L g.
Proof.
  unfold batches_1d. rewrite <- list_fmap_compose. apply list_fmap_id.
Qed.

(** C7: for a granularity of at least one index, the output ranges of the
    batches of a 1-D partition of a collection of length [L], laid end to
    end, are exactly the indices [0 .. L-1] in order (so their union is
    [[0, L)]), no index lies in two of them, and any two of the ranges are
    disjoint; a collection of length 20 with granularity 5 gives the four
    batches [[0,5)], [[5,10)], [[10,15)], [[15,20)]. *)
Theorem partition_covers (L g : nat) :
  0 < g ->
  let ranges := map result (batches_1d L g) in
  flat_map (indices L) ranges = seq 0 L /\
  (forall i, i ∈ flat_map (indices L) ranges <-> i < L) /\
  NoDup (flat_map (indices L) ranges) /\
  (forall i j r1 r2, i < j ->
     ranges !! i = Some r1 -> ranges !! j = Some r2 ->
     ranges_disjoint r1 r2) /\
  map result (batches_1d 20 5)
  = [Slice 0 5; Slice 5 10; Slice 10 15; Slice 15 20].
Proof.
  intros Hg ranges.
  assert (Hr : ranges = do_1d_partition L g)
    by apply batches_1d_result.
  assert (Hc : flat_map (indices L) ranges = seq 0 L)
    by (rewrite Hr; now apply do_1d_partition_cover).
  split; [exact Hc|]. rewrite Hc.
  split; [|split; [|split]].
  - intros i. rewrite elem_of_seq. lia.
  - apply NoDup_seq.
  - rewrite Hr. intros i j r1 r2.
    apply chunks_disjoint. lia.
  - reflexivity.
Qed.

(** A witness of [partition_covers]: length 22, granularity 5; the last
    batch holds the two indices that remain. *)
Lemma partition_covers_witness :
  map result (batches_1d 22 5)
  = [Slice 0 5; Slice 5 10; Slice 10 15; Slice 15 20; Slice 20 22] /\
  flat_map (indices 22) (map result (batches_1d 22 5)) = seq 0 22.
Proof.
  split; [reflexivity|].
  exact (proj1 (partition_covers 22 5 ltac:(lia))).
Defined.

(** *** The Distributed Store *)

Section CloudFacts.
Context {F D : Type} {EqF : EqDecision F} {EqD : EqDecision D}.
Implicit Types (x p : @payload F D) (c : @Cloud F D).

(** What [store] returns in terms of the records: the id it gives is the
    first position that holds the payload, and the records only grow at the
    end. *)
Lemma store_spec p c :
  exists extra,
    records (store p c).2 = records c ++ extra /\
    list_find (fun y => y = p) (records (store p c).2)
    = Some ((store p c).1, p).
Proof.
  unfold store.
  destruct (list_find (fun y => y = p) (records c)) as [[i y]|] eqn:E; simpl.
  - exists []. rewrite app_nil_r. split; [reflexivity|].
    pose proof E as E'. apply list_find_Some in E' as (_ & -> & _). exact E.
  - exists [p]. split; [reflexivity|].
    rewrite list_find_app_r by exact E. simpl.
    destruct (decide (p = p)) as [_|Hne]; [|congruence]. reflexivity.
Qed.

(** A store that holds more records behind those of [c] answers [store]
    with the id [c] gave, and records nothing. *)
Lemma store_again p c (l : list payload) :
  store p (mkCloud ((records (store p c).2) ++ l))
  = ((store p c).1, mkCloud ((records (store p c).2) ++ l)).
Proof.
  destruct (store_spec p c) as (extra & _ & Hfind).
  unfold store at 1. simpl.
  now rewrite (list_find_app_l _ _ l _ _ Hfind).
Qed.

Lemma store_keeps_NoDup p c :
  NoDup (records c) -> NoDup (records (store p c).2).
Proof.
  intros Hnd. unfold store.
  destruct (list_find (fun y => y = p) (records c)) as [[i y]|] eqn:E; simpl.
  - exact Hnd.
  - apply NoDup_app. split; [exact Hnd|]. split; [|apply NoDup_singleton].
    intros y Hy Hin. apply list_elem_of_singleton in Hin. subst y.
    apply list_find_None in E. rewrite Forall_forall in E.
    now apply (E p).
Qed.

Lemma store_elem_of p c : p ∈ records (store p c).2.
Proof.
  destruct (store_spec p c) as (extra & _ & Hfind).
  apply list_find_Some in Hfind as (Hl & _).
  now apply list_elem_of_lookup_2 in Hl.
Qed.


(** A fresh id is given to a payload that the epoch does not hold yet. *)
Lemma store_fresh x c :
  x ∉ records c ->
  store x c = (length (records c), mkCloud (records c ++ [x])).
Proof.
  intros Hnot. unfold store.
  destruct (list_find (fun y => y = x) (records c)) as [[i y]|] eqn:E.
  - apply list_find_Some in E as (Hl & -> & _).
    apply list_elem_of_lookup_2 in Hl. contradiction.
  - reflexivity.
Qed.
(** [store] of an argument tuple, by projections. *)
Lemma store_tuple_cons (v : @value F D) args c :
  store_tuple (v :: args) c
  = ((store (PValue v) c).1 :: (store_tuple args (store (PValue v) c).2).1,
     (store_tuple args (store (PValue v) c).2).2).
Proof.
  simpl. destruct (store (PValue v) c) as [id c1]. simpl.
  now destruct (store_tuple args c1) as [ids c2].
Qed.

Lemma store_tuple_spec (args : list (@value F D)) : forall c,
  exists extra, records (store_tuple args c).2 = records c ++ extra.
Proof.
  induction args as [|v args IH]; intros c.
  - exists []. simpl. now rewrite app_nil_r.
  - rewrite store_tuple_cons. simpl.
    destruct (IH (store (PValue v) c).2) as [extra2 ->].
    destruct (store_spec (PValue v) c) as (extra1 & -> & _).
    exists (extra1 ++ extra2). now rewrite app_assoc.
Qed.

(** A store that holds the records of an argument tuple, and more behind
    them, answers [store] of the tuple with the ids it gave before, and
    records nothing. *)
Lemma store_tuple_again (args : list (@value F D)) : forall c l,
  store_tuple args (mkCloud (records (store_tuple args c).2 ++ l))
  = ((store_tuple args c).1,
     mkCloud (records (store_tuple args c).2 ++ l)).
Proof.
  induction args as [|v args IH]; intros c l; [reflexivity|].
  rewrite (store_tuple_cons v args c). cbn [fst snd].
  set (c1 := (store (PValue v) c).2).
  destruct (store_tuple_spec args c1) as [extra Hex].
  rewrite store_tuple_cons.
  assert (Hst : store (PValue v)
                  (mkCloud (records (store_tuple args c1).2 ++ l))
                = ((store (PValue v) c).1,
                   mkCloud (records (store_tuple args c1).2 ++ l))).
  { rewrite Hex, <- app_assoc. apply store_again. }
  rewrite Hst. cbn [fst snd]. now rewrite IH.
Qed.

Lemma store_tuple_NoDup (args : list (@value F D)) : forall c,
  NoDup (records c) -> NoDup (records (store_tuple args c).2).
Proof.
  induction args as [|v args IH]; intros c Hnd; [exact Hnd|].
  rewrite store_tuple_cons. cbn [snd]. apply IH.
  now apply store_keeps_NoDup.
Qed.

Lemma store_tuple_elem_of (args : list (@value F D)) : forall c v,
  v ∈ args -> PValue v ∈ records (store_tuple args c).2.
Proof.
  induction args as [|a args IH]; intros c v Hin.
  - now apply elem_of_nil in Hin.
  - rewrite store_tuple_cons. cbn [snd].
    apply elem_of_cons in Hin as [->|Hin]; [|now apply IH].
    destruct (store_tuple_spec args (store (PValue a) c).2) as [extra ->].
    apply elem_of_app. left. apply store_elem_of.
Qed.
End CloudFacts.

(** *** Immediate and deferred execution *)

Section FrontEndFacts.
Context {F D : Type} {EqF : EqDecision F} {EqD : EqDecision D}.
Variable fadd : F -> F -> F.
Variable default_priority : nat.
Variable MacroTaskPartitioner_new : MacroTaskPartitioner.
Variable partition_tasks :
  MacroTaskPartitioner -> list (@value F D) -> outcome (list Batch).

Implicit Types (t : @taskT F D) (args : list (@value F D)).
Implicit Types (st : @State F D) (Q : @MacroTaskQ F D).
Implicit Types (vtask rs : list (@MacroTaskInternal F D)).

Local Abbreviation op_call :=
  (op_call fadd default_priority MacroTaskPartitioner_new partition_tasks).
Local Abbreviation test_immediate :=
  (test_immediate fadd default_priority MacroTaskPartitioner_new
                  partition_tasks).
Local Abbreviation test_deferred :=
  (test_deferred fadd default_priority MacroTaskPartitioner_new
                 partition_tasks).

Lemma obind_Ok_r {A} (m : outcome A) : obind m Ok = m.
Proof. now destruct m. Qed.

(** [run_all] drains the queue, with or without the argument. *)
Lemma run_all_any_arg vtask vtask' Q (fs : list F) :
  run_all fadd vtask Q fs = run_all fadd vtask' Q fs.
Proof. reflexivity. Qed.

(** C1: for every task and every argument tuple, from every state, running
    the task through a [MacroTask_2G] without a queue ([test_immediate])
    and submitting it to a fresh queue that is then run ([test_deferred])
    have the same outcome: the same handle and the same state, so the
    same values behind the handle, or the same error. Equal results are
    within every tolerance of each other. *)
Theorem immediate_eq_deferred (universe : World) t args st :
  test_immediate universe t args st = test_deferred universe t args st.
Proof.
  unfold MacroTask.test_immediate, MacroTask.test_deferred, make_taskq,
    MacroTask_2G_new.
  cbn [obind queues funcs].
  rewrite list_lookup_middle by reflexivity.
  cbn [get_world MacroTaskQ_new].
  destruct (decide (id universe = id universe)) as [_|Hne]; [|congruence].
  cbn [obind].
  unfold MacroTask.op_call.
  cbn [taskq_ptr mt_task world queues funcs].
  destruct (partition_tasks _ args) as [partition| | |]; cbn [obind];
    try reflexivity.
  rewrite list_lookup_middle by reflexivity.
  destruct (store_tuple args _) as [inrec c1].
  destruct (prepare_output _ c1 args (funcs st)) as [[[outrec res] c2] fs].
  rewrite (run_all_any_arg _ []).
  set (Q1 := add_tasks _ _).
  unfold taskq_run_all. cbn [obind fst snd queues funcs].
  rewrite list_lookup_insert_eq
    by (rewrite length_app; simpl; lia).
  destruct (run_all fadd [] Q1 fs) as [ran| | |]; cbn [obind fst snd];
    try reflexivity.
  now rewrite list_insert_insert_eq.
Qed.
(** After a call that returns, the object holds a queue: a later call on
    the same object finds [taskq_ptr] set and takes the deferred path. *)
Lemma op_call_keeps_queue (self self' : MacroTask_2G) args st st' res :
  op_call self args st = Ok (res, self', st') ->
  exists q, taskq_ptr self' = Some q.
Proof.
  unfold MacroTask.op_call. intros H.
  destruct (taskq_ptr self) as [q|].
  - destruct (partition_tasks _ args); cbn [obind] in H; try discriminate.
    destruct (queues _ !! _); try discriminate.
    destruct (store_tuple args _) as [inrec c1].
    destruct (prepare_output _ c1 args _) as [[[outrec r] c2] fs].
    cbn [obind] in H. injection H as _ <- _. eauto.
  - destruct (partition_tasks _ args); cbn [obind] in H; try discriminate.
    destruct (queues _ !! _); try discriminate.
    destruct (store_tuple args _) as [inrec c1].
    destruct (prepare_output _ c1 args _) as [[[outrec r] c2] fs].
    destruct (run_all _ _ _ _); cbn [obind] in H; try discriminate.
    injection H as _ <- _. eauto.
Qed.
End FrontEndFacts.

(** A witness of [immediate_eq_deferred]: the integer [MicroTask] on [v3];
    both tests return a handle that shows [2 * 1 * v3]. *)
Lemma immediate_eq_deferred_witness :
  let imm := IntTasks.test_immediate IntTasks.universe (IntTasks.MicroTask 2)
               IntTasks.args IntTasks.st0 in
  let def := IntTasks.test_deferred IntTasks.universe (IntTasks.MicroTask 2)
               IntTasks.args IntTasks.st0 in
  imm = def /\
  match imm with
  | Ok (v, st') => read_result v (funcs st') = Some (RVector [2; 4; 6; 8; 10]%Z)
  | _ => False
  end.
Proof.
  intros imm def. split.
  - exact (immediate_eq_deferred Z.add 0 (mkPartitioner 0 1 1)
             partition_tasks_1d IntTasks.universe (IntTasks.MicroTask 2)
             IntTasks.args IntTasks.st0).
  - vm_compute. reflexivity.
Defined.

(** *** Accumulation into the output *)

Section RunFacts.
Context {F D : Type} {EqF : EqDecision F} {EqD : EqDecision D}.
Variable fadd : F -> F -> F.
Implicit Types (fs : list F) (c : @Cloud F D) (r : @MacroTaskInternal F D).
Implicit Types (impls : list nat) (tmp g : list F).
Implicit Types (rs : list (@MacroTaskInternal F D)).

Local Abbreviation step := (step fadd).
Local Abbreviation run_funcs := (run_funcs fadd).

Lemma holds_frame fs fs' impls g :
  (forall l, l ∈ impls -> fs' !! l = fs !! l) ->
  holds fs impls g -> holds fs' impls g.
Proof.
  intros Hfr Hh. unfold holds in *.
  induction Hh as [|impl y impls g Hy Hh IH]; constructor.
  - rewrite Hfr; [exact Hy | left].
  - apply IH. intros l Hl. apply Hfr. now right.
Qed.

Lemma holds_inj fs impls g g' :
  holds fs impls g -> holds fs impls g' -> g = g'.
Proof.
  unfold holds. intros H. revert g'.
  induction H as [|impl y impls g Hy Hh IH]; intros g' H'; inversion H'; subst.
  - reflexivity.
  - f_equal; [congruence | now apply IH].
Qed.

Lemma holds_exists fs impls :
  Forall (fun impl => impl < length fs) impls -> exists g, holds fs impls g.
Proof.
  induction 1 as [|impl impls Hlt _ [g Hg]].
  - exists []. constructor.
  - destruct (lookup_lt_is_Some_2 fs impl Hlt) as [y Hy].
    exists (y :: g). now constructor.
Qed.

(** [result += tmp] succeeds exactly on vectors of one size whose
    implementations exist, and keeps the size of the universe. *)
Lemma vec_add_assign_inv impls : forall tmp fs fs',
  vec_add_assign fadd impls tmp fs = Ok fs' ->
  length tmp = length impls /\ length fs' = length fs /\
  Forall (fun impl => impl < length fs) impls.
Proof.
  induction impls as [|impl impls IH]; intros [|a tmp] fs fs' H;
    simpl in H; try discriminate.
  - injection H as <-. repeat split. constructor.
  - unfold fn_add_assign in H.
    destruct (fs !! impl) as [f|] eqn:E; [|discriminate].
    cbn [obind] in H. apply IH in H as (H1 & H2 & H3).
    rewrite length_insert in H2, H3.
    repeat split; [simpl; lia | exact H2 |].
    constructor; [|exact H3]. now apply lookup_lt_Some in E.
Qed.

(** [result += tmp]: each implementation of the result holds its former
    value plus the element of [tmp] at its position; nothing else in the
    universe changes. *)
Lemma vec_add_assign_spec impls : forall tmp g fs,
  NoDup impls -> holds fs impls g -> length tmp = length impls ->
  exists fs', vec_add_assign fadd impls tmp fs = Ok fs' /\
    holds fs' impls (zip_with fadd g tmp) /\
    (forall l, l ∉ impls -> fs' !! l = fs !! l).
Proof.
  induction impls as [|impl impls IH]; intros tmp g fs Hnd Hh Hlen.
  - destruct tmp; [|discriminate]. inversion Hh; subst.
    exists fs. repeat split. constructor.
  - destruct tmp as [|a tmp]; [discriminate|].
    inversion Hh as [|? y ? g' Hy Hh']; subst.
    apply NoDup_cons in Hnd as [Hnotin Hnd].
    simpl. unfold fn_add_assign. rewrite Hy. cbn [obind].
    destruct (IH tmp g' (<[impl := fadd y a]> fs)) as (fs' & Hrun & Hv & Hfr).
    + exact Hnd.
    + apply (holds_frame fs); [|exact Hh'].
      intros l Hl. apply list_lookup_insert_ne. congruence.
    + simpl in Hlen. lia.
    + exists fs'. split; [exact Hrun|]. split.
      * simpl. constructor; [|exact Hv].
        rewrite Hfr by exact Hnotin.
        apply list_lookup_insert_eq. now apply lookup_lt_Some in Hy.
      * intros l Hl. apply not_elem_of_cons in Hl as [Hne Hl].
        rewrite Hfr by exact Hl. now apply list_lookup_insert_ne.
Qed.

(** [run] is [increment] followed by the addition. *)
Lemma run_increment r c fs :
  run fadd r c fs =
  let* i := increment r c in vec_add_assign fadd (impls_of (fst i)) (snd i) fs.
Proof.
  unfold run, increment.
  destruct (load_tuple c (inputrecords r)) as [argtuple| | |];
    cbn [obind]; try reflexivity.
  destruct (copy_input_batch _ argtuple) as [batched| | |];
    cbn [obind]; try reflexivity.
  destruct (get_output c (outputrecords r)) as [[impl|impls]| | |];
    cbn [obind]; try reflexivity.
  - destruct (call _ _ batched) as [f|v]; cbn [obind]; [|reflexivity].
    simpl. now destruct (fn_add_assign fadd impl f fs).
  - destruct (call _ _ batched) as [f|v]; cbn [obind]; [reflexivity|].
    destruct (allocator _ _ argtuple) as [f|tmp1]; cbn [obind];
      [reflexivity|].
    now destruct (insert_result_batch _ tmp1 v).
Qed.
Lemma run_records_funcs c rs : forall fs,
  run_funcs c rs fs
  = let* done := run_records fadd c rs fs in Ok (snd done).
Proof.
  induction rs as [|r rs IH]; intros fs; simpl; [reflexivity|].
  unfold step, is_waiting.
  destruct (stat r); cbn [obind].
  - destruct (run fadd r c fs) as [fs1| | |]; cbn [obind]; try reflexivity.
    rewrite IH. now destruct (run_records fadd c rs fs1).
  - rewrite IH. now destruct (run_records fadd c rs fs).
  - rewrite IH. now destruct (run_records fadd c rs fs).
  - rewrite IH. now destruct (run_records fadd c rs fs).
Qed.

(** What [result += tmp] does to a result whose implementations hold
    [g]. *)
Lemma vec_add_assign_effect impls tmp g fs fs' :
  NoDup impls -> holds fs impls g ->
  vec_add_assign fadd impls tmp fs = Ok fs' ->
  holds fs' impls (zip_with fadd g tmp) /\
  (forall l, l ∉ impls -> fs' !! l = fs !! l).
Proof.
  intros Hnd Hh Hrun.
  destruct (vec_add_assign_inv _ _ _ _ Hrun) as (Hlen & _ & _).
  destruct (vec_add_assign_spec impls tmp g fs Hnd Hh Hlen)
    as (fs'' & E & Hv & Hfr).
  rewrite Hrun in E. injection E as <-. now split.
Qed.

(** The handle in an increment is the one [get_output] finds. *)
Lemma increment_res r c res tmp :
  increment r c = Ok (res, tmp) ->
  get_output c (outputrecords r) = Ok res.
Proof.
  unfold increment.
  destruct (load_tuple c (inputrecords r)) as [argtuple| | |];
    cbn [obind]; try discriminate.
  destruct (copy_input_batch _ argtuple) as [batched| | |];
    cbn [obind]; try discriminate.
  destruct (get_output c (outputrecords r)) as [[impl|impls]| | |];
    cbn [obind]; try discriminate.
  - destruct (call _ _ batched); [|discriminate].
    intros H. now injection H as <- _.
  - destruct (call _ _ batched); [discriminate|].
    destruct (allocator _ _ argtuple); [discriminate|].
    destruct (insert_result_batch _ _ _); cbn [obind]; try discriminate.
    intros H. now injection H as <- _.
Qed.

(** Two records of one task on the same input records add the same
    fields, wherever their outputs are. *)
Lemma increment_same_tmp r1 r2 c res1 res2 tmp1 tmp2 :
  task r1 = task r2 -> inputrecords r1 = inputrecords r2 ->
  increment r1 c = Ok (res1, tmp1) -> increment r2 c = Ok (res2, tmp2) ->
  tmp1 = tmp2.
Proof.
  unfold increment. intros <- <-.
  destruct (load_tuple c (inputrecords r1)) as [argtuple| | |];
    cbn [obind]; try discriminate.
  destruct (copy_input_batch _ argtuple) as [batched| | |];
    cbn [obind]; try discriminate.
  destruct (get_output c (outputrecords r1)) as [[impl1|impls1]| | |];
    cbn [obind]; try discriminate;
  destruct (get_output c (outputrecords r2)) as [[impl2|impls2]| | |];
    cbn [obind]; try discriminate;
  destruct (call _ _ batched); try discriminate;
  try (destruct (allocator _ _ argtuple); try discriminate;
       destruct (insert_result_batch _ _ _); cbn [obind];
       try discriminate);
  intros H1 H2; injection H1 as _ <-; injection H2 as _ <-; reflexivity.
Qed.


Lemma run_funcs_app c rs1 : forall rs2 fs,
  run_funcs c (rs1 ++ rs2) fs
  = let* fs1 := run_funcs c rs1 fs in run_funcs c rs2 fs1.
Proof.
  induction rs1 as [|r rs1 IH]; intros rs2 fs; simpl; [reflexivity|].
  destruct (step c r fs) as [fs1| | |]; cbn [obind]; try reflexivity.
  apply IH.
Qed.

(** A turn of the loop changes nothing outside the output of its
    record. *)
Lemma step_frame c r h fs fs' :
  get_output c (outputrecords r) = Ok h -> NoDup (impls_of h) ->
  step c r fs = Ok fs' ->
  length fs' = length fs /\
  forall l, l ∉ impls_of h -> fs' !! l = fs !! l.
Proof.
  intros Hout Hnd. unfold step.
  destruct (is_waiting r); [|intros H; now injection H as <-].
  rewrite run_increment.
  destruct (increment r c) as [[res tmp]| | |] eqn:E; try discriminate.
  apply increment_res in E. rewrite Hout in E. injection E as <-.
  cbn [obind fst snd]. intros Hrun.
  destruct (vec_add_assign_inv _ _ _ _ Hrun) as (_ & Hlen & Hb).
  split; [exact Hlen|].
  destruct (holds_exists fs _ Hb) as [g Hg].
  now destruct (vec_add_assign_effect _ _ _ _ _ Hnd Hg Hrun).
Qed.

Lemma run_funcs_frame c h rs : forall fs fs',
  Forall (fun r => get_output c (outputrecords r) = Ok h) rs ->
  NoDup (impls_of h) ->
  run_funcs c rs fs = Ok fs' ->
  forall l, l ∉ impls_of h -> fs' !! l = fs !! l.
Proof.
  induction rs as [|r rs IH]; intros fs fs' Hall Hnd Hrun l Hl; simpl in Hrun.
  - now injection Hrun as <-.
  - apply Forall_cons in Hall as [Hr Hall].
    destruct (step c r fs) as [fs1| | |] eqn:E; try discriminate.
    cbn [obind] in Hrun.
    rewrite (IH fs1 fs' Hall Hnd Hrun l Hl).
    now apply (step_frame c r h fs fs1 Hr Hnd E).
Qed.

(** Two records of one task on the same input records, with outputs that
    hold the same values, leave outputs that hold the same values. *)
Lemma step_relocate c r1 r2 h1 h2 g fsA fsA' fsB fsB' :
  task r1 = task r2 -> inputrecords r1 = inputrecords r2 ->
  stat r1 = stat r2 ->
  get_output c (outputrecords r1) = Ok h1 ->
  get_output c (outputrecords r2) = Ok h2 ->
  NoDup (impls_of h1) -> NoDup (impls_of h2) ->
  holds fsA (impls_of h1) g -> holds fsB (impls_of h2) g ->
  step c r1 fsA = Ok fsA' -> step c r2 fsB = Ok fsB' ->
  exists g', holds fsA' (impls_of h1) g' /\ holds fsB' (impls_of h2) g'.
Proof.
  intros Ht Hi Hs Ho1 Ho2 Hn1 Hn2 HA HB.
  unfold step, is_waiting. rewrite Hs.
  destruct (stat r2);
    try (intros E1 E2; injection E1 as <-; injection E2 as <-; eauto).
  rewrite !run_increment.
  destruct (increment r1 c) as [[res1 tmp1]| | |] eqn:E1; try discriminate.
  destruct (increment r2 c) as [[res2 tmp2]| | |] eqn:E2; try discriminate.
  assert (tmp1 = tmp2) as <- by
    (exact (increment_same_tmp r1 r2 c res1 res2 tmp1 tmp2 Ht Hi E1 E2)).
  apply increment_res in E1, E2. rewrite Ho1 in E1. rewrite Ho2 in E2.
  injection E1 as <-. injection E2 as <-.
  cbn [obind fst snd]. intros R1 R2.
  exists (zip_with fadd g tmp1). split.
  - now destruct (vec_add_assign_effect _ _ _ _ _ Hn1 HA R1).
  - now destruct (vec_add_assign_effect _ _ _ _ _ Hn2 HB R2).
Qed.

Lemma run_funcs_relocate c h1 h2 rs1 rs2 :
  Forall2 (fun r1 r2 =>
             task r1 = task r2 /\ inputrecords r1 = inputrecords r2 /\
             stat r1 = stat r2 /\
             get_output c (outputrecords r1) = Ok h1 /\
             get_output c (outputrecords r2) = Ok h2) rs1 rs2 ->
  NoDup (impls_of h1) -> NoDup (impls_of h2) ->
  forall g fsA fsA' fsB fsB',
  holds fsA (impls_of h1) g -> holds fsB (impls_of h2) g ->
  run_funcs c rs1 fsA = Ok fsA' -> run_funcs c rs2 fsB = Ok fsB' ->
  exists g', holds fsA' (impls_of h1) g' /\ holds fsB' (impls_of h2) g'.
Proof.
  intros Hall Hn1 Hn2.
  induction Hall as [|r1 r2 rs1 rs2 (Ht & Hi & Hs & Ho1 & Ho2) Hall IH];
    intros g fsA fsA' fsB fsB' HA HB R1 R2; simpl in R1, R2.
  - injection R1 as <-. injection R2 as <-. eauto.
  - destruct (step c r1 fsA) as [fsA1| | |] eqn:E1; try discriminate.
    destruct (step c r2 fsB) as [fsB1| | |] eqn:E2; try discriminate.
    cbn [obind] in R1, R2.
    destruct (step_relocate c r1 r2 h1 h2 g fsA fsA1 fsB fsB1)
      as (g1 & HA1 & HB1); try assumption.
    now apply (IH g1 fsA1 fsA' fsB1 fsB').
Qed.

(** The loop changes the states of the records only. *)
Lemma run_records_inputrecords c rs : forall fs done fs',
  run_records fadd c rs fs = Ok (done, fs') ->
  map inputrecords done = map inputrecords rs.
Proof.
  induction rs as [|r rs IH]; intros fs done fs' H; simpl in H.
  - now injection H as <- _.
  - destruct (stat r).
    1: destruct (run fadd r c fs) as [fs1| | |]; try discriminate;
       cbn [obind] in H.
    all: match type of H with
         | context [run_records _ _ _ ?f] =>
             destruct (run_records fadd c rs f) as [[done' f2]| | |] eqn:E;
             try discriminate
         end;
         cbn [obind fst snd] in H; injection H as <- _; simpl;
         f_equal; eapply IH; exact E.
Qed.
End RunFacts.

(** *** The merge of a partial result (section 4.5) *)

Section MergeFacts.
Context {F D : Type} {EqF : EqDecision F} {EqD : EqDecision D}.
Variable fadd : F -> F -> F.
(** The zero field, which an allocator fills its placeholder with. *)
Variable fzero : F.
Hypothesis fadd_zero_r : forall f, fadd f fzero = f.
Implicit Types (fs : list F) (c : @Cloud F D) (r : @MacroTaskInternal F D).
Implicit Types (impls : list nat) (tmp g zeros part global : list F).

Lemma zip_with_zeros g : forall zeros,
  Forall (eq fzero) zeros -> length zeros = length g ->
  zip_with fadd g zeros = g.
Proof using fadd_zero_r.
  induction g as [|y g IH]; intros [|z zeros] Hz Hlen;
    simpl in *; try lia; [reflexivity|].
  apply Forall_cons in Hz as [<- Hz].
  rewrite fadd_zero_r. f_equal. apply IH; [exact Hz | lia].
Qed.

(** Adding a zero vector that holds [part] in the slice [[b, e)] is
    [global[slice] += part]. *)
Lemma zip_with_inserted global zeros part b e :
  Forall (eq fzero) zeros -> length zeros = length global ->
  b <= e -> e <= length global -> length part = e - b ->
  zip_with fadd global (take b zeros ++ part ++ drop e zeros)
  = merge_slice fadd global part b e.
Proof using fadd_zero_r.
  intros Hz Hlen Hbe He Hp. unfold merge_slice.
  rewrite <- (take_drop b global) at 1.
  rewrite zip_with_app by (rewrite !length_take; lia).
  rewrite zip_with_zeros
    by (try apply Forall_take; try rewrite !length_take; auto; lia).
  f_equal.
  rewrite <- (take_drop (e - b) (drop b global)) at 1.
  rewrite zip_with_app
    by (rewrite length_take, length_drop; lia).
  f_equal. rewrite drop_drop.
  replace (b + (e - b)) with e by lia.
  apply zip_with_zeros; [now apply Forall_drop|].
  rewrite !length_drop. lia.
Qed.

(** Outside the slice, [global[slice] += part] leaves [global] as it is. *)
Lemma merge_slice_outside global part b e i :
  b <= e -> e <= length global -> length part = e - b ->
  i < b \/ e <= i ->
  merge_slice fadd global part b e !! i = global !! i.
Proof.
  intros Hbe He Hp Hi. unfold merge_slice.
  destruct Hi as [Hi|Hi].
  - rewrite lookup_app_l by (rewrite length_take; lia).
    now apply lookup_take_lt.
  - rewrite lookup_app_r by (rewrite length_take; lia).
    rewrite lookup_app_r
      by (rewrite length_zip_with, !length_take, length_drop; lia).
    rewrite lookup_drop, length_zip_with, !length_take, length_drop.
    f_equal. lia.
Qed.

(** C5: [run] merges by accumulation. With the arguments loaded and
    sliced: a whole-object result [f] is added to the global output,
    [global += f]; a sliced result [part], for a batch whose result range
    is [[b, e)] and an allocator that returns zeros, is added in its slice,
    [global[b..e) += part], and the entries of the global output outside
    the slice stay as they were. Nothing else in the universe changes. *)
Theorem run_accumulates r c fs (argtuple batched : list value) :
  load_tuple c (inputrecords r) = Ok argtuple ->
  copy_input_batch (batch (task r)) argtuple = Ok batched ->
  (forall impl (f old : F),
     get_output c (outputrecords r) = Ok (HFunction impl) ->
     call (task r) (batch (task r)) batched = RFunction f ->
     fs !! impl = Some old ->
     exists fs', run fadd r c fs = Ok fs' /\
       read_result (HFunction impl) fs'
       = Some (RFunction (merge_whole fadd old f)) /\
       (forall l, l <> impl -> fs' !! l = fs !! l)) /\
  (forall impls part zeros global b e,
     get_output c (outputrecords r) = Ok (HVector impls) ->
     NoDup impls -> holds fs impls global ->
     call (task r) (batch (task r)) batched = RVector part ->
     allocator (task r) (batch (task r)) argtuple = RVector zeros ->
     Forall (eq fzero) zeros -> length zeros = length impls ->
     result (batch (task r)) = Slice b e ->
     b <= e -> e <= length impls -> length part = e - b ->
     exists fs', run fadd r c fs = Ok fs' /\
       read_result (HVector impls) fs'
       = Some (RVector (merge_slice fadd global part b e)) /\
       (forall i, i < b \/ e <= i ->
          merge_slice fadd global part b e !! i = global !! i) /\
       (forall l, l ∉ impls -> fs' !! l = fs !! l)).
Proof using fadd_zero_r.
  intros Hload Hcopy. split.
  - intros impl f old Hout Hcall Hg.
    exists (<[impl := fadd old f]> fs).
    unfold run. rewrite Hload. cbn [obind]. rewrite Hcopy. cbn [obind].
    rewrite Hout. cbn [obind]. rewrite Hcall.
    unfold fn_add_assign. rewrite Hg. split; [reflexivity|]. split.
    + simpl. rewrite list_lookup_insert_eq
        by (now apply lookup_lt_Some in Hg). reflexivity.
    + intros l Hl. now apply list_lookup_insert_ne.
  - intros impls part zeros global b e Hout Hnd Hh Hcall Halloc Hz Hlen
      Hrange Hbe He Hp.
    pose proof (Forall2_length _ _ _ Hh) as Hlg.
    destruct (vec_add_assign_spec fadd impls
                (take b zeros ++ part ++ drop e zeros) global fs Hnd Hh)
      as (fs' & Hrun & Hv & Hfr).
    { rewrite !length_app, length_take, length_drop. lia. }
    exists fs'. split; [|split; [|split]].
    + unfold run. rewrite Hload. cbn [obind]. rewrite Hcopy. cbn [obind].
      rewrite Hout. cbn [obind]. rewrite Hcall, Halloc.
      unfold insert_result_batch, insert_batch. rewrite Hrange.
      destruct (decide _) as [_|Hn]; [exact Hrun | lia].
    + rewrite zip_with_inserted in Hv by (auto; lia).
      simpl. apply mapM_Some_2 in Hv. now rewrite Hv.
    + intros i Hi. apply merge_slice_outside; auto; lia.
    + exact Hfr.
Qed.
End MergeFacts.

(** A witness of [run_accumulates]: the second batch, [[2, 4)], of the
    integer [MicroTask] on [v3], after the first batch has run. *)
Lemma run_accumulates_witness :
  let r := MacroTaskInternal_new 0 (IntTasks.MicroTask 2)
             (mkBatch [Slice 2 4] (Slice 2 4)) [0; 1; 2] [3] in
  let c := mkCloud [PValue (VFunction 1%Z); PValue (VScalar 2%Z);
                    PValue (VVector IntTasks.v3); PImpls [0; 1; 2; 3; 4]] in
  let fs := [2; 4; 0; 0; 0]%Z in
  exists fs', run Z.add r c fs = Ok fs' /\
    read_result (HVector [0; 1; 2; 3; 4]) fs'
    = Some (RVector (merge_slice Z.add fs [6; 8]%Z 2 4)) /\
    merge_slice Z.add fs [6; 8]%Z 2 4 = [2; 4; 6; 8; 0]%Z.
Proof.
  intros r c fs.
  destruct (run_accumulates Z.add 0%Z Z.add_0_r r c fs IntTasks.args
              [VFunction 1%Z; VScalar 2%Z; VVector [3; 4]%Z]
              eq_refl eq_refl) as [_ Hs].
  destruct (Hs [0; 1; 2; 3; 4] [6; 8]%Z [0; 0; 0; 0; 0]%Z fs 2 4)
    as (fs' & Hrun & Hread & _); try reflexivity; try lia.
  - apply (NoDup_seq 0 5).
  - repeat constructor.
  - repeat constructor.
  - simpl. lia.
  - exists fs'. repeat split; assumption.
Defined.

(** *** The order of execution *)

Section OrderFacts.
Context {F D : Type} {EqF : EqDecision F} {EqD : EqDecision D}.
Variable fadd : F -> F -> F.
Variable fzero : F.
Hypothesis fadd_zero_r : forall f, fadd f fzero = f.
Implicit Types (fs : list F) (c : @Cloud F D) (r : @MacroTaskInternal F D).
Implicit Types (rs : list (@MacroTaskInternal F D)).
Implicit Types (impls : list nat) (tmp g zeros part global : list F).

Local Abbreviation step := (step fadd).
Local Abbreviation run_funcs := (run_funcs fadd).
Local Abbreviation feeds := (feeds fzero).

(** Outside the output range of its batch, what a record adds is zero. *)
Lemma increment_outside c impls r res tmp :
  feeds c impls r -> increment r c = Ok (res, tmp) ->
  res = HVector impls /\
  forall i a, i ∉ indices (length tmp) (out_range r) ->
              tmp !! i = Some a -> a = fzero.
Proof.
  intros [Hout Hzero]. unfold increment.
  destruct (load_tuple c (inputrecords r)) as [argtuple| | |];
    cbn [obind]; try discriminate.
  destruct (copy_input_batch _ argtuple) as [batched| | |];
    cbn [obind]; try discriminate.
  rewrite Hout. cbn [obind].
  destruct (call _ _ batched) as [f|part]; [discriminate|].
  destruct (Hzero argtuple) as (zeros & -> & Hz).
  unfold insert_result_batch, insert_batch, out_range.
  destruct (result (batch (task r))) as [|b e].
  - destruct (decide _); [|discriminate]. cbn [obind].
    intros H. injection H as <- <-. split; [reflexivity|].
    intros i a Hi Ha. exfalso. apply Hi. simpl.
    apply elem_of_seq. apply lookup_lt_Some in Ha. lia.
  - destruct (decide _) as [(Hbe & He & Hp)|]; [|discriminate]. cbn [obind].
    intros H. injection H as <- <-. split; [reflexivity|].
    intros i a Hi Ha. simpl in Hi. rewrite elem_of_seq in Hi.
    rewrite Forall_lookup in Hz. symmetry.
    apply lookup_app_Some in Ha as [Ha|[Hl Ha]].
    + apply lookup_take_Some in Ha as [Ha _]. eauto.
    + rewrite length_take in Hl.
      apply lookup_app_Some in Ha as [Ha|[Hl' Ha]].
      * apply lookup_lt_Some in Ha. rewrite length_take in Ha. lia.
      * rewrite lookup_drop in Ha. eauto.
Qed.

(** Two additions into one output commute when, at every position, one
    of the two adds zero. *)
Lemma vec_add_assign_swap impls (x1 x2 : list F) fs fs1 fs12 :
  NoDup impls ->
  (forall i a b, x1 !! i = Some a -> x2 !! i = Some b ->
                 a = fzero \/ b = fzero) ->
  vec_add_assign fadd impls x1 fs = Ok fs1 ->
  vec_add_assign fadd impls x2 fs1 = Ok fs12 ->
  exists fs2, vec_add_assign fadd impls x2 fs = Ok fs2 /\
              vec_add_assign fadd impls x1 fs2 = Ok fs12.
Proof using fadd_zero_r.
  intros Hnd Hz H1 H2.
  destruct (vec_add_assign_inv fadd _ _ _ _ H1) as (L1 & Lf1 & Hb).
  destruct (vec_add_assign_inv fadd _ _ _ _ H2) as (L2 & Lf12 & _).
  destruct (holds_exists fs impls Hb) as [g Hg].
  destruct (vec_add_assign_spec fadd impls x1 g fs Hnd Hg L1)
    as (fs1' & E1 & V1 & F1).
  rewrite H1 in E1. injection E1 as <-.
  destruct (vec_add_assign_spec fadd impls x2 _ fs1 Hnd V1 L2)
    as (fs12' & E12 & V12 & F12).
  rewrite H2 in E12. injection E12 as <-.
  destruct (vec_add_assign_spec fadd impls x2 g fs Hnd Hg L2)
    as (fs2 & E2 & V2 & F2).
  destruct (vec_add_assign_spec fadd impls x1 _ fs2 Hnd V2 L1)
    as (fs21 & E21 & V21 & F21).
  exists fs2. split; [exact E2|]. rewrite E21. f_equal.
  apply list_eq. intros l. destruct (decide (l ∈ impls)) as [Hin|Hnin].
  - apply list_elem_of_lookup in Hin as [i Hi].
    destruct (Forall2_lookup_l _ _ _ i l V21 Hi) as (y21 & Hy21 & ->).
    destruct (Forall2_lookup_l _ _ _ i l V12 Hi) as (y12 & Hy12 & ->).
    f_equal.
    apply lookup_zip_with_Some in Hy21 as (u & a & -> & Hu & Ha).
    apply lookup_zip_with_Some in Hu as (gi & b & -> & Hgi & Hb').
    apply lookup_zip_with_Some in Hy12 as (u' & b2 & -> & Hu' & Hb2).
    apply lookup_zip_with_Some in Hu' as (gi' & a2 & -> & Hgi' & Ha2).
    assert (gi' = gi) as -> by congruence.
    assert (a2 = a) as -> by congruence.
    assert (b2 = b) as -> by congruence.
    destruct (Hz i a b Ha Hb') as [-> | ->]; now rewrite !fadd_zero_r.
  - now rewrite F21, F2, F12, F1 by assumption.
Qed.
(** Two records that feed one output through ranges that share no index
    can run in either order. *)
Lemma run_swap c impls r1 r2 fs fs1 fs12 :
  NoDup impls -> feeds c impls r1 -> feeds c impls r2 ->
  (forall i, i ∈ indices (length impls) (out_range r1) ->
             i ∉ indices (length impls) (out_range r2)) ->
  run fadd r1 c fs = Ok fs1 -> run fadd r2 c fs1 = Ok fs12 ->
  exists fs2, run fadd r2 c fs = Ok fs2 /\ run fadd r1 c fs2 = Ok fs12.
Proof using fadd_zero_r.
  intros Hnd Hf1 Hf2 Hdisj H1 H2. rewrite run_increment in H1, H2.
  destruct (increment r1 c) as [[res1 x1]| | |] eqn:E1; try discriminate.
  destruct (increment r2 c) as [[res2 x2]| | |] eqn:E2; try discriminate.
  destruct (increment_outside c impls r1 res1 x1 Hf1 E1) as [-> Hz1].
  destruct (increment_outside c impls r2 res2 x2 Hf2 E2) as [-> Hz2].
  cbn [obind fst snd impls_of] in H1, H2.
  destruct (vec_add_assign_inv fadd _ _ _ _ H1) as (L1 & _ & _).
  destruct (vec_add_assign_inv fadd _ _ _ _ H2) as (L2 & _ & _).
  rewrite L1 in Hz1. rewrite L2 in Hz2.
  destruct (vec_add_assign_swap impls x1 x2 fs fs1 fs12) as (fs2 & E3 & E4);
    try assumption.
  { intros i a b Ha Hb.
    destruct (decide (i ∈ indices (length impls) (out_range r1))) as [Hi|Hi].
    - right. apply (Hz2 i b); [now apply Hdisj | exact Hb].
    - left. now apply (Hz1 i a). }
  exists fs2. rewrite !run_increment, E1, E2. now split.
Qed.

Lemma step_swap c impls r1 r2 fs fs1 fs12 :
  NoDup impls -> feeds c impls r1 -> feeds c impls r2 ->
  (forall i, i ∈ indices (length impls) (out_range r1) ->
             i ∉ indices (length impls) (out_range r2)) ->
  step c r1 fs = Ok fs1 -> step c r2 fs1 = Ok fs12 ->
  exists fs2, step c r2 fs = Ok fs2 /\ step c r1 fs2 = Ok fs12.
Proof using fadd_zero_r.
  intros Hnd Hf1 Hf2 Hdisj. unfold step.
  destruct (is_waiting r1), (is_waiting r2); intros H1 H2.
  - now apply (run_swap c impls r1 r2 fs fs1 fs12).
  - injection H2 as <-. eauto.
  - injection H1 as <-. eauto.
  - injection H1 as <-. eauto.
Qed.

(** The dispatch loop over two orders of the same records. *)
Lemma run_funcs_perm c impls rs1 rs2 :
  rs1 ≡ₚ rs2 -> NoDup impls ->
  forall fs fs',
  Forall (feeds c impls) rs1 ->
  NoDup (written (length impls) rs1) ->
  run_funcs c rs1 fs = Ok fs' -> run_funcs c rs2 fs = Ok fs'.
Proof using fadd_zero_r.
  intros Hperm Hnd. unfold written.
  induction Hperm as [|x l l' Hp IH|x y l|l l' l'' Hp1 IH1 Hp2 IH2];
    intros fs fs' Hfeed Hw Hrun.
  - exact Hrun.
  - apply Forall_cons in Hfeed as [_ Hfeed].
    simpl in Hw. apply NoDup_app in Hw as (_ & _ & Hw).
    simpl in *. destruct (step c x fs) as [fs1| | |]; try discriminate.
    cbn [obind] in *. now apply IH.
  - apply Forall_cons in Hfeed as [Hy Hfeed].
    apply Forall_cons in Hfeed as [Hx _].
    simpl in Hw. apply NoDup_app in Hw as (_ & Hd & _).
    simpl in Hrun.
    destruct (step c y fs) as [fs1| | |] eqn:E1; try discriminate.
    cbn [obind] in Hrun.
    destruct (step c x fs1) as [fs12| | |] eqn:E2; try discriminate.
    cbn [obind] in Hrun.
    destruct (step_swap c impls y x fs fs1 fs12 Hnd Hy Hx) as (fs2 & E3 & E4);
      try assumption.
    { intros i Hi Hi'. apply (Hd i Hi). apply elem_of_app. now left. }
    simpl. rewrite E3. cbn [obind]. rewrite E4. exact Hrun.
  - apply IH2.
    + now rewrite <- Hp1.
    + now rewrite <- Hp1.
    + now apply IH1.
Qed.

(** C6: for records that feed one output vector from zero placeholders
    through pairwise disjoint output ranges (no index of the output is
    written by two of them), the dispatch loop over any two orders of the
    records leaves the same universe: when one order runs through, so does
    the other, with every field of the output equal. Only [f + 0 = f] is
    used of the addition, so the equality is exact. *)
Theorem merge_order_irrelevant c impls rs1 rs2 fs rs1' fs' :
  rs1 ≡ₚ rs2 -> NoDup impls ->
  Forall (feeds c impls) rs1 ->
  NoDup (written (length impls) rs1) ->
  run_records fadd c rs1 fs = Ok (rs1', fs') ->
  exists rs2', run_records fadd c rs2 fs = Ok (rs2', fs').
Proof using fadd_zero_r.
  intros Hperm Hnd Hfeed Hw Hrun.
  assert (H1 : run_funcs c rs1 fs = Ok fs')
    by (rewrite run_records_funcs, Hrun; reflexivity).
  pose proof (run_funcs_perm c impls rs1 rs2 Hperm Hnd fs fs' Hfeed Hw H1)
    as H2.
  rewrite run_records_funcs in H2.
  destruct (run_records fadd c rs2 fs) as [[rs2' fs2]| | |];
    try discriminate.
  cbn [obind snd] in H2. injection H2 as ->. eauto.
Qed.
(** The records that [operator()] makes from a 1-D partition write every
    index of the output once: the partition meets the disjointness that
    the merge relies on. *)
Lemma partition_written (prio : nat) (t : @taskT F D)
    (inrec outrec : list nat) (L g : nat) :
  0 < g ->
  written L (map (fun b => MacroTaskInternal_new prio t b inrec outrec)
                 (batches_1d L g))
  = seq 0 L.
Proof.
  intros Hg. rewrite <- (do_1d_partition_cover L g Hg).
  rewrite <- batches_1d_result. unfold written.
  induction (batches_1d L g) as [|b bs IH]; simpl; [reflexivity|].
  now rewrite IH.
Qed.
End OrderFacts.

Lemma MicroTask_allocator_zeros (b : Batch) (argtuple : list (@value Z Z)) :
  exists zeros, IntTasks.MicroTask_allocator b argtuple = RVector zeros /\
                Forall (eq 0%Z) zeros.
Proof.
  unfold IntTasks.MicroTask_allocator.
  destruct argtuple as [|a1 [|a2 [|[d|f|v] [|a4 rest]]]];
    try (exists []; split; [reflexivity | constructor]).
  exists (repeat 0%Z (length v)). split; [reflexivity|].
  apply Forall_forall. intros x Hx. apply list_elem_of_In in Hx.
  now apply repeat_spec in Hx.
Qed.

(** A witness of [merge_order_irrelevant]: the three batches of the
    integer [MicroTask] on [v3], run in the order of the partition and
    with the last batch first. *)
Lemma merge_order_irrelevant_witness :
  let mk := fun b e => MacroTaskInternal_new 0 (IntTasks.MicroTask 2)
              (mkBatch [Slice b e] (Slice b e)) [0; 1; 2] [3] in
  let c := mkCloud [PValue (VFunction 1%Z); PValue (VScalar 2%Z);
                    PValue (VVector IntTasks.v3); PImpls [0; 1; 2; 3; 4]] in
  let fs := [0; 0; 0; 0; 0]%Z in
  (exists rs', run_records Z.add c [mk 0 2; mk 2 4; mk 4 5] fs
               = Ok (rs', [2; 4; 6; 8; 10]%Z)) /\
  (exists rs', run_records Z.add c [mk 4 5; mk 0 2; mk 2 4] fs
               = Ok (rs', [2; 4; 6; 8; 10]%Z)).
Proof.
  intros mk c fs.
  assert (H1 : exists rs', run_records Z.add c [mk 0 2; mk 2 4; mk 4 5] fs
                           = Ok (rs', [2; 4; 6; 8; 10]%Z))
    by (eexists; reflexivity).
  split; [exact H1|]. destruct H1 as [rs1' H1].
  apply (merge_order_irrelevant Z.add 0%Z Z.add_0_r c [0; 1; 2; 3; 4]
           [mk 0 2; mk 2 4; mk 4 5] [mk 4 5; mk 0 2; mk 2 4] fs rs1').
  - change [mk 0 2; mk 2 4; mk 4 5] with ([mk 0 2; mk 2 4] ++ [mk 4 5]).
    change [mk 4 5; mk 0 2; mk 2 4] with ([mk 4 5] ++ [mk 0 2; mk 2 4]).
    apply Permutation_app_comm.
  - apply (NoDup_seq 0 5).
  - repeat constructor; intros argtuple; apply MicroTask_allocator_zeros.
  - apply (NoDup_seq 0 5).
  - exact H1.
Defined.

(** *** Submitting a task twice *)

Section TwiceFacts.
Context {F D : Type} {EqF : EqDecision F} {EqD : EqDecision D}.
Variable fadd : F -> F -> F.
Variable default_priority : nat.
Variable MacroTaskPartitioner_new : MacroTaskPartitioner.
Variable partition_tasks :
  MacroTaskPartitioner -> list (@value F D) -> outcome (list Batch).
Implicit Types (t : @taskT F D) (args : list (@value F D)).
Implicit Types (st : @State F D) (Q : @MacroTaskQ F D) (c : @Cloud F D).
Implicit Types (r : @MacroTaskInternal F D) (self : @MacroTask_2G F D).
Implicit Types (vtask rs : list (@MacroTaskInternal F D)).
Implicit Types (fs g : list F) (rv : @rvalue F).

Local Abbreviation op_call :=
  (op_call fadd default_priority MacroTaskPartitioner_new partition_tasks).
Local Abbreviation test_twice :=
  (test_twice fadd default_priority MacroTaskPartitioner_new
              partition_tasks).
Local Abbreviation eff_partitioner :=
  (eff_partitioner MacroTaskPartitioner_new).
Local Abbreviation eff_task := (eff_task MacroTaskPartitioner_new).
Local Abbreviation payload_of := (@payload_of F D).

(** A record of a priority that no queued record falls below goes to the
    end of the queue. *)
Lemma insert_record_snoc r rs :
  Forall (fun x => priority r <= priority x) rs ->
  insert_record r rs = rs ++ [r].
Proof.
  induction 1 as [|x rs Hx _ IH]; simpl; [reflexivity|].
  destruct (decide (priority x < priority r)); [lia|]. now rewrite IH.
Qed.

Lemma add_tasks_snoc (k : nat) vtask : forall rs,
  Forall (fun x => priority x = k) rs ->
  Forall (fun x => priority x = k) vtask ->
  foldl (fun rs r => insert_record (set_stat Waiting r) rs) rs vtask
  = rs ++ map (set_stat Waiting) vtask.
Proof.
  induction vtask as [|r vtask IH]; intros rs Hrs Hv; simpl.
  - now rewrite app_nil_r.
  - apply Forall_cons in Hv as [Hr Hv].
    rewrite insert_record_snoc.
    + rewrite IH; [now rewrite <- app_assoc | | exact Hv].
      apply Forall_app. split; [exact Hrs|]. now repeat constructor.
    + eapply Forall_impl; [exact Hrs|]. simpl. intros x ->. lia.
Qed.

(** Freshly allocated implementations hold what was allocated. *)
Lemma holds_seq (fs1 g fs2 : list F) :
  holds (fs1 ++ g ++ fs2) (seq (length fs1) (length g)) g.
Proof.
  unfold holds. revert fs1.
  induction g as [|y g IH]; intros fs1; simpl; constructor.
  - now apply list_lookup_middle.
  - specialize (IH (fs1 ++ [y])).
    rewrite length_app, <- app_assoc in IH. simpl in IH.
    now rewrite Nat.add_1_r in IH.
Qed.

Lemma eff_task_idem w t :
  eff_partitioner w (eff_task w t) = eff_partitioner w t /\
  eff_task w (eff_task w t) = eff_task w t /\
  allocator (eff_task w t) = allocator t /\
  batch (eff_task w t) = batch t.
Proof.
  unfold eff_task, eff_partitioner.
  destruct t as [b [p|] al ca]; simpl; repeat split.
Qed.

(** [operator()] on an object that holds the queue [q]: the records are
    queued, nothing runs. *)
Lemma op_call_deferred self args st (q : nat) Q :
  taskq_ptr self = Some q -> queues st !! q = Some Q ->
  let w := world self in
  let t' := eff_task w (mt_task self) in
  let rv := allocator t' (batch t') args in
  let n := length (funcs st) in
  let inrec := (store_tuple args (cloud Q)).1 in
  let c1 := (store_tuple args (cloud Q)).2 in
  let outrec := [(store (payload_of rv n) c1).1] in
  let c2 := (store (payload_of rv n) c1).2 in
  op_call self args st =
  let* partition := partition_tasks (eff_partitioner w (mt_task self)) args in
  Ok (handle_of rv n, mkMacroTask t' w (Some q),
      mkState (funcs st ++ rvalue_list rv)
        (<[q := add_tasks
                  (map (fun b => MacroTaskInternal_new default_priority
                                   t' b inrec outrec) partition)
                  (set_cloud c2 Q)]> (queues st))).
Proof.
  intros Hq HQ. cbv zeta. unfold MacroTask.op_call. rewrite Hq, HQ.
  fold (eff_partitioner (world self) (mt_task self)).
  fold (eff_task (world self) (mt_task self)).
  destruct (partition_tasks _ args) as [partition| | |]; cbn [obind];
    try reflexivity.
  destruct (store_tuple args (cloud Q)) as [inrec c1]. cbn [fst snd].
  unfold prepare_output. cbn [mt_task].
  destruct (allocator _ _ args) as [f|v]; cbn [payload_of handle_of];
    destruct (store _ c1) as [orec c2]; reflexivity.
Qed.
Lemma impls_of_handle rv (k : nat) :
  impls_of (handle_of rv k) = seq k (length (rvalue_list rv)).
Proof. now destruct rv. Qed.

Lemma read_handle rv (k : nat) fs g :
  holds fs (impls_of (handle_of rv k)) g ->
  exists v, rebuild rv g = Some v /\
            read_result (handle_of rv k) fs = Some v.
Proof.
  unfold holds. destruct rv as [f|v0]; simpl; intros Hh.
  - inversion Hh as [|? y ? g' Hy Hg']; subst. inversion Hg'; subst.
    exists (RFunction y). split; [reflexivity|]. now rewrite Hy.
  - exists (RVector g). split; [reflexivity|].
    apply mapM_Some_2 in Hh. now rewrite Hh.
Qed.

(** The record that [store] returns holds the payload, also in a store
    that has grown since. *)
Lemma store_lookup (p : @payload F D) c (l : list payload) :
  (records (store p c).2 ++ l) !! (store p c).1 = Some p.
Proof.
  destruct (store_spec p c) as (extra & _ & Hfind).
  apply list_find_Some in Hfind as (Hl & _).
  now apply lookup_app_l_Some.
Qed.

Lemma get_output_handle rv (k : nat) c (l : list payload) :
  get_output (mkCloud (records (store (payload_of rv k) c).2 ++ l))
             [(store (payload_of rv k) c).1]
  = Ok (handle_of rv k).
Proof.
  unfold get_output, load. cbn [records].
  rewrite store_lookup. cbn [obind]. now destruct rv.
Qed.

Lemma Cloud_eta c : mkCloud (records c) = c.
Proof. now destruct c. Qed.

(** C3: when the test that submits one task twice to one queue and then
    runs the queue returns, the store of the queue holds no payload twice
    and holds every argument of the tuple (each input is stored exactly
    once), all records of the queue, from the first submission and from the
    second, refer to the same input records, and the two handles show the
    same values. *)
Theorem twice_stored_once (universe : World) t args st
    (f2a1 f2a2 : resultT) st' :
  test_twice universe t args st = Ok (f2a1, f2a2, st') ->
  exists Q v,
    queues st' !! length (queues st) = Some Q /\
    NoDup (records (cloud Q)) /\
    (forall a, a ∈ args -> PValue a ∈ records (cloud Q)) /\
    (forall r r', r ∈ taskq Q -> r' ∈ taskq Q ->
                  inputrecords r = inputrecords r') /\
    read_result f2a1 (funcs st') = Some v /\
    read_result f2a2 (funcs st') = Some v.
Proof.
  unfold MacroTask.test_twice, make_taskq, MacroTask_2G_new.
  cbn [obind queues funcs].
  rewrite list_lookup_middle by reflexivity.
  cbn [get_world MacroTaskQ_new].
  destruct (decide (id universe = id universe)) as [_|Hne]; [|congruence].
  cbn [obind].
  set (q := length (queues st)).
  set (Q0 := MacroTaskQ_new universe (wsize universe)).
  assert (HQ0 : (queues st ++ [Q0]) !! q = Some Q0)
    by (now apply list_lookup_middle).
  rewrite (op_call_deferred (mkMacroTask t universe (Some q)) args
             (mkState (funcs st) (queues st ++ [Q0])) q Q0 eq_refl HQ0).
  cbn [world mt_task funcs queues].
  destruct (partition_tasks (eff_partitioner universe t) args)
    as [partition| | |] eqn:Ep; cbn [obind]; try discriminate.
  cbn [fst snd].
  destruct (eff_task_idem universe t) as (Hp_idem & Ht_idem & Hal & Hba).
  set (t' := eff_task universe t) in *.
  set (rv := allocator t' (batch t') args).
  set (n := length (funcs st)).
  set (inrec := (store_tuple args (cloud Q0)).1).
  set (c1 := (store_tuple args (cloud Q0)).2).
  set (orec1 := (store (payload_of rv n) c1).1).
  set (c2 := (store (payload_of rv n) c1).2).
  set (vtask1 := map _ partition).
  set (Q1 := add_tasks vtask1 _).
  assert (HQ1 : <[q := Q1]> (queues st ++ [Q0]) !! q = Some Q1).
  { apply list_lookup_insert_eq. rewrite length_app. simpl. unfold q. lia. }
  rewrite (op_call_deferred (mkMacroTask t' universe (Some q)) args
             (mkState (funcs st ++ rvalue_list rv)
                      (<[q := Q1]> (queues st ++ [Q0]))) q Q1 eq_refl HQ1).
  cbn [world mt_task funcs queues].
  rewrite Hp_idem, Ht_idem, Ep. cbn [obind fst snd].
  change (cloud Q1) with c2.
  assert (Hc2 : exists extra, c2 = mkCloud (records c1 ++ extra)).
  { destruct (store_spec (payload_of rv n) c1) as (extra & Hex & _).
    exists extra. fold c2 in Hex. rewrite <- Hex. now rewrite Cloud_eta. }
  destruct Hc2 as [extra2 Hc2].
  assert (Hst2 : store_tuple args c2 = (inrec, c2)).
  { rewrite Hc2. apply store_tuple_again. }
  rewrite Hst2. cbn [fst snd]. fold rv.
  set (n2 := length (funcs st ++ rvalue_list rv)).
  set (orec2 := (store (payload_of rv n2) c2).1).
  set (c3 := (store (payload_of rv n2) c2).2).
  set (vtask2 := map _ partition).
  set (Q2 := add_tasks vtask2 _).
  set (fs2 := (funcs st ++ rvalue_list rv) ++ rvalue_list rv).
  unfold taskq_run_all. cbn [queues funcs].
  rewrite list_lookup_insert_eq
    by (rewrite length_insert, length_app; simpl; unfold q; lia).
  unfold run_all.
  change (cloud Q2) with c3.
  assert (Htq : taskq Q2 = map (set_stat Waiting) vtask1
                           ++ map (set_stat Waiting) vtask2).
  { unfold Q2, add_tasks, set_taskq, set_cloud. cbn [taskq].
    unfold Q1, add_tasks, set_taskq, set_cloud, Q0, MacroTaskQ_new.
    cbn [taskq].
    rewrite (add_tasks_snoc default_priority vtask1 []);
      [|constructor|].
    2: { unfold vtask1. apply Forall_fmap, Forall_forall. now intros. }
    rewrite (add_tasks_snoc default_priority vtask2).
    - reflexivity.
    - simpl. apply Forall_fmap, Forall_fmap, Forall_forall. now intros.
    - unfold vtask2. apply Forall_fmap, Forall_forall. now intros. }
  rewrite Htq.
  set (rs1 := map (set_stat Waiting) vtask1).
  set (rs2 := map (set_stat Waiting) vtask2).
  destruct (run_records fadd c3 (rs1 ++ rs2) fs2) as [[done fs']| | |]
    eqn:Erun; cbn [obind fst snd]; try discriminate.
  intros H. injection H as <- <- <-. cbn [funcs queues].
  set (g0 := rvalue_list rv) in *.
  assert (Hn2 : n2 = n + length g0)
    by (unfold n2, n; now rewrite length_app).
  (* the two outputs *)
  destruct (store_spec (payload_of rv n2) c2) as (extra3 & Hex3 & _).
  fold c3 in Hex3.
  assert (Ho1 : get_output c3 [orec1] = Ok (handle_of rv n)).
  { rewrite <- (Cloud_eta c3), Hex3. apply get_output_handle. }
  assert (Ho2 : get_output c3 [orec2] = Ok (handle_of rv n2)).
  { rewrite <- (Cloud_eta c3), <- (app_nil_r (records c3)).
    apply get_output_handle. }
  assert (Hnd1 : NoDup (impls_of (handle_of rv n)))
    by (rewrite impls_of_handle; apply NoDup_seq).
  assert (Hnd2 : NoDup (impls_of (handle_of rv n2)))
    by (rewrite impls_of_handle; apply NoDup_seq).
  assert (Hdisj : forall l, l ∈ impls_of (handle_of rv n) ->
                            l ∉ impls_of (handle_of rv n2)).
  { intros l. rewrite !impls_of_handle, !elem_of_seq. fold g0. lia. }
  assert (Hall1 : Forall (fun r => get_output c3 (outputrecords r)
                                   = Ok (handle_of rv n)) rs1).
  { unfold rs1, vtask1. apply Forall_fmap, Forall_fmap, Forall_forall.
    intros b _. exact Ho1. }
  assert (Hall2 : Forall (fun r => get_output c3 (outputrecords r)
                                   = Ok (handle_of rv n2)) rs2).
  { unfold rs2, vtask2. apply Forall_fmap, Forall_fmap, Forall_forall.
    intros b _. exact Ho2. }
  (* the run, first submission, then second *)
  assert (Hfun : run_funcs fadd c3 (rs1 ++ rs2) fs2 = Ok fs')
    by (rewrite run_records_funcs, Erun; reflexivity).
  rewrite run_funcs_app in Hfun.
  destruct (run_funcs fadd c3 rs1 fs2) as [fs_mid| | |] eqn:E1;
    try discriminate.
  cbn [obind] in Hfun.
  assert (HA : holds fs2 (impls_of (handle_of rv n)) g0).
  { rewrite impls_of_handle. unfold fs2. rewrite <- app_assoc.
    apply holds_seq. }
  assert (HB : holds fs_mid (impls_of (handle_of rv n2)) g0).
  { apply (holds_frame fs2).
    - intros l Hl.
      apply (run_funcs_frame fadd c3 (handle_of rv n) rs1 fs2 fs_mid);
        try assumption.
      intros Hl'. now apply (Hdisj l).
    - rewrite impls_of_handle. fold g0. unfold n2.
      assert (Hfs2 : fs2 = (funcs st ++ g0) ++ g0 ++ [])
        by (unfold fs2, g0; now rewrite app_nil_r).
      rewrite Hfs2. apply holds_seq. }
  destruct (run_funcs_relocate fadd c3 (handle_of rv n) (handle_of rv n2)
              rs1 rs2) with (g := g0) (fsA := fs2) (fsA' := fs_mid)
              (fsB := fs_mid) (fsB' := fs') as (g' & HA' & HB');
    try assumption.
  { unfold rs1, rs2, vtask1, vtask2.
    apply Forall2_fmap, Forall2_fmap, Forall_Forall2_diag, Forall_forall.
    intros b _. cbn. repeat split; assumption. }
  assert (HA'' : holds fs' (impls_of (handle_of rv n)) g').
  { apply (holds_frame fs_mid); [|exact HA'].
    intros l Hl.
    apply (run_funcs_frame fadd c3 (handle_of rv n2) rs2 fs_mid fs');
      try assumption.
    now apply Hdisj. }
  destruct (read_handle rv n fs' g' HA'') as (v & Hv & Hread1).
  destruct (read_handle rv n2 fs' g' HB') as (v' & Hv' & Hread2).
  assert (v' = v) as -> by congruence.
  exists (set_taskq done Q2), v.
  change (cloud (set_taskq done Q2)) with c3.
  change (taskq (set_taskq done Q2)) with done.
  split; [|split; [|split; [|split; [|split]]]].
  - apply list_lookup_insert_eq.
    rewrite !length_insert, length_app. simpl. unfold q. lia.
  - unfold c3, c2, c1. apply store_keeps_NoDup, store_keeps_NoDup.
    apply store_tuple_NoDup. apply NoDup_nil_2.
  - intros a Ha. rewrite Hex3. apply elem_of_app. left.
    rewrite Hc2. cbn [records]. apply elem_of_app. left.
    now apply store_tuple_elem_of.
  - assert (Hin : Forall (fun r => inputrecords r = inrec) done).
    { pose proof (run_records_inputrecords fadd c3 _ _ _ _ Erun) as Hmap.
      assert (Hsrc : Forall (fun r => inputrecords r = inrec) (rs1 ++ rs2)).
      { apply Forall_app. unfold rs1, rs2, vtask1, vtask2.
        split; apply Forall_fmap, Forall_fmap, Forall_forall; now intros. }
      assert (Hsrc' : Forall (fun x => x = inrec)
                             (map inputrecords (rs1 ++ rs2)))
        by (apply Forall_fmap; exact Hsrc).
      rewrite <- Hmap in Hsrc'. apply Forall_fmap in Hsrc'. exact Hsrc'. }
    rewrite Forall_forall in Hin.
    intros r r' Hr Hr'. now rewrite (Hin r Hr), (Hin r' Hr').
  - exact Hread1.
  - exact Hread2.
Qed.
End TwiceFacts.

(** A witness of [twice_stored_once]: the integer [MicroTask] on [v3],
    submitted twice; both handles show [2 * 1 * v3]. *)
Lemma twice_stored_once_witness :
  match IntTasks.test_twice IntTasks.universe (IntTasks.MicroTask 2)
          IntTasks.args IntTasks.st0 with
  | Ok (f2a1, f2a2, st') =>
      (exists v, read_result f2a1 (funcs st') = Some v /\
                 read_result f2a2 (funcs st') = Some v) /\
      read_result f2a1 (funcs st') = Some (RVector [2; 4; 6; 8; 10]%Z)
  | _ => False
  end.
Proof.
  destruct (IntTasks.test_twice IntTasks.universe (IntTasks.MicroTask 2)
              IntTasks.args IntTasks.st0) as [[[f2a1 f2a2] st']| | |] eqn:E;
    try (vm_compute in E; discriminate E).
  split.
  - destruct (twice_stored_once Z.add 0 (mkPartitioner 0 1 1)
                partition_tasks_1d _ _ _ _ _ _ _ E)
      as (Q & v & _ & _ & _ & _ & H1 & H2).
    exists v. now split.
  - vm_compute in E. injection E as <- _ <-. reflexivity.
Defined.

(** *** The tests on the integer stand-in *)

(** C2, at the input it fails on: a [MacroTask_2G] built without a queue
    and called twice. The first call runs its three batches and returns the
    merged result [2 * 1 * v3]. The second call finds [taskq_ptr] set by
    the first, so [immediate_execution] is false: its records are queued
    and left waiting, and the result it returns is the zero placeholder. *)
Theorem second_immediate_call_not_run :
  let task_immediate := mkMacroTask (IntTasks.MicroTask 2) IntTasks.universe None in
  match IntTasks.op_call task_immediate IntTasks.args IntTasks.st0 with
  | Ok (f1, self1, st1) =>
      read_result f1 (funcs st1) = Some (RVector [2; 4; 6; 8; 10]%Z) /\
      record_stats st1 0 = Some [Done; Done; Done] /\
      taskq_ptr self1 = Some 0 /\
      match IntTasks.op_call self1 IntTasks.args st1 with
      | Ok (f2, self2, st2) =>
          read_result f2 (funcs st2) = Some (RVector [0; 0; 0; 0; 0]%Z) /\
          record_stats st2 0
          = Some [Done; Done; Done; Waiting; Waiting; Waiting]
      | _ => False
      end
  | _ => False
  end.
Proof. vm_compute. repeat split. Qed.

(** *** The output of a call *)

Section OutputFacts.
Context {F D : Type} {EqF : EqDecision F} {EqD : EqDecision D}.
Variable fadd : F -> F -> F.
Variable default_priority : nat.
Variable MacroTaskPartitioner_new : MacroTaskPartitioner.
Variable partition_tasks :
  MacroTaskPartitioner -> list (@value F D) -> outcome (list Batch).
Implicit Types (args argtuple : list (@value F D)).
Implicit Types (st : @State F D) (c : @Cloud F D).
Implicit Types (self : @MacroTask_2G F D) (fs : list F) (rv : @rvalue F).

Local Abbreviation op_call :=
  (op_call fadd default_priority MacroTaskPartitioner_new partition_tasks).

Lemma rebuild_rvalue_list rv : rebuild rv (rvalue_list rv) = Some rv.
Proof. now destruct rv. Qed.

Lemma read_fresh rv fs :
  read_result (handle_of rv (length fs)) (fs ++ rvalue_list rv) = Some rv.
Proof.
  destruct (read_handle rv (length fs) (fs ++ rvalue_list rv)
              (rvalue_list rv)) as (v & Hv & Hread).
  - rewrite impls_of_handle.
    pose proof (holds_seq fs (rvalue_list rv) []) as H.
    now rewrite app_nil_r in H.
  - rewrite rebuild_rvalue_list in Hv. now injection Hv as <-.
Qed.

(** X18: [prepare_output] allocates the result behind the functions of
    the universe: the functions that exist stay as they are, the handle
    returned points to new implementations only and shows what the
    allocator returned, and the one output record that is stored is the
    record from which [get_output] rebuilds the same handle. *)
Theorem prepare_output_allocates self c argtuple fs :
  let t := mt_task self in
  let rv := allocator t (batch t) argtuple in
  let res := handle_of rv (length fs) in
  exists rec c',
    prepare_output self c argtuple fs
    = ([rec], res, c', fs ++ rvalue_list rv) /\
    read_result res (fs ++ rvalue_list rv) = Some rv /\
    (forall impl, impl ∈ impls_of res -> length fs <= impl) /\
    get_output c' [rec] = Ok res.
Proof.
  intros t rv res.
  exists (store (payload_of rv (length fs)) c).1,
         (store (payload_of rv (length fs)) c).2.
  split; [|split; [|split]].
  - unfold prepare_output. fold t. fold rv. unfold res.
    destruct rv as [f|v]; cbn [payload_of handle_of rvalue_list];
      destruct (store _ c) as [rec c']; reflexivity.
  - apply read_fresh.
  - intros impl. unfold res. rewrite impls_of_handle.
    intros Hin. apply elem_of_seq in Hin. lia.
  - pose proof (get_output_handle rv (length fs) c []) as H.
    now rewrite app_nil_r, Cloud_eta in H.
Qed.

(** X19: a call on an object that holds a queue runs nothing. When
    [operator()] returns, the universe is the one before the call with
    the allocated result behind it, the handle returned shows what the
    allocator returned, and the object still holds the same queue. *)
Theorem op_call_deferred_placeholder self args st (q : nat) res self' st' :
  taskq_ptr self = Some q ->
  op_call self args st = Ok (res, self', st') ->
  let t := mt_task self in
  let rv := allocator t (batch t) args in
  funcs st' = funcs st ++ rvalue_list rv /\
  read_result res (funcs st') = Some rv /\
  taskq_ptr self' = Some q /\
  length (queues st') = length (queues st).
Proof.
  intros Hq Hcall t rv.
  destruct (queues st !! q) as [Q|] eqn:HQ.
  - rewrite (op_call_deferred fadd default_priority MacroTaskPartitioner_new
               partition_tasks self args st q Q Hq HQ) in Hcall.
    cbv zeta in Hcall.
    destruct (partition_tasks _ args) as [partition| | |]; try discriminate.
    cbn [obind] in Hcall.
    destruct (eff_task_idem MacroTaskPartitioner_new (world self)
                (mt_task self)) as (_ & _ & Hal & Hb).
    rewrite Hal, Hb in Hcall. fold t in Hcall. fold rv in Hcall.
    injection Hcall as <- <- <-. cbn [funcs queues taskq_ptr].
    split; [reflexivity|]. split; [apply read_fresh|].
    split; [reflexivity|]. apply length_insert.
  - unfold MacroTask.op_call in Hcall. rewrite Hq, HQ in Hcall.
    destruct (partition_tasks _ args); discriminate.
Qed.
End OutputFacts.

(** A witness of [op_call_deferred_placeholder]: the integer [MicroTask]
    on [v3], called with a queue of the caller. *)
Lemma op_call_deferred_placeholder_witness :
  let st := (make_taskq IntTasks.universe IntTasks.st0).2 in
  let task := mkMacroTask (IntTasks.MicroTask 2) IntTasks.universe (Some 0) in
  match IntTasks.op_call task IntTasks.args st with
  | Ok (res, self', st') =>
      funcs st' = [0; 0; 0; 0; 0]%Z /\
      read_result res (funcs st') = Some (RVector [0; 0; 0; 0; 0]%Z) /\
      taskq_ptr self' = Some 0
  | _ => False
  end.
Proof.
  intros st task.
  destruct (IntTasks.op_call task IntTasks.args st)
    as [[[res self'] st']| | |] eqn:E;
    try (vm_compute in E; discriminate E).
  destruct (op_call_deferred_placeholder Z.add 0 (mkPartitioner 0 1 1)
              partition_tasks_1d task IntTasks.args st 0 res self' st'
              eq_refl E) as (Hf & Hr & Hp & _).
  split; [exact Hf|]. split; [exact Hr|exact Hp].
Defined.

End MacroTaskFacts.
